(** * Puffin: Huffman tables of the DEFLATE <-> puff transcoder

    A shallow embedding of [src/huffman_table.cc] and the properties of
    canonical code construction, forward-table expansion and the dynamic
    header transcoding in both directions.

    Conventions.
    - [uint8_t], [uint16_t] and [uint32_t] values are numbers in [N]; the
      wrap-around of a 16-bit store is written [uint16].
    - [size_t] counters ([idx], [index], [max_bits], lengths) are [nat]:
      they count elements of in-memory vectors and never wrap.
    - A [std::vector] or a C array is a [list]; [v.[i]] reads a slot and
      [<[i:=x]> v] writes one.
    - A function returning [bool] returns an [outcome]: [Ret] for [true]
      (with the values it leaves behind), [Fail] for [false] (with the
      [Error] it stored, when it has an [Error*]), and [Undefined] where
      the C++ indexes outside an array. *)

From Stdlib Require Import NArith ZArith QArith Lia Lqa Bool.
From stdpp Require Import base numbers list sorting.

Local Open Scope N_scope.

(** ** Outcomes *)

(** Modelled from the spec: [puffin/errors.h] is not among the sources; the
    error taxonomy is the one of the specification (section 7). *)
Inductive Error : Set :=
  | kInsufficientInput
  | kInsufficientOutput
  | kInvalidInput.

Inductive outcome (E A : Type) : Type :=
  | Ret (a : A)
  | Fail (e : E)
  | Undefined.
Arguments Ret {E A} a.
Arguments Fail {E A} e.
Arguments Undefined {E A}.

Definition obind {E A B} (m : outcome E A) (k : A -> outcome E B) : outcome E B :=
  match m with
  | Ret a => k a
  | Fail e => Fail e
  | Undefined => Undefined
  end.

#[global] Instance outcome_mbind E : MBind (outcome E) := fun A B k m => obind m k.
#[global] Instance outcome_mret E : MRet (outcome E) := fun A a => Ret a.

(** [TEST_AND_RETURN_FALSE(cond)] and [TEST_AND_RETURN_FALSE_SET_ERROR(cond, e)]
    on a plain condition. *)
Definition test {E} (cond : bool) (e : E) : outcome E unit :=
  if cond then Ret tt else Fail e.

(** [TEST_AND_RETURN_FALSE_SET_ERROR(call, e)] around a call that returns
    [bool] without touching [*error]. *)
Definition set_error {A} (m : outcome unit A) (e : Error) : outcome Error A :=
  match m with
  | Ret a => Ret a
  | Fail _ => Fail e
  | Undefined => Undefined
  end.

Definition returns_true {E A} (m : outcome E A) : bool :=
  match m with Ret _ => true | _ => false end.

Definition returns_false {E A} (m : outcome E A) : bool :=
  match m with Fail _ => true | _ => false end.

(** ** Machine integers and vectors *)

Definition uint8 (x : N) : N := x mod 2 ^ 8.
Definition uint16 (x : N) : N := x mod 2 ^ 16.

(** [v.[i]]: the element read by [v[i]] when [i] is in range. *)
Definition vec_get (v : list N) (i : nat) : N := default 0 (v !! i).
Notation "v .[ i ]" := (vec_get v i) (at level 1, left associativity, format "v .[ i ]").

(** Loads and stores of a [std::vector] whose size the caller fixed: outside
    its bounds [operator[]] is undefined. *)
Definition vec_load {E} (v : list N) (i : nat) : outcome E N :=
  match v !! i with
  | Some x => Ret x
  | None => Undefined
  end.

Definition vec_store {E} (v : list N) (i : nat) (x : N) : outcome E (list N) :=
  if (i <? length v)%nat then Ret (<[i:=x]> v) else Undefined.

(** ** Constants *)

(** Modelled from the spec: [kMaxHuffmanBits] is declared in
    [huffman_table.h], which is not among the sources; the specification
    counts the lengths [1..15]. *)
Definition kMaxHuffmanBits : nat := 15.

Definition kPermutations : list nat :=
  [16; 17; 18; 0; 8; 7; 9; 6; 10; 5; 11; 4; 12; 3; 13; 2; 14; 1; 15]%nat.

(** Modelled from the spec: [CodeIndexPair] is declared in [huffman_table.h];
    both members are 16-bit, like the entries of the tables they fill. *)
Record CodeIndexPair : Set := { code : N; index : N }.

(** ** InitHuffmanCodes *)

Module Init.

(** 1. [for (auto len : lens) len_count_[len]++;] on a [uint16_t[16]]. *)
Fixpoint count_lens (lens : list N) (len_count_ : list N) : outcome unit (list N) :=
  match lens with
  | [] => Ret len_count_
  | len :: rest =>
      if (N.to_nat len <=? kMaxHuffmanBits)%nat
      then count_lens rest (alter (fun c => uint16 (c + 1)) (N.to_nat len) len_count_)
      else Undefined
  end.

(** The downward search for the largest used length: [max_bits] starts at
    [kMaxHuffmanBits], stops at the first [len_count_[max_bits] != 0] and
    otherwise runs down to 0. *)
Fixpoint find_max_bits (len_count_ : list N) (max_bits : nat) : nat :=
  match max_bits with
  | O => O
  | S m => if len_count_.[max_bits] =? 0 then find_max_bits len_count_ m else max_bits
  end.

(** [for (idx = 1; idx <= *max_bits; idx++)
      if (len_count_[idx] > (1 << idx)) return false;] *)
Definition oversubscribed (len_count_ : list N) (max_bits : nat) : bool :=
  existsb (fun idx => N.shiftl 1 (N.of_nat idx) <? len_count_.[idx]) (seq 1 max_bits).

(** 2. [code = (code + len_count_[bits - 1]) << 1; next_code_[bits] = code;]
    for [bits] from 1 to [kMaxHuffmanBits]; [code] is a [uint16_t]. *)
Fixpoint first_codes (bits : list nat) (code : N) (len_count_ next_code_ : list N) : list N :=
  match bits with
  | [] => next_code_
  | b :: rest =>
      let code := uint16 (N.shiftl (code + len_count_.[(b - 1)%nat]) 1) in
      first_codes rest code len_count_ (<[b:=code]> next_code_)
  end.

(** The inner loop of step 3, run [r] more times:
    [cip.code <<= 1; cip.code |= tmp_code & 1U; tmp_code >>= 1;] *)
Fixpoint reverse_code (r : nat) (tmp_code cip_code : N) : N :=
  match r with
  | O => cip_code
  | S r' =>
      reverse_code r' (N.shiftr tmp_code 1)
        (N.lor (uint16 (N.shiftl cip_code 1)) (N.land tmp_code 1))
  end.

(** 3. The loop over [idx], pushing one pair per symbol of non-zero length
    and incrementing [next_code_[len]]. *)
Fixpoint assign_codes (lens : list N) (idx : nat) (next_code_ : list N)
    (codeindexpairs_ : list CodeIndexPair) : list CodeIndexPair :=
  match lens with
  | [] => codeindexpairs_
  | len :: rest =>
      if len =? 0 then assign_codes rest (S idx) next_code_ codeindexpairs_
      else
        let cip := {| code := reverse_code (N.to_nat len) next_code_.[N.to_nat len] 0;
                      index := uint16 (N.of_nat idx) |} in
        assign_codes rest (S idx)
          (alter (fun c => uint16 (c + 1)) (N.to_nat len) next_code_)
          (codeindexpairs_ ++ [cip])
  end.

End Init.

(** [InitHuffmanCodes(lens, &max_bits)]: on [true], the value left in
    [max_bits] and the contents of [codeindexpairs_]. The warning logged
    for an array without non-zero lengths has no effect on the result. *)
Definition InitHuffmanCodes (lens : list N) : outcome unit (nat * list CodeIndexPair) :=
  len_count_ ← Init.count_lens lens (replicate (S kMaxHuffmanBits) 0);
  let max_bits := Init.find_max_bits len_count_ kMaxHuffmanBits in
  _ ← test (negb (Init.oversubscribed len_count_ max_bits)) tt;
  let len_count_ := <[O:=0]> len_count_ in
  let next_code_ :=
    Init.first_codes (seq 1 kMaxHuffmanBits) 0 len_count_ (replicate (S kMaxHuffmanBits) 0) in
  Ret (max_bits, Init.assign_codes lens O next_code_ []).


(** ** Bit streams *)

(** Modelled from the spec: [bit_reader.cc] and [bit_writer.cc] are not among
    the sources. Section 3 fixes the convention (bits packed LSB-first) and
    sections 4.1 and 4.2 the operations: [CacheBits(n)] succeeds when [n]
    more bits are available, [ReadBits(n)] returns the next [n] bits as an
    unsigned integer without advancing, [DropBits(n)] advances;
    [WriteBits(n, value)] packs the low [n] bits of [value] and fails when
    the target buffer is exhausted. A reader is the sequence of bits not yet
    dropped; a writer is the sequence written so far and the size of its
    target in bits. *)
Fixpoint bits_to_N (bs : list bool) : N :=
  match bs with
  | [] => 0
  | b :: rest => N.b2n b + 2 * bits_to_N rest
  end.

Fixpoint N_to_bits (n : nat) (value : N) : list bool :=
  match n with
  | O => []
  | S k => N.odd value :: N_to_bits k (N.div2 value)
  end.

Definition BitReader : Type := list bool.
Definition CacheBits (n : nat) (br : BitReader) : bool := (n <=? length br)%nat.
Definition ReadBits (n : nat) (br : BitReader) : N := bits_to_N (take n br).
Definition DropBits (n : nat) (br : BitReader) : BitReader := drop n br.

Record BitWriter : Type := { bw_bits : list bool; bw_size : nat }.
Definition WriteBits (n : nat) (value : N) (bw : BitWriter) : option BitWriter :=
  if (length (bw_bits bw) + n <=? bw_size bw)%nat
  then Some {| bw_bits := bw_bits bw ++ N_to_bits n value; bw_size := bw_size bw |}
  else None.

(** [TEST_AND_RETURN_FALSE_SET_ERROR(bw->WriteBits(n, v), e)] *)
Definition write_or (n : nat) (value : N) (bw : BitWriter) (e : Error) : outcome Error BitWriter :=
  match WriteBits n value bw with
  | Some bw' => Ret bw'
  | None => Fail e
  end.

(** ** The table object *)

Record HuffmanTable : Type := {
  code_lens_ : list N;
  code_hcodes_ : list N;
  code_rcodes_ : list N;
  code_max_bits_ : nat;
  lit_len_lens_ : list N;
  lit_len_hcodes_ : list N;
  lit_len_rcodes_ : list N;
  lit_len_max_bits_ : nat;
  distance_lens_ : list N;
  distance_hcodes_ : list N;
  distance_rcodes_ : list N;
  distance_max_bits_ : nat;
  codeindexpairs_ : list CodeIndexPair;
  initialized_ : bool
}.

(** The object right after [HuffmanTable::HuffmanTable()]. *)
Definition new_table : HuffmanTable :=
  {| code_lens_ := []; code_hcodes_ := []; code_rcodes_ := []; code_max_bits_ := O;
     lit_len_lens_ := []; lit_len_hcodes_ := []; lit_len_rcodes_ := []; lit_len_max_bits_ := O;
     distance_lens_ := []; distance_hcodes_ := []; distance_rcodes_ := [];
     distance_max_bits_ := O;
     codeindexpairs_ := replicate 288 {| code := 0; index := 0 |};
     initialized_ := false |}.

(** Modelled from the spec: [CheckHuffmanArrayLengths] is defined in
    [huffman_table.h]; the specification (4.3, step 1) gives the ranges
    [HLIT + 257 <= 286], [HDIST + 1 <= 30], [HCLEN + 4 <= 19]. *)
Definition CheckHuffmanArrayLengths (num_lit_len num_distance num_codes : nat) : bool :=
  (num_lit_len <=? 286)%nat && (num_distance <=? 30)%nat && (num_codes <=? 19)%nat.

(** Modelled from the spec: [CodeAlphabet] is defined in [huffman_table.h].
    A forward-table entry holds the symbol in bits 0..14 and the valid bit
    at bit 15 (section 3); the lookup returns the symbol and its length
    (4.3, "look up the next max_bits bits in the meta table; drop the
    returned nbits"), and fails on an entry that is not valid. *)
Definition CodeAlphabet (ht : HuffmanTable) (bits : N) : outcome unit (N * nat) :=
  hc ← vec_load (code_hcodes_ ht) (N.to_nat bits);
  _ ← test (negb (N.land hc 0x8000 =? 0)) tt;
  let alphabet := N.land hc 0x7FFF in
  nbits ← vec_load (code_lens_ ht) (N.to_nat alphabet);
  Ret (alphabet, N.to_nat nbits).

(** Modelled from the spec: [CodeHuffman] is defined in [huffman_table.h].
    The reverse table is indexed by symbol and holds the bit-reversed
    canonical code (section 3); the lookup returns it with the symbol's
    length, and fails on a symbol outside the 19-entry meta alphabet. *)
Definition CodeHuffman (ht : HuffmanTable) (alphabet : N) : outcome unit (N * nat) :=
  _ ← test (N.to_nat alphabet <? length (code_lens_ ht))%nat tt;
  hcode ← vec_load (code_rcodes_ ht) (N.to_nat alphabet);
  nbits ← vec_load (code_lens_ ht) (N.to_nat alphabet);
  Ret (hcode, N.to_nat nbits).

(** Member assignments. *)
Definition set_code_lens_ (ht : HuffmanTable) (v : list N) : HuffmanTable :=
  {| code_lens_ := v; code_hcodes_ := code_hcodes_ ht; code_rcodes_ := code_rcodes_ ht; code_max_bits_ := code_max_bits_ ht; lit_len_lens_ := lit_len_lens_ ht; lit_len_hcodes_ := lit_len_hcodes_ ht; lit_len_rcodes_ := lit_len_rcodes_ ht; lit_len_max_bits_ := lit_len_max_bits_ ht; distance_lens_ := distance_lens_ ht; distance_hcodes_ := distance_hcodes_ ht; distance_rcodes_ := distance_rcodes_ ht; distance_max_bits_ := distance_max_bits_ ht; codeindexpairs_ := codeindexpairs_ ht; initialized_ := initialized_ ht |}.
Definition set_code_hcodes_ (ht : HuffmanTable) (v : list N) : HuffmanTable :=
  {| code_lens_ := code_lens_ ht; code_hcodes_ := v; code_rcodes_ := code_rcodes_ ht; code_max_bits_ := code_max_bits_ ht; lit_len_lens_ := lit_len_lens_ ht; lit_len_hcodes_ := lit_len_hcodes_ ht; lit_len_rcodes_ := lit_len_rcodes_ ht; lit_len_max_bits_ := lit_len_max_bits_ ht; distance_lens_ := distance_lens_ ht; distance_hcodes_ := distance_hcodes_ ht; distance_rcodes_ := distance_rcodes_ ht; distance_max_bits_ := distance_max_bits_ ht; codeindexpairs_ := codeindexpairs_ ht; initialized_ := initialized_ ht |}.
Definition set_code_rcodes_ (ht : HuffmanTable) (v : list N) : HuffmanTable :=
  {| code_lens_ := code_lens_ ht; code_hcodes_ := code_hcodes_ ht; code_rcodes_ := v; code_max_bits_ := code_max_bits_ ht; lit_len_lens_ := lit_len_lens_ ht; lit_len_hcodes_ := lit_len_hcodes_ ht; lit_len_rcodes_ := lit_len_rcodes_ ht; lit_len_max_bits_ := lit_len_max_bits_ ht; distance_lens_ := distance_lens_ ht; distance_hcodes_ := distance_hcodes_ ht; distance_rcodes_ := distance_rcodes_ ht; distance_max_bits_ := distance_max_bits_ ht; codeindexpairs_ := codeindexpairs_ ht; initialized_ := initialized_ ht |}.
Definition set_code_max_bits_ (ht : HuffmanTable) (v : nat) : HuffmanTable :=
  {| code_lens_ := code_lens_ ht; code_hcodes_ := code_hcodes_ ht; code_rcodes_ := code_rcodes_ ht; code_max_bits_ := v; lit_len_lens_ := lit_len_lens_ ht; lit_len_hcodes_ := lit_len_hcodes_ ht; lit_len_rcodes_ := lit_len_rcodes_ ht; lit_len_max_bits_ := lit_len_max_bits_ ht; distance_lens_ := distance_lens_ ht; distance_hcodes_ := distance_hcodes_ ht; distance_rcodes_ := distance_rcodes_ ht; distance_max_bits_ := distance_max_bits_ ht; codeindexpairs_ := codeindexpairs_ ht; initialized_ := initialized_ ht |}.
Definition set_lit_len_lens_ (ht : HuffmanTable) (v : list N) : HuffmanTable :=
  {| code_lens_ := code_lens_ ht; code_hcodes_ := code_hcodes_ ht; code_rcodes_ := code_rcodes_ ht; code_max_bits_ := code_max_bits_ ht; lit_len_lens_ := v; lit_len_hcodes_ := lit_len_hcodes_ ht; lit_len_rcodes_ := lit_len_rcodes_ ht; lit_len_max_bits_ := lit_len_max_bits_ ht; distance_lens_ := distance_lens_ ht; distance_hcodes_ := distance_hcodes_ ht; distance_rcodes_ := distance_rcodes_ ht; distance_max_bits_ := distance_max_bits_ ht; codeindexpairs_ := codeindexpairs_ ht; initialized_ := initialized_ ht |}.
Definition set_lit_len_hcodes_ (ht : HuffmanTable) (v : list N) : HuffmanTable :=
  {| code_lens_ := code_lens_ ht; code_hcodes_ := code_hcodes_ ht; code_rcodes_ := code_rcodes_ ht; code_max_bits_ := code_max_bits_ ht; lit_len_lens_ := lit_len_lens_ ht; lit_len_hcodes_ := v; lit_len_rcodes_ := lit_len_rcodes_ ht; lit_len_max_bits_ := lit_len_max_bits_ ht; distance_lens_ := distance_lens_ ht; distance_hcodes_ := distance_hcodes_ ht; distance_rcodes_ := distance_rcodes_ ht; distance_max_bits_ := distance_max_bits_ ht; codeindexpairs_ := codeindexpairs_ ht; initialized_ := initialized_ ht |}.
Definition set_lit_len_rcodes_ (ht : HuffmanTable) (v : list N) : HuffmanTable :=
  {| code_lens_ := code_lens_ ht; code_hcodes_ := code_hcodes_ ht; code_rcodes_ := code_rcodes_ ht; code_max_bits_ := code_max_bits_ ht; lit_len_lens_ := lit_len_lens_ ht; lit_len_hcodes_ := lit_len_hcodes_ ht; lit_len_rcodes_ := v; lit_len_max_bits_ := lit_len_max_bits_ ht; distance_lens_ := distance_lens_ ht; distance_hcodes_ := distance_hcodes_ ht; distance_rcodes_ := distance_rcodes_ ht; distance_max_bits_ := distance_max_bits_ ht; codeindexpairs_ := codeindexpairs_ ht; initialized_ := initialized_ ht |}.
Definition set_lit_len_max_bits_ (ht : HuffmanTable) (v : nat) : HuffmanTable :=
  {| code_lens_ := code_lens_ ht; code_hcodes_ := code_hcodes_ ht; code_rcodes_ := code_rcodes_ ht; code_max_bits_ := code_max_bits_ ht; lit_len_lens_ := lit_len_lens_ ht; lit_len_hcodes_ := lit_len_hcodes_ ht; lit_len_rcodes_ := lit_len_rcodes_ ht; lit_len_max_bits_ := v; distance_lens_ := distance_lens_ ht; distance_hcodes_ := distance_hcodes_ ht; distance_rcodes_ := distance_rcodes_ ht; distance_max_bits_ := distance_max_bits_ ht; codeindexpairs_ := codeindexpairs_ ht; initialized_ := initialized_ ht |}.
Definition set_distance_lens_ (ht : HuffmanTable) (v : list N) : HuffmanTable :=
  {| code_lens_ := code_lens_ ht; code_hcodes_ := code_hcodes_ ht; code_rcodes_ := code_rcodes_ ht; code_max_bits_ := code_max_bits_ ht; lit_len_lens_ := lit_len_lens_ ht; lit_len_hcodes_ := lit_len_hcodes_ ht; lit_len_rcodes_ := lit_len_rcodes_ ht; lit_len_max_bits_ := lit_len_max_bits_ ht; distance_lens_ := v; distance_hcodes_ := distance_hcodes_ ht; distance_rcodes_ := distance_rcodes_ ht; distance_max_bits_ := distance_max_bits_ ht; codeindexpairs_ := codeindexpairs_ ht; initialized_ := initialized_ ht |}.
Definition set_distance_hcodes_ (ht : HuffmanTable) (v : list N) : HuffmanTable :=
  {| code_lens_ := code_lens_ ht; code_hcodes_ := code_hcodes_ ht; code_rcodes_ := code_rcodes_ ht; code_max_bits_ := code_max_bits_ ht; lit_len_lens_ := lit_len_lens_ ht; lit_len_hcodes_ := lit_len_hcodes_ ht; lit_len_rcodes_ := lit_len_rcodes_ ht; lit_len_max_bits_ := lit_len_max_bits_ ht; distance_lens_ := distance_lens_ ht; distance_hcodes_ := v; distance_rcodes_ := distance_rcodes_ ht; distance_max_bits_ := distance_max_bits_ ht; codeindexpairs_ := codeindexpairs_ ht; initialized_ := initialized_ ht |}.
Definition set_distance_rcodes_ (ht : HuffmanTable) (v : list N) : HuffmanTable :=
  {| code_lens_ := code_lens_ ht; code_hcodes_ := code_hcodes_ ht; code_rcodes_ := code_rcodes_ ht; code_max_bits_ := code_max_bits_ ht; lit_len_lens_ := lit_len_lens_ ht; lit_len_hcodes_ := lit_len_hcodes_ ht; lit_len_rcodes_ := lit_len_rcodes_ ht; lit_len_max_bits_ := lit_len_max_bits_ ht; distance_lens_ := distance_lens_ ht; distance_hcodes_ := distance_hcodes_ ht; distance_rcodes_ := v; distance_max_bits_ := distance_max_bits_ ht; codeindexpairs_ := codeindexpairs_ ht; initialized_ := initialized_ ht |}.
Definition set_distance_max_bits_ (ht : HuffmanTable) (v : nat) : HuffmanTable :=
  {| code_lens_ := code_lens_ ht; code_hcodes_ := code_hcodes_ ht; code_rcodes_ := code_rcodes_ ht; code_max_bits_ := code_max_bits_ ht; lit_len_lens_ := lit_len_lens_ ht; lit_len_hcodes_ := lit_len_hcodes_ ht; lit_len_rcodes_ := lit_len_rcodes_ ht; lit_len_max_bits_ := lit_len_max_bits_ ht; distance_lens_ := distance_lens_ ht; distance_hcodes_ := distance_hcodes_ ht; distance_rcodes_ := distance_rcodes_ ht; distance_max_bits_ := v; codeindexpairs_ := codeindexpairs_ ht; initialized_ := initialized_ ht |}.
Definition set_codeindexpairs_ (ht : HuffmanTable) (v : list CodeIndexPair) : HuffmanTable :=
  {| code_lens_ := code_lens_ ht; code_hcodes_ := code_hcodes_ ht; code_rcodes_ := code_rcodes_ ht; code_max_bits_ := code_max_bits_ ht; lit_len_lens_ := lit_len_lens_ ht; lit_len_hcodes_ := lit_len_hcodes_ ht; lit_len_rcodes_ := lit_len_rcodes_ ht; lit_len_max_bits_ := lit_len_max_bits_ ht; distance_lens_ := distance_lens_ ht; distance_hcodes_ := distance_hcodes_ ht; distance_rcodes_ := distance_rcodes_ ht; distance_max_bits_ := distance_max_bits_ ht; codeindexpairs_ := v; initialized_ := initialized_ ht |}.
Definition set_initialized_ (ht : HuffmanTable) (v : bool) : HuffmanTable :=
  {| code_lens_ := code_lens_ ht; code_hcodes_ := code_hcodes_ ht; code_rcodes_ := code_rcodes_ ht; code_max_bits_ := code_max_bits_ ht; lit_len_lens_ := lit_len_lens_ ht; lit_len_hcodes_ := lit_len_hcodes_ ht; lit_len_rcodes_ := lit_len_rcodes_ ht; lit_len_max_bits_ := lit_len_max_bits_ ht; distance_lens_ := distance_lens_ ht; distance_hcodes_ := distance_hcodes_ ht; distance_rcodes_ := distance_rcodes_ ht; distance_max_bits_ := distance_max_bits_ ht; codeindexpairs_ := codeindexpairs_ ht; initialized_ := v |}.

(** ** Specification-level notions *)

(** The Kraft sum of a code-length array: the sum of [2^-len] over the
    entries with [len > 0]. *)
Fixpoint kraft_sum (lens : list N) : Q :=
  match lens with
  | [] => 0%Q
  | len :: rest =>
      ((if len =? 0 then 0 else 1 / inject_Z (2 ^ Z.of_N len)) + kraft_sum rest)%Q
  end.

(** The number of symbols of length [L]. *)
Definition num_of_len (L : N) (lens : list N) : nat :=
  length (filter (fun len => len = L) lens).

(** The canonical code of length [len] and value [c], as the bit stream
    carries it: bit [j] of the result is bit [len - 1 - j] of [c]. *)
Definition bit_reversed (len : nat) (c : N) : N :=
  bits_to_N (rev (N_to_bits len c)).

(** A table index carries the code [c] of length [len] in its low bits. *)
Definition low_bits (len : nat) (i : N) : N := i mod 2 ^ N.of_nat len.

(** A routine [std::sort] may be: insertion from the right. *)
Fixpoint insert_sorted {A} (comp : A -> A -> bool) (x : A) (l : list A) : list A :=
  match l with
  | [] => [x]
  | y :: rest => if comp y x then y :: insert_sorted comp x rest else x :: l
  end.

Definition insertion_sort {A} (comp : A -> A -> bool) (l : list A) : list A :=
  foldr (insert_sorted comp) [] l.

Section Transcoder.

(** [std::sort] leaves the order of equivalent elements unspecified: the
    development is parametric in the sorting routine, of which it assumes
    what the C++ standard guarantees for a strict weak ordering. *)
Definition strict_weak_order {A} (comp : A -> A -> bool) : Prop :=
  (forall a, comp a a = false) /\
  (forall a b c, comp a b = true -> comp b c = true -> comp a c = true) /\
  (forall a b c, comp a b = false -> comp b c = false -> comp a c = false).

Variable std_sort :
  (CodeIndexPair -> CodeIndexPair -> bool) -> list CodeIndexPair -> list CodeIndexPair.
Hypothesis std_sort_perm : forall comp l, std_sort comp l ≡ₚ l.
Hypothesis std_sort_sorted : forall comp l,
  strict_weak_order comp -> StronglySorted (fun a b => comp b a = false) (std_sort comp l).

(** ** BuildHuffmanCodes *)

(** [for (auto idx = 1; idx < (1 << fill_bits); idx++)]: the extensions of
    one code, written where the slot is still empty. [hcodes[location]]
    is read and written with the unchecked [operator[]]: outside the vector
    both are undefined. *)
Fixpoint fill_codes (idxs : list nat) (len : N) (cip : CodeIndexPair) (hcodes : list N)
    : outcome unit (list N) :=
  match idxs with
  | [] => Ret hcodes
  | idx :: rest =>
      let location := N.to_nat (N.lor (N.shiftl (N.of_nat idx) len) (code cip)) in
      hc ← vec_load hcodes location;
      hcodes ← (if N.land hc 0x8000 =? 0
                then vec_store hcodes location (uint16 (N.lor (index cip) 0x8000))
                else Ret hcodes);
      fill_codes rest len cip hcodes
  end.

(** [for (const auto& cip : codeindexpairs_)]: the store at
    [hcodes[cip.code]], the read of [lens[cip.index]] and the fill loop,
    all three through the unchecked [operator[]]. [fill_bits] is the
    [size_t] difference [max_bits - lens[cip.index]]; were the length above
    [max_bits] it would wrap and the shift [1 << fill_bits] be undefined. *)
Fixpoint expand_codes (cips : list CodeIndexPair) (lens : list N) (max_bits : nat)
    (hcodes : list N) : outcome unit (list N) :=
  match cips with
  | [] => Ret hcodes
  | cip :: rest =>
      hcodes ← vec_store hcodes (N.to_nat (code cip)) (uint16 (N.lor (index cip) 0x8000));
      len ← vec_load lens (N.to_nat (index cip));
      if (N.to_nat len <=? max_bits)%nat then
        let fill_bits := (max_bits - N.to_nat len)%nat in
        hcodes ← fill_codes (seq 1 (2 ^ fill_bits - 1)) len cip hcodes;
        expand_codes rest lens max_bits hcodes
      else Undefined
  end.

(** [BuildHuffmanCodes(lens, &hcodes, &max_bits)]: the new contents of
    [hcodes], [max_bits] and [codeindexpairs_]. [memset] zeroes the first
    [1 << max_bits] entries, which the vector must have. *)
Definition BuildHuffmanCodes (lens hcodes : list N)
    : outcome unit (list N * nat * list CodeIndexPair) :=
  '(max_bits, cips) ← InitHuffmanCodes lens;
  let cips :=
    std_sort (fun a b => lens.[N.to_nat (index b)] <? lens.[N.to_nat (index a)]) cips in
  let n := (2 ^ max_bits)%nat in
  if (n <=? length hcodes)%nat then
    hcodes ← expand_codes cips lens max_bits (replicate n 0 ++ drop n hcodes);
    Ret (hcodes, max_bits, cips)
  else Undefined.

(** ** BuildHuffmanReverseCodes *)

(** [for (size_t idx = 0; idx < rcodes->size(); idx++)], with the cursor
    [index] into the sorted pairs. *)
Fixpoint reverse_codes (idxs : list nat) (index_ : nat) (cips : list CodeIndexPair)
    (rcodes : list N) : list N :=
  match idxs with
  | [] => rcodes
  | idx :: rest =>
      match cips !! index_ with
      | Some cip =>
          if N.of_nat idx =? index cip
          then reverse_codes rest (S index_) cips (<[idx:=code cip]> rcodes)
          else reverse_codes rest index_ cips (<[idx:=0]> rcodes)
      | None => reverse_codes rest index_ cips (<[idx:=0]> rcodes)
      end
  end.

Definition BuildHuffmanReverseCodes (lens rcodes : list N)
    : outcome unit (list N * nat * list CodeIndexPair) :=
  '(max_bits, cips) ← InitHuffmanCodes lens;
  let cips := std_sort (fun a b => index a <? index b) cips in
  Ret (reverse_codes (seq 0 (length rcodes)) O cips rcodes, max_bits, cips).

(** ** BuildHuffmanCodeLengths, DEFLATE bits to puff bytes *)

(** The [switch (code)] of a repeat marker: [copy_num], [copy_val], the
    reader and the buffer after the marker's byte is stored at [index]. *)
Definition repeat_marker_br (code : N) (idx : nat) (br : BitReader) (buffer : list N)
    (index_ : nat) (lens : list N) : outcome Error (nat * N * BitReader * list N) :=
  if code =? 16 then
    _ ← test (negb (idx =? 0)%nat) kInvalidInput;
    _ ← test (CacheBits 2 br) kInsufficientInput;
    let copy_num := N.to_nat (3 + ReadBits 2 br) in
    let buffer := <[index_:=uint8 (16 + ReadBits 2 br)]> buffer in
    copy_val ← vec_load lens (idx - 1);
    Ret (copy_num, copy_val, DropBits 2 br, buffer)
  else if code =? 17 then
    _ ← test (CacheBits 3 br) kInsufficientInput;
    let copy_num := N.to_nat (3 + ReadBits 3 br) in
    let buffer := <[index_:=uint8 (20 + ReadBits 3 br)]> buffer in
    Ret (copy_num, 0, DropBits 3 br, buffer)
  else if code =? 18 then
    _ ← test (CacheBits 7 br) kInsufficientInput;
    let copy_num := N.to_nat (11 + ReadBits 7 br) in
    let buffer := <[index_:=uint8 (28 + ReadBits 7 br)]> buffer in
    Ret (copy_num, 0, DropBits 7 br, buffer)
  else Fail kInvalidInput.

(** [for (size_t idx = 0; idx < num_codes;)]. Every iteration advances
    [idx], so [num_codes - idx] iterations are never exceeded
    ([code_lengths_br_fuel]). *)
Fixpoint code_lengths_br (fuel : nat) (ht : HuffmanTable) (max_bits num_codes idx : nat)
    (br : BitReader) (buffer : list N) (index_ : nat) (lens : list N)
    : outcome Error (BitReader * list N * nat * list N) :=
  if (idx <? num_codes)%nat then
    match fuel with
    | O => Undefined
    | S fuel =>
        _ ← test (CacheBits max_bits br) kInsufficientInput;
        let bits := ReadBits max_bits br in
        '(code, nbits) ← set_error (CodeAlphabet ht bits) kInvalidInput;
        _ ← test (index_ <? length buffer)%nat kInsufficientOutput;
        let br := DropBits nbits br in
        if code <? 16 then
          code_lengths_br fuel ht max_bits num_codes (S idx) br
            (<[index_:=uint8 code]> buffer) (S index_) (lens ++ [uint8 code])
        else
          _ ← test (code <? 19) kInvalidInput;
          '(copy_num, copy_val, br, buffer) ←
            repeat_marker_br code idx br buffer index_ lens;
          code_lengths_br fuel ht max_bits num_codes (idx + copy_num) br
            buffer (S index_) (lens ++ replicate copy_num copy_val)
    end
  else Ret (br, buffer, index_, lens).

(** [BuildHuffmanCodeLengths(br, buffer, &length, max_bits, num_codes, &lens,
    &error)]: the reader, the buffer, the number of bytes written and
    [lens]. [buffer] is the span of [length] bytes the caller offers. *)
Definition BuildHuffmanCodeLengths_br (ht : HuffmanTable) (br : BitReader) (buffer : list N)
    (max_bits num_codes : nat) : outcome Error (BitReader * list N * nat * list N) :=
  code_lengths_br num_codes ht max_bits num_codes O br buffer O [].

(** ** BuildHuffmanCodeLengths, puff bytes to DEFLATE bits *)

Definition repeat_marker_bw (code pcode : N) (idx : nat) (bw : BitWriter) (lens : list N)
    : outcome Error (nat * N * BitWriter) :=
  if code =? 16 then
    _ ← test (negb (idx =? 0)%nat) kInvalidInput;
    bw ← write_or 2 (pcode - 16) bw kInsufficientOutput;
    copy_val ← vec_load lens (idx - 1);
    Ret (N.to_nat (3 + pcode - 16), copy_val, bw)
  else if code =? 17 then
    bw ← write_or 3 (pcode - 20) bw kInsufficientOutput;
    Ret (N.to_nat (3 + pcode - 20), 0, bw)
  else if code =? 18 then
    bw ← write_or 7 (pcode - 28) bw kInsufficientOutput;
    Ret (N.to_nat (11 + pcode - 28), 0, bw)
  else Ret (O, 0, bw).

Fixpoint code_lengths_bw (fuel : nat) (ht : HuffmanTable) (num_codes idx : nat)
    (buffer : list N) (index_ : nat) (bw : BitWriter) (lens : list N)
    : outcome Error (nat * BitWriter * list N) :=
  if (idx <? num_codes)%nat then
    match fuel with
    | O => Undefined
    | S fuel =>
        _ ← test (index_ <? length buffer)%nat kInsufficientInput;
        let pcode := buffer.[index_] in
        let index_ := S index_ in
        _ ← test (pcode <=? 155) kInvalidInput;
        let code :=
          if pcode <? 16 then pcode else if pcode <? 20 then 16
          else if pcode <? 28 then 17 else 18 in
        '(hcode, nbits) ← set_error (CodeHuffman ht code) kInvalidInput;
        bw ← write_or nbits hcode bw kInsufficientOutput;
        if code <? 16 then
          code_lengths_bw fuel ht num_codes (S idx) buffer index_ bw (lens ++ [uint8 code])
        else
          '(copy_num, copy_val, bw) ← repeat_marker_bw code pcode idx bw lens;
          code_lengths_bw fuel ht num_codes (idx + copy_num) buffer index_ bw
            (lens ++ replicate copy_num copy_val)
    end
  else Ret (index_, bw, lens).

(** [BuildHuffmanCodeLengths(buffer, &length, bw, num_codes, &lens, &error)]:
    the number of bytes consumed, the writer and [lens]. *)
Definition BuildHuffmanCodeLengths_bw (ht : HuffmanTable) (buffer : list N) (bw : BitWriter)
    (num_codes : nat) : outcome Error (nat * BitWriter * list N) :=
  code_lengths_bw num_codes ht num_codes O buffer O bw [].

(** ** BuildDynamicHuffmanTable, DEFLATE bits to puff bytes *)

Definition perm (idx : nat) : nat := nth idx kPermutations O.

(** [if (!initialized_)] of the reading direction. *)
Definition initialize_br (ht : HuffmanTable) : HuffmanTable :=
  if initialized_ ht then ht else
    let ht := set_code_lens_ ht (resize 19 0 (code_lens_ ht)) in
    let ht := set_code_hcodes_ ht (resize (2 ^ 7) 0 (code_hcodes_ ht)) in
    let ht := set_lit_len_lens_ ht (resize 286 0 (lit_len_lens_ ht)) in
    let ht := set_lit_len_hcodes_ ht (resize (2 ^ 15) 0 (lit_len_hcodes_ ht)) in
    let ht := set_distance_lens_ ht (resize 30 0 (distance_lens_ ht)) in
    let ht := set_distance_hcodes_ ht (resize (2 ^ 15) 0 (distance_hcodes_ ht)) in
    set_initialized_ ht true.

(** [for (; idx < num_codes; idx++)]: three bits per code length, stored
    permuted in [code_lens_] and two per byte, high nibble first, in the
    puff buffer (in range by the caller's test on [length - index]). *)
Fixpoint read_code_lens (idxs : list nat) (br : BitReader) (buffer : list N) (index_ : nat)
    (checked : bool) (code_lens : list N)
    : outcome Error (BitReader * list N * nat * bool * list N) :=
  match idxs with
  | [] => Ret (br, buffer, index_, checked, code_lens)
  | idx :: rest =>
      _ ← test (CacheBits 3 br) kInsufficientInput;
      code_lens ← vec_store code_lens (perm idx) (uint8 (ReadBits 3 br));
      let '(buffer, index_) :=
        if checked
        then (<[index_:=uint8 (N.lor buffer.[index_] (ReadBits 3 br))]> buffer, S index_)
        else (<[index_:=uint8 (N.shiftl (ReadBits 3 br) 4)]> buffer, index_) in
      read_code_lens rest (DropBits 3 br) buffer index_ (negb checked) code_lens
  end.

(** [for (; idx < 19; idx++) code_lens_[kPermutations[idx]] = 0;] *)
Fixpoint clear_code_lens {E} (idxs : list nat) (code_lens : list N) : outcome E (list N) :=
  match idxs with
  | [] => Ret code_lens
  | idx :: rest =>
      code_lens ← vec_store code_lens (perm idx) 0;
      clear_code_lens rest code_lens
  end.

(** [BuildDynamicHuffmanTable(br, buffer, &length, &error)]: the table, the
    reader, the buffer and the number of bytes of it that hold the puff
    header. [buffer] is the span of [length] bytes the caller offers. *)
Definition BuildDynamicHuffmanTable_br (ht : HuffmanTable) (br : BitReader) (buffer : list N)
    : outcome Error (HuffmanTable * BitReader * list N * nat) :=
  let ht := initialize_br ht in
  _ ← test (3 <=? length buffer)%nat kInsufficientOutput;
  _ ← test (CacheBits 14 br) kInsufficientInput;
  let buffer := <[0%nat:=uint8 (ReadBits 5 br)]> buffer in
  let num_lit_len := (N.to_nat (ReadBits 5 br) + 257)%nat in
  let br := DropBits 5 br in
  let buffer := <[1%nat:=uint8 (ReadBits 5 br)]> buffer in
  let num_distance := (N.to_nat (ReadBits 5 br) + 1)%nat in
  let br := DropBits 5 br in
  let buffer := <[2%nat:=uint8 (ReadBits 4 br)]> buffer in
  let num_codes := (N.to_nat (ReadBits 4 br) + 4)%nat in
  let br := DropBits 4 br in
  let index_ := 3%nat in
  _ ← test (CheckHuffmanArrayLengths num_lit_len num_distance num_codes) kInvalidInput;
  _ ← test ((num_codes + 1) / 2 <=? length buffer - index_)%nat kInsufficientOutput;
  '(br, buffer, index_, checked, code_lens) ←
    read_code_lens (seq 0 num_codes) br buffer index_ false (code_lens_ ht);
  let index_ := if checked : bool then S index_ else index_ in
  code_lens ← clear_code_lens (seq num_codes (19 - num_codes)) code_lens;
  let ht := set_code_lens_ ht code_lens in
  '(hcodes, max_bits, cips) ←
    set_error (BuildHuffmanCodes (code_lens_ ht) (code_hcodes_ ht)) kInvalidInput;
  let ht := set_codeindexpairs_ (set_code_max_bits_ (set_code_hcodes_ ht hcodes) max_bits) cips in
  '(br, sub, bytes_available, lens) ←
    BuildHuffmanCodeLengths_br ht br (drop index_ buffer) (code_max_bits_ ht) num_lit_len;
  let buffer := take index_ buffer ++ sub in
  let ht := set_lit_len_lens_ ht lens in
  let index_ := (index_ + bytes_available)%nat in
  '(hcodes, max_bits, cips) ←
    set_error (BuildHuffmanCodes (lit_len_lens_ ht) (lit_len_hcodes_ ht)) kInvalidInput;
  let ht :=
    set_codeindexpairs_ (set_lit_len_max_bits_ (set_lit_len_hcodes_ ht hcodes) max_bits) cips in
  '(br, sub, bytes_available, lens) ←
    BuildHuffmanCodeLengths_br ht br (drop index_ buffer) (code_max_bits_ ht) num_distance;
  let buffer := take index_ buffer ++ sub in
  let ht := set_distance_lens_ ht lens in
  let index_ := (index_ + bytes_available)%nat in
  '(hcodes, max_bits, cips) ←
    set_error (BuildHuffmanCodes (distance_lens_ ht) (distance_hcodes_ ht)) kInvalidInput;
  let ht :=
    set_codeindexpairs_ (set_distance_max_bits_ (set_distance_hcodes_ ht hcodes) max_bits) cips in
  Ret (ht, br, buffer, index_).

(** ** BuildDynamicHuffmanTable, puff bytes to DEFLATE bits *)

(** [if (!initialized_)] of the writing direction. *)
Definition initialize_bw (ht : HuffmanTable) : HuffmanTable :=
  if initialized_ ht then ht else
    let ht := set_code_lens_ ht (resize 19 0 (code_lens_ ht)) in
    let ht := set_code_rcodes_ ht (resize 19 0 (code_rcodes_ ht)) in
    let ht := set_lit_len_lens_ ht (resize 286 0 (lit_len_lens_ ht)) in
    let ht := set_lit_len_rcodes_ ht (resize 286 0 (lit_len_rcodes_ ht)) in
    let ht := set_distance_lens_ ht (resize 30 0 (distance_lens_ ht)) in
    let ht := set_distance_rcodes_ ht (resize 30 0 (distance_rcodes_ ht)) in
    set_initialized_ ht true.

(** [for (; idx < num_codes; idx++)]: one nibble per code length (in range
    by the caller's test on [length - index]), written as three bits. *)
Fixpoint write_code_lens (idxs : list nat) (buffer : list N) (index_ : nat) (checked : bool)
    (code_lens : list N) (bw : BitWriter)
    : outcome Error (nat * bool * list N * BitWriter) :=
  match idxs with
  | [] => Ret (index_, checked, code_lens, bw)
  | idx :: rest =>
      let '(len, index_) :=
        if checked
        then (N.land buffer.[index_] 0x0F, S index_)
        else (N.shiftr buffer.[index_] 4, index_) in
      code_lens ← vec_store code_lens (perm idx) len;
      bw ← write_or 3 len bw kInsufficientOutput;
      write_code_lens rest buffer index_ (negb checked) code_lens bw
  end.

(** [BuildDynamicHuffmanTable(buffer, length, bw, &error)]: the table and the
    writer. [buffer] is the span of [length] bytes. *)
Definition BuildDynamicHuffmanTable_bw (ht : HuffmanTable) (buffer : list N) (bw : BitWriter)
    : outcome Error (HuffmanTable * BitWriter) :=
  let ht := initialize_bw ht in
  _ ← test (3 <=? length buffer)%nat kInsufficientInput;
  let num_lit_len := (N.to_nat buffer.[0%nat] + 257)%nat in
  bw ← write_or 5 buffer.[0%nat] bw kInsufficientOutput;
  let num_distance := (N.to_nat buffer.[1%nat] + 1)%nat in
  bw ← write_or 5 buffer.[1%nat] bw kInsufficientOutput;
  let num_codes := (N.to_nat buffer.[2%nat] + 4)%nat in
  bw ← write_or 4 buffer.[2%nat] bw kInsufficientOutput;
  let index_ := 3%nat in
  _ ← test (CheckHuffmanArrayLengths num_lit_len num_distance num_codes) kInvalidInput;
  _ ← test ((num_codes + 1) / 2 <=? length buffer - index_)%nat kInsufficientInput;
  '(index_, checked, code_lens, bw) ←
    write_code_lens (seq 0 num_codes) buffer index_ false (code_lens_ ht) bw;
  let index_ := if checked : bool then S index_ else index_ in
  code_lens ← clear_code_lens (seq num_codes (19 - num_codes)) code_lens;
  let ht := set_code_lens_ ht code_lens in
  '(rcodes, max_bits, cips) ←
    set_error (BuildHuffmanReverseCodes (code_lens_ ht) (code_rcodes_ ht)) kInvalidInput;
  let ht := set_codeindexpairs_ (set_code_max_bits_ (set_code_rcodes_ ht rcodes) max_bits) cips in
  '(bytes_available, bw, lens) ←
    BuildHuffmanCodeLengths_bw ht (drop index_ buffer) bw num_lit_len;
  let ht := set_lit_len_lens_ ht lens in
  let index_ := (index_ + bytes_available)%nat in
  '(rcodes, max_bits, cips) ←
    set_error (BuildHuffmanReverseCodes (lit_len_lens_ ht) (lit_len_rcodes_ ht)) kInvalidInput;
  let ht :=
    set_codeindexpairs_ (set_lit_len_max_bits_ (set_lit_len_rcodes_ ht rcodes) max_bits) cips in
  '(bytes_available, bw, lens) ←
    BuildHuffmanCodeLengths_bw ht (drop index_ buffer) bw num_distance;
  let ht := set_distance_lens_ ht lens in
  let index_ := (index_ + bytes_available)%nat in
  '(rcodes, max_bits, cips) ←
    set_error (BuildHuffmanReverseCodes (distance_lens_ ht) (distance_rcodes_ ht)) kInvalidInput;
  let ht :=
    set_codeindexpairs_ (set_distance_max_bits_ (set_distance_rcodes_ ht rcodes) max_bits) cips in
  _ ← test (length buffer =? index_)%nat kInvalidInput;
  Ret (ht, bw).



(** * Properties *)

(** ** Outcomes, integers, vectors *)

Lemma bind_Ret {E A B} (m : outcome E A) (k : A -> outcome E B) r :
  mbind k m = Ret r -> exists a, m = Ret a /\ k a = Ret r.
Proof. destruct m; simpl; intros H; try discriminate; eauto. Qed.

Lemma test_Ret {E} (c : bool) (e : E) u : test c e = Ret u -> c = true.
Proof. destruct c; simpl; congruence. Qed.

Lemma set_error_Ret {A} (m : outcome unit A) e r : set_error m e = Ret r -> m = Ret r.
Proof. destruct m; simpl; congruence. Qed.

Lemma pow2_16_nat : N.of_nat (2 ^ 16) = 2 ^ 16.
Proof. rewrite Nat2N.inj_pow. reflexivity. Qed.

Lemma pow2_15_nat : N.of_nat (2 ^ 15) = 2 ^ 15.
Proof. rewrite Nat2N.inj_pow. reflexivity. Qed.

Lemma uint16_small x : x < 2 ^ 16 -> uint16 x = x.
Proof. apply N.mod_small. Qed.

Lemma uint8_small x : x < 2 ^ 8 -> uint8 x = x.
Proof. apply N.mod_small. Qed.

Lemma uint16_lt x : uint16 x < 2 ^ 16.
Proof. apply N.mod_lt; discriminate. Qed.

Lemma uint16_add_l a b : uint16 (uint16 a + b) = uint16 (a + b).
Proof. unfold uint16. rewrite N.Div0.add_mod_idemp_l; reflexivity. Qed.

Lemma vec_get_lookup v i x : v !! i = Some x -> v.[i] = x.
Proof. unfold vec_get; intros ->; reflexivity. Qed.

Lemma vec_get_ge v i : (length v <= i)%nat -> v.[i] = 0.
Proof. intros H; unfold vec_get; rewrite lookup_ge_None_2; auto. Qed.

Lemma vec_get_alter_eq f (v : list N) i : (i < length v)%nat -> (alter f i v).[i] = f v.[i].
Proof.
  intros H; unfold vec_get. rewrite list_lookup_alter_eq.
  destruct (lookup_lt_is_Some_2 v i H) as [x ->]; reflexivity.
Qed.

Lemma vec_get_alter_ne f (v : list N) i j : i <> j -> (alter f i v).[j] = v.[j].
Proof. intros H; unfold vec_get; rewrite list_lookup_alter_ne; auto. Qed.

Lemma vec_get_insert_eq (v : list N) i x : (i < length v)%nat -> (<[i:=x]> v).[i] = x.
Proof. intros H; unfold vec_get; rewrite list_lookup_insert_eq; auto. Qed.

Lemma vec_get_insert_ne (v : list N) i j x : i <> j -> (<[i:=x]> v).[j] = v.[j].
Proof. intros H; unfold vec_get; rewrite list_lookup_insert_ne; auto. Qed.

Lemma vec_get_replicate n i : (replicate n 0).[i] = 0.
Proof.
  unfold vec_get. destruct (replicate n 0 !! i) eqn:H; auto.
  apply lookup_replicate in H as [-> _]; reflexivity.
Qed.

(** ** InitHuffmanCodes: the counts *)

Definition lens_ok (lens : list N) : Prop := Forall (fun len => len <= 15) lens.

Lemma num_of_len_cons L len lens :
  num_of_len L (len :: lens) =
  ((if decide (len = L) then 1 else 0) + num_of_len L lens)%nat.
Proof. unfold num_of_len. rewrite filter_cons. destruct (decide (len = L)); reflexivity. Qed.

Lemma num_of_len_le L lens : (num_of_len L lens <= length lens)%nat.
Proof. apply length_filter. Qed.

(** The counting loop never leaves the array when no length exceeds 15, and
    leaves the 16-bit count of every length. *)
Lemma count_lens_Ret lens : lens_ok lens -> forall len_count_,
  length len_count_ = 16%nat ->
  exists lc, Init.count_lens lens len_count_ = Ret lc /\ length lc = 16%nat /\
    forall L, (L <= 15)%nat ->
      uint16 lc.[L] = uint16 (len_count_.[L] + N.of_nat (num_of_len (N.of_nat L) lens)).
Proof.
  induction 1 as [|len lens Hlen Hlens IH]; intros lc0 Hlc0; simpl.
  - exists lc0; repeat split; auto. intros L _.
    unfold num_of_len; simpl. rewrite N.add_0_r; reflexivity.
  - assert (Hn : (N.to_nat len <= 15)%nat) by lia.
    unfold kMaxHuffmanBits. destruct (Nat.leb_spec (N.to_nat len) 15); [|lia].
    destruct (IH (alter (fun c => uint16 (c + 1)) (N.to_nat len) lc0)) as (lc & Hrun & Hlen' & Hcnt).
    { rewrite length_alter; assumption. }
    exists lc; repeat split; auto. intros L HL.
    rewrite (Hcnt L HL), num_of_len_cons.
    destruct (decide (len = N.of_nat L)) as [->|Hne].
    + rewrite Nat2N.id, vec_get_alter_eq by lia.
      rewrite uint16_add_l. f_equal; lia.
    + rewrite vec_get_alter_ne by lia. f_equal.
Qed.

Lemma count_lens_Undefined lens : ~ lens_ok lens -> forall len_count_,
  Init.count_lens lens len_count_ = Undefined.
Proof.
  induction lens as [|len lens IH]; intros Hbad lc0; simpl.
  - destruct Hbad; constructor.
  - unfold kMaxHuffmanBits. destruct (Nat.leb_spec (N.to_nat len) 15); auto.
    apply IH. intros Hok. apply Hbad. constructor; auto. lia.
Qed.

Lemma count_lens_lt lens : forall len_count_ lc,
  Forall (fun c => c < 2 ^ 16) len_count_ ->
  Init.count_lens lens len_count_ = Ret lc -> Forall (fun c => c < 2 ^ 16) lc.
Proof.
  induction lens as [|len lens IH]; intros lc0 lc Hlt; simpl.
  - congruence.
  - destruct (N.to_nat len <=? kMaxHuffmanBits)%nat; [|discriminate].
    apply IH. rewrite Forall_lookup in Hlt |- *. intros i x.
    rewrite list_lookup_alter.
    destruct (decide (N.to_nat len = i)) as [->|]; [|apply Hlt].
    destruct (lc0 !! i); simpl; intros [= <-]. apply uint16_lt.
Qed.

Lemma vec_get_lt (v : list N) b i : 0 < b -> Forall (fun c => c < b) v -> v.[i] < b.
Proof.
  intros Hb Hv. unfold vec_get. destruct (v !! i) eqn:E; simpl; auto.
  rewrite Forall_lookup in Hv. eauto.
Qed.

(** The counts of a run of [InitHuffmanCodes]: for every length in 0..15, the
    number of symbols of that length, modulo [2^16]. *)
Lemma count_lens_init lens : lens_ok lens ->
  exists lc, Init.count_lens lens (replicate 16 0) = Ret lc /\ length lc = 16%nat /\
    forall L, (L <= 15)%nat -> lc.[L] = uint16 (N.of_nat (num_of_len (N.of_nat L) lens)).
Proof.
  intros Hok. destruct (count_lens_Ret lens Hok (replicate 16 0)) as (lc & Hrun & Hlen & Hcnt).
  { reflexivity. }
  exists lc; repeat split; auto. intros L HL.
  rewrite <- (uint16_small lc.[L]).
  - rewrite Hcnt, vec_get_replicate by assumption. reflexivity.
  - apply vec_get_lt; [reflexivity|]. eapply count_lens_lt; [|exact Hrun].
    apply Forall_replicate. reflexivity.
Qed.

(** ** InitHuffmanCodes: acceptance *)

Lemma find_max_bits_spec lc m :
  let mb := Init.find_max_bits lc m in
  (mb <= m)%nat /\ (forall L, (mb < L <= m)%nat -> lc.[L] = 0) /\
  (mb = O \/ lc.[mb] <> 0).
Proof.
  induction m as [|m IH]; simpl.
  - repeat split; auto; intros; lia.
  - destruct (N.eqb_spec lc.[S m] 0) as [Hz|Hnz].
    + destruct IH as (Hle & Hzero & Hmb). repeat split; auto.
      intros L HL. destruct (decide (L = S m)) as [->|]; auto. apply Hzero; lia.
    + repeat split; auto; intros; lia.
Qed.

Lemma oversubscribed_true lc mb :
  Init.oversubscribed lc mb = true <->
  exists L, (1 <= L <= mb)%nat /\ 2 ^ N.of_nat L < lc.[L].
Proof.
  unfold Init.oversubscribed. rewrite existsb_exists. split.
  - intros (L & HL & Hlt). apply in_seq in HL. apply N.ltb_lt in Hlt.
    rewrite N.shiftl_1_l in Hlt. exists L; split; [lia|assumption].
  - intros (L & HL & Hlt). exists L; split; [apply in_seq; lia|].
    apply N.ltb_lt. rewrite N.shiftl_1_l; assumption.
Qed.

(** The verdict of [InitHuffmanCodes] in terms of the 16-bit counts. *)
Definition count16 (lens : list N) (L : nat) : N :=
  uint16 (N.of_nat (num_of_len (N.of_nat L) lens)).

Lemma pow2_pos n : 0 < 2 ^ n.
Proof. apply N.neq_0_lt_0, N.pow_nonzero; discriminate. Qed.

Lemma InitHuffmanCodes_unfold lens lc :
  Init.count_lens lens (replicate 16 0) = Ret lc ->
  InitHuffmanCodes lens =
  let mb := Init.find_max_bits lc kMaxHuffmanBits in
  if Init.oversubscribed lc mb then Fail tt
  else Ret (mb, Init.assign_codes lens O
                  (Init.first_codes (seq 1 kMaxHuffmanBits) 0 (<[O:=0]> lc) (replicate 16 0)) []).
Proof.
  intros Hrun. unfold InitHuffmanCodes.
  change (S kMaxHuffmanBits) with 16%nat. rewrite Hrun.
  cbv [mbind outcome_mbind obind]. cbv zeta.
  destruct (Init.oversubscribed lc (Init.find_max_bits lc kMaxHuffmanBits)); reflexivity.
Qed.

Lemma InitHuffmanCodes_Fail lens : lens_ok lens ->
  (exists L, (1 <= L <= 15)%nat /\ 2 ^ N.of_nat L < count16 lens L) ->
  InitHuffmanCodes lens = Fail tt.
Proof.
  intros Hok (L & HL & Hover).
  destruct (count_lens_init lens Hok) as (lc & Hrun & Hlen & Hcnt).
  rewrite (InitHuffmanCodes_unfold _ _ Hrun); cbv zeta.
  destruct (find_max_bits_spec lc kMaxHuffmanBits) as (Hle & Hzero & _).
  set (mb := Init.find_max_bits lc kMaxHuffmanBits) in *.
  assert (HLmb : (L <= mb)%nat).
  { destruct (le_lt_dec L mb); auto.
    specialize (Hzero L). unfold kMaxHuffmanBits in Hzero.
    rewrite Hcnt in Hzero by lia. fold (count16 lens L) in Hzero.
    rewrite Hzero in Hover by lia. lia. }
  assert (Hov : Init.oversubscribed lc mb = true).
  { apply oversubscribed_true. exists L. rewrite Hcnt by lia. split; [lia|assumption]. }
  rewrite Hov; reflexivity.
Qed.

Lemma InitHuffmanCodes_Ret lens : lens_ok lens ->
  (forall L, (1 <= L <= 15)%nat -> count16 lens L <= 2 ^ N.of_nat L) ->
  exists mb cips, InitHuffmanCodes lens = Ret (mb, cips).
Proof.
  intros Hok Hall.
  destruct (count_lens_init lens Hok) as (lc & Hrun & Hlen & Hcnt).
  rewrite (InitHuffmanCodes_unfold _ _ Hrun); cbv zeta.
  destruct (find_max_bits_spec lc kMaxHuffmanBits) as (Hle & _ & _).
  set (mb := Init.find_max_bits lc kMaxHuffmanBits) in *.
  destruct (Init.oversubscribed lc mb) eqn:Hov; eauto.
  apply oversubscribed_true in Hov as (L & HL & Hlt).
  unfold kMaxHuffmanBits in Hle. rewrite Hcnt in Hlt by lia.
  specialize (Hall L). unfold count16 in Hall. lia.
Qed.

Lemma InitHuffmanCodes_Undefined lens : ~ lens_ok lens -> InitHuffmanCodes lens = Undefined.
Proof.
  intros Hbad. unfold InitHuffmanCodes. rewrite count_lens_Undefined by assumption.
  reflexivity.
Qed.

Lemma num_of_len_replicate_ne L n x : x <> L -> num_of_len L (replicate n x) = O.
Proof.
  intros Hne. induction n as [|n IH]; simpl; auto.
  rewrite num_of_len_cons, IH. destruct (decide (x = L)); [contradiction|reflexivity].
Qed.

Lemma assign_codes_zeros n : forall idx next_code_ cips,
  Init.assign_codes (replicate n 0) idx next_code_ cips = cips.
Proof. induction n as [|n IH]; intros; simpl; auto. Qed.

(** C8. An array of zero lengths only, of any size, is accepted:
    [InitHuffmanCodes] returns [true], with [max_bits = 0] and no code. *)
Theorem InitHuffmanCodes_all_zero (n : nat) :
  InitHuffmanCodes (replicate n 0) = Ret (O, []).
Proof.
  assert (Hok : lens_ok (replicate n 0)) by (apply Forall_replicate; lia).
  destruct (count_lens_init _ Hok) as (lc & Hrun & Hlen & Hcnt).
  rewrite (InitHuffmanCodes_unfold _ _ Hrun); cbv zeta.
  destruct (find_max_bits_spec lc kMaxHuffmanBits) as (Hle & _ & Hmb).
  set (mb := Init.find_max_bits lc kMaxHuffmanBits) in *.
  assert (Hmb0 : mb = O).
  { destruct Hmb as [|Hnz]; auto. destruct (decide (mb = O)); auto.
    exfalso; apply Hnz. unfold kMaxHuffmanBits in Hle. rewrite Hcnt by lia.
    rewrite num_of_len_replicate_ne by lia. reflexivity. }
  rewrite Hmb0. rewrite assign_codes_zeros. reflexivity.
Qed.

Lemma num_of_len_pos_elem L lens : (0 < num_of_len L lens)%nat -> L ∈ lens.
Proof.
  unfold num_of_len. intros H.
  destruct (filter (fun len => len = L) lens) as [|x l] eqn:E; simpl in H; [lia|].
  assert (Hx : x ∈ filter (fun len => len = L) lens) by (rewrite E; left).
  apply list_elem_of_filter in Hx as [-> Hx]. exact Hx.
Qed.

Lemma lens_ok_elem L lens : lens_ok lens -> L ∈ lens -> L <= 15.
Proof. unfold lens_ok. rewrite Forall_forall. auto. Qed.

Lemma BuildHuffmanCodes_Fail lens hcodes :
  InitHuffmanCodes lens = Fail tt -> BuildHuffmanCodes lens hcodes = Fail tt.
Proof. unfold BuildHuffmanCodes. intros ->. reflexivity. Qed.


(** ** The Kraft sum *)

(** [2^15] times the Kraft sum, for lengths up to 15. *)
Fixpoint kraft15 (lens : list N) : N :=
  match lens with
  | [] => 0
  | len :: rest => (if len =? 0 then 0 else 2 ^ (15 - len)) + kraft15 rest
  end.

Lemma kraft_sum_kraft15 lens : lens_ok lens ->
  (kraft_sum lens * inject_Z (2 ^ 15) == inject_Z (Z.of_N (kraft15 lens)))%Q.
Proof.
  induction 1 as [|len lens Hlen Hlens IH]; simpl kraft_sum; simpl kraft15.
  - reflexivity.
  - rewrite N2Z.inj_add, inject_Z_plus, Qmult_plus_distr_l, IH.
    apply Qplus_inj_r. destruct (N.eqb_spec len 0) as [|Hnz].
    + reflexivity.
    + rewrite N2Z.inj_pow, N2Z.inj_sub by assumption.
      replace (2 ^ 15)%Z with (2 ^ Z.of_N len * 2 ^ (Z.of_N 15 - Z.of_N len))%Z.
      2:{ rewrite <- Z.pow_add_r by lia. f_equal; lia. }
      rewrite inject_Z_mult. simpl (Z.of_N 2).
      assert (Hp : ~ (inject_Z (2 ^ Z.of_N len) == 0)%Q).
      { unfold Qeq; simpl. pose proof (Z.pow_pos_nonneg 2 (Z.of_N len)). lia. }
      field. exact Hp.
Qed.

Lemma kraft_le_1 lens : lens_ok lens ->
  (kraft_sum lens <= 1)%Q <-> kraft15 lens <= 2 ^ 15.
Proof.
  intros Hok. pose proof (kraft_sum_kraft15 lens Hok) as He.
  assert (H15 : (0 < inject_Z (2 ^ 15))%Q) by reflexivity.
  split; intros H.
  - assert (Hq : (inject_Z (Z.of_N (kraft15 lens)) <= inject_Z (2 ^ 15))%Q).
    { rewrite <- He. rewrite <- (Qmult_1_l (inject_Z (2 ^ 15))) at 2.
      apply Qmult_le_compat_r; [assumption|]. apply Qlt_le_weak; assumption. }
    rewrite <- Zle_Qle in Hq. change (2 ^ 15)%Z with (Z.of_N (2 ^ 15)) in Hq. lia.
  - apply (Qmult_le_r _ _ _ H15). rewrite He, Qmult_1_l.
    rewrite <- Zle_Qle. change (2 ^ 15)%Z with (Z.of_N (2 ^ 15)). lia.
Qed.

(** The part of [kraft15] contributed by the lengths in [1, L). *)
Fixpoint kraft_below (L : N) (lens : list N) : N :=
  match lens with
  | [] => 0
  | len :: rest =>
      (if (len =? 0) || (L <=? len) then 0 else 2 ^ (15 - len)) + kraft_below L rest
  end.

Lemma kraft_below_succ L lens :
  kraft_below (N.succ L) lens =
  kraft_below L lens + (if L =? 0 then 0 else N.of_nat (num_of_len L lens) * 2 ^ (15 - L)).
Proof.
  induction lens as [|len lens IH]; simpl.
  - destruct (L =? 0); reflexivity.
  - rewrite IH, num_of_len_cons.
    destruct (N.eqb_spec len 0) as [->|Hnz]; simpl.
    + destruct (decide (0 = L)) as [<-|]; simpl; [reflexivity|].
      destruct (N.eqb_spec L 0); lia.
    + destruct (N.leb_spec (N.succ L) len), (N.leb_spec L len),
        (decide (len = L)) as [->|], (N.eqb_spec L 0); try lia.
Qed.

Lemma kraft_below_mono L lens : kraft_below L lens <= kraft_below (N.succ L) lens.
Proof. rewrite kraft_below_succ. lia. Qed.

Lemma kraft_below_16 lens : lens_ok lens -> kraft_below 16 lens = kraft15 lens.
Proof.
  induction 1 as [|len lens Hlen Hlens IH]; simpl; auto.
  rewrite IH. destruct (N.eqb_spec len 0), (N.leb_spec 16 len); simpl; lia.
Qed.

Lemma kraft_below_le L L' lens : L <= L' -> kraft_below L lens <= kraft_below L' lens.
Proof.
  intros H. replace L' with (L + N.of_nat (N.to_nat (L' - L))) by lia.
  induction (N.to_nat (L' - L)) as [|n IH].
  - rewrite N.add_0_r. lia.
  - rewrite Nat2N.inj_succ, N.add_succ_r.
    etransitivity; [exact IH|apply kraft_below_mono].
Qed.

(** Under the Kraft inequality no length has more than [2^L] symbols. *)
Lemma kraft_count lens L : lens_ok lens -> kraft15 lens <= 2 ^ 15 ->
  1 <= L <= 15 -> N.of_nat (num_of_len L lens) <= 2 ^ L.
Proof.
  intros Hok Hk HL.
  pose proof (kraft_below_le (N.succ L) 16 lens ltac:(lia)) as Hle.
  rewrite kraft_below_16, kraft_below_succ in Hle by assumption.
  destruct (N.eqb_spec L 0); [lia|].
  assert (Hp : 2 ^ 15 = 2 ^ L * 2 ^ (15 - L)).
  { rewrite <- N.pow_add_r. f_equal; lia. }
  pose proof (pow2_pos (15 - L)). nia.
Qed.

Lemma kraft_count16 lens : lens_ok lens -> kraft15 lens <= 2 ^ 15 ->
  forall L, (1 <= L <= 15)%nat ->
    count16 lens L = N.of_nat (num_of_len (N.of_nat L) lens) /\
    count16 lens L <= 2 ^ N.of_nat L.
Proof.
  intros Hok Hk L HL.
  pose proof (kraft_count lens (N.of_nat L) Hok Hk ltac:(lia)) as Hc.
  assert (Hp : 2 ^ N.of_nat L <= 2 ^ 15) by (apply N.pow_le_mono_r; lia).
  unfold count16. rewrite uint16_small; [auto|].
  change (2 ^ 16) with (2 * 2 ^ 15). lia.
Qed.

(** Whether some length is oversubscribed is decidable. *)
Lemma classic_dec_over lens :
  (exists L, (1 <= L <= 15)%nat /\ 2 ^ N.of_nat L < count16 lens L) \/
  (forall L, (1 <= L <= 15)%nat -> count16 lens L <= 2 ^ N.of_nat L).
Proof.
  assert (H : forall n,
    (exists L, (1 <= L <= n)%nat /\ 2 ^ N.of_nat L < count16 lens L) \/
    (forall L, (1 <= L <= n)%nat -> count16 lens L <= 2 ^ N.of_nat L)).
  { induction n as [|n [(L & HL & Hlt)|Hall]].
    - right; intros; lia.
    - left; exists L; split; [lia|assumption].
    - destruct (N.lt_ge_cases (2 ^ N.of_nat (S n)) (count16 lens (S n))) as [Hlt|Hge].
      + left; exists (S n); split; [lia|assumption].
      + right; intros L HL. destruct (decide (L = S n)) as [->|]; [lia|apply Hall; lia]. }
  apply H.
Qed.

(** C2, as the code has it. An array with no length above 15 and a Kraft
    sum of at most 1 is accepted. Rejection is decided length by length:
    [InitHuffmanCodes] returns [false] exactly when some length [L] in
    [1..15] has more than [2^L] symbols (counted in 16 bits), which a Kraft
    sum above 1 does not imply. *)
Theorem InitHuffmanCodes_kraft (lens : list N) :
  lens_ok lens ->
  ((kraft_sum lens <= 1)%Q -> returns_true (InitHuffmanCodes lens) = true) /\
  (returns_false (InitHuffmanCodes lens) = true <->
   exists L, (1 <= L <= 15)%nat /\ 2 ^ N.of_nat L < count16 lens L).
Proof.
  intros Hok. split.
  - intros Hk. apply kraft_le_1 in Hk; [|assumption].
    destruct (InitHuffmanCodes_Ret lens Hok) as (mb & cips & ->); [|reflexivity].
    intros L HL. apply kraft_count16; assumption.
  - split.
    + intros Hfalse.
      destruct (classic_dec_over lens) as [Hex|Hall]; [exact Hex|].
      destruct (InitHuffmanCodes_Ret lens Hok Hall) as (mb & cips & Hret).
      rewrite Hret in Hfalse. discriminate.
    + intros Hex. rewrite (InitHuffmanCodes_Fail lens Hok Hex). reflexivity.
Qed.

(** ** InitHuffmanCodes: the codes *)

Lemma first_codes_spec n : forall b code lc nc,
  (1 <= b)%nat -> (b + n <= length nc)%nat -> code = nc.[(b - 1)%nat] ->
  let nc' := Init.first_codes (seq b n) code lc nc in
  length nc' = length nc /\
  (forall j, (j < b)%nat -> nc'.[j] = nc.[j]) /\
  (forall L, (b <= L < b + n)%nat ->
     nc'.[L] = uint16 (N.shiftl (nc'.[(L - 1)%nat] + lc.[(L - 1)%nat]) 1)).
Proof.
  induction n as [|n IH]; intros b code lc nc Hb Hlen Hcode; simpl.
  - repeat split; auto. intros; lia.
  - set (code' := uint16 (N.shiftl (code + lc.[(b - 1)%nat]) 1)).
    destruct (IH (S b) code' lc (<[b:=code']> nc)) as (Hl & Hlow & Hrec).
    { lia. } { rewrite length_insert; lia. }
    { replace (S b - 1)%nat with b by lia. rewrite vec_get_insert_eq; [reflexivity|lia]. }
    rewrite length_insert in Hl.
    assert (Hb' : (Init.first_codes (seq (S b) n) code' lc (<[b:=code']> nc)).[b] = code').
    { rewrite Hlow by lia. apply vec_get_insert_eq; lia. }
    repeat split; auto.
    + intros j Hj. rewrite Hlow by lia. apply vec_get_insert_ne; lia.
    + intros L HL. destruct (decide (L = b)) as [->|].
      * rewrite Hb'. rewrite Hlow by lia. rewrite vec_get_insert_ne by lia.
        rewrite <- Hcode. reflexivity.
      * apply Hrec; lia.
Qed.

Lemma bits_to_N_app a b :
  bits_to_N (a ++ b) = bits_to_N a + 2 ^ N.of_nat (length a) * bits_to_N b.
Proof.
  induction a as [|x a IH]; simpl bits_to_N; simpl length.
  - rewrite N.pow_0_r. lia.
  - rewrite IH, Nat2N.inj_succ, N.pow_succ_r'. lia.
Qed.

Lemma length_N_to_bits n : forall v, length (N_to_bits n v) = n.
Proof. induction n; intros; simpl; auto. Qed.

Lemma bits_to_N_lt bs : bits_to_N bs < 2 ^ N.of_nat (length bs).
Proof.
  induction bs as [|b bs IH]; simpl bits_to_N; simpl length.
  - reflexivity.
  - rewrite Nat2N.inj_succ, N.pow_succ_r'. destruct b; simpl N.b2n; lia.
Qed.

Lemma bit_reversed_lt len c : bit_reversed len c < 2 ^ N.of_nat len.
Proof.
  unfold bit_reversed. pose proof (bits_to_N_lt (rev (N_to_bits len c))) as H.
  rewrite length_rev, length_N_to_bits in H. exact H.
Qed.

Lemma bit_reversed_succ len c :
  bit_reversed (S len) c =
  bit_reversed len (N.div2 c) + 2 ^ N.of_nat len * N.b2n (N.odd c).
Proof.
  unfold bit_reversed. simpl N_to_bits. simpl rev.
  rewrite bits_to_N_app, length_rev, length_N_to_bits. simpl bits_to_N. lia.
Qed.

(** The reversal loop computes the bit reversal, as long as the shifted
    accumulator fits its 16 bits. *)
Lemma lor_double_bit a (b : bool) : N.lor (2 * a) (N.b2n b) = 2 * a + N.b2n b.
Proof. destruct a, b; reflexivity. Qed.

Lemma reverse_code_spec r : forall tmp acc,
  (acc + 1) * 2 ^ N.of_nat r <= 2 ^ 16 ->
  Init.reverse_code r tmp acc = acc * 2 ^ N.of_nat r + bit_reversed r tmp.
Proof.
  induction r as [|r IH]; intros tmp acc Hfit.
  - simpl. unfold bit_reversed; simpl. lia.
  - rewrite Nat2N.inj_succ, N.pow_succ_r' in Hfit.
    simpl Init.reverse_code.
    assert (Hlor : N.lor (uint16 (N.shiftl acc 1)) (N.land tmp 1) = 2 * acc + N.b2n (N.odd tmp)).
    { rewrite N.shiftl_mul_pow2, N.pow_1_r, uint16_small.
      2:{ pose proof (pow2_pos (N.of_nat r)). nia. }
      change 1 with (N.ones 1) at 1. rewrite N.land_ones, N.pow_1_r.
      rewrite <- N.bit0_mod, N.bit0_odd.
      rewrite N.mul_comm. apply lor_double_bit. }
    rewrite Hlor, N.shiftr_div_pow2, N.pow_1_r, <- N.div2_div.
    rewrite IH.
    + rewrite bit_reversed_succ, Nat2N.inj_succ, N.pow_succ_r'. lia.
    + destruct (N.odd tmp); simpl N.b2n; nia.
Qed.

(** The count that the code leaves in [len_count_[L]] before step 2: slot 0
    is reset, the others hold the 16-bit number of symbols of length [L]. *)
Definition len_count16 (lens : list N) (L : nat) : N :=
  match L with
  | O => 0
  | S _ => count16 lens L
  end.

(** The symbols that get a code, in ascending order. *)
Definition coded_symbols (lens : list N) : list nat :=
  filter (fun s => lens.[s] <> 0) (seq 0 (length lens)).

(** The pair of symbol [s]: the next code of its length is the first code of
    that length plus the number of earlier symbols of the same length. *)
Definition code_of16 (next_code_ lens : list N) (s : nat) : CodeIndexPair :=
  let len := N.to_nat lens.[s] in
  {| code := bit_reversed len
       (uint16 (next_code_.[len] + N.of_nat (num_of_len lens.[s] (take s lens))));
     index := uint16 (N.of_nat s) |}.

Lemma num_of_len_app L a b : num_of_len L (a ++ b) = (num_of_len L a + num_of_len L b)%nat.
Proof. unfold num_of_len. rewrite filter_app, length_app. reflexivity. Qed.

Lemma vec_get_app_r (a b : list N) i : (a ++ b).[(length a + i)%nat] = b.[i].
Proof. unfold vec_get. rewrite lookup_app_r by lia. f_equal. f_equal. lia. Qed.

Lemma vec_get_middle (a b : list N) x : (a ++ x :: b).[length a] = x.
Proof.
  replace (length a) with (length a + 0)%nat by lia. rewrite vec_get_app_r. reflexivity.
Qed.

Lemma assign_codes_spec nc lens : lens_ok lens -> forall suf pre nc_cur cips,
  lens = pre ++ suf -> length nc_cur = 16%nat ->
  (forall L, (1 <= L <= 15)%nat ->
     nc_cur.[L] = uint16 (nc.[L] + N.of_nat (num_of_len (N.of_nat L) pre))) ->
  Init.assign_codes suf (length pre) nc_cur cips =
  cips ++ map (code_of16 nc lens)
            (filter (fun s => lens.[s] <> 0) (seq (length pre) (length suf))).
Proof.
  intros Hok. induction suf as [|len suf IH]; intros pre nc_cur cips Hlens Hlen Hcur.
  - simpl. rewrite app_nil_r. reflexivity.
  - assert (Hlens' : lens = (pre ++ [len]) ++ suf) by (rewrite <- app_assoc; exact Hlens).
    assert (Hat : lens.[length pre] = len) by (rewrite Hlens; apply vec_get_middle).
    assert (Hl15 : len <= 15).
    { apply (lens_ok_elem len lens Hok). rewrite Hlens. apply elem_of_app. right. left. }
    simpl Init.assign_codes. simpl length. simpl seq. rewrite filter_cons.
    destruct (N.eqb_spec len 0) as [Hz|Hnz].
    + destruct (decide (lens.[length pre] <> 0)) as [Hc|_];
        [exfalso; apply Hc; rewrite Hat; exact Hz|].
      replace (S (length pre)) with (length (pre ++ [len])) by (rewrite length_app; simpl; lia).
      apply IH; auto. intros L HL. rewrite num_of_len_app, num_of_len_cons.
      destruct (decide (len = N.of_nat L)); [lia|].
      rewrite Hcur by assumption. f_equal. unfold num_of_len at 3; simpl. lia.
    + destruct (decide (lens.[length pre] <> 0)) as [_|Hc];
        [|exfalso; apply Hc; rewrite Hat; exact Hnz].
      replace (S (length pre)) with (length (pre ++ [len])) by (rewrite length_app; simpl; lia).
      rewrite (IH (pre ++ [len])); auto.
      * rewrite <- app_assoc. simpl. f_equal. f_equal.
        replace (length (pre ++ [len])) with (S (length pre)) by (rewrite length_app; simpl; lia).
        unfold code_of16. rewrite Hat. f_equal.
        rewrite reverse_code_spec.
        2:{ rewrite N.mul_1_l. apply N.pow_le_mono_r; lia. }
        rewrite N.mul_0_l, N.add_0_l. f_equal.
        rewrite Hcur by lia. rewrite N2Nat.id. f_equal. f_equal. f_equal.
        rewrite Hlens. rewrite take_app_length. reflexivity.
      * rewrite length_alter; assumption.
      * intros L HL. rewrite num_of_len_app, num_of_len_cons.
        destruct (decide (len = N.of_nat L)) as [->|].
        -- rewrite Nat2N.id, vec_get_alter_eq by lia. rewrite Hcur by assumption.
           rewrite uint16_add_l. f_equal. unfold num_of_len at 3; simpl. lia.
        -- rewrite vec_get_alter_ne by lia. rewrite Hcur by assumption.
           f_equal. unfold num_of_len at 3; simpl. lia.
Qed.

Lemma vec_get_insert_0 (v : list N) L : (1 <= L)%nat -> (<[O:=0]> v).[L] = v.[L].
Proof. intros H. apply vec_get_insert_ne. lia. Qed.

(** What an accepting run of [InitHuffmanCodes] computes: the first codes
    by the 16-bit recurrence, and one pair per coded symbol. *)
Lemma InitHuffmanCodes_codes lens mb cips :
  InitHuffmanCodes lens = Ret (mb, cips) ->
  lens_ok lens /\
  exists next_code_ : list N,
    next_code_.[O] = 0 /\
    (forall L, (1 <= L <= 15)%nat ->
       next_code_.[L] =
       uint16 (N.shiftl (next_code_.[(L - 1)%nat] + len_count16 lens (L - 1)) 1)) /\
    cips = map (code_of16 next_code_ lens) (coded_symbols lens).
Proof.
  intros Hrun.
  assert (Hok : lens_ok lens).
  { destruct (decide (Forall (fun len => len <= 15) lens)) as [|Hbad]; [assumption|].
    rewrite (InitHuffmanCodes_Undefined lens Hbad) in Hrun. discriminate. }
  split; [assumption|].
  destruct (count_lens_init lens Hok) as (lc & Hcount & Hlen & Hcnt).
  rewrite (InitHuffmanCodes_unfold _ _ Hcount) in Hrun. cbv zeta in Hrun.
  destruct (Init.oversubscribed lc _); [discriminate|].
  injection Hrun as <- <-.
  destruct (first_codes_spec 15 1 0 (<[O:=0]> lc) (replicate 16 0))
    as (Hl & Hlow & Hrec); [lia|simpl; lia|reflexivity|].
  change (seq 1 kMaxHuffmanBits) with (seq 1 15).
  set (nc := Init.first_codes (seq 1 15) 0 (<[O:=0]> lc) (replicate 16 0)) in *.
  assert (Hrec' : forall L, (1 <= L <= 15)%nat ->
    nc.[L] = uint16 (N.shiftl (nc.[(L - 1)%nat] + len_count16 lens (L - 1)) 1)).
  { intros L HL. rewrite Hrec by lia. f_equal. f_equal. f_equal.
    destruct (L - 1)%nat as [|k] eqn:Hk; simpl len_count16.
    - apply vec_get_insert_eq. lia.
    - rewrite vec_get_insert_0 by lia. apply Hcnt. lia. }
  exists nc. split; [|split].
  - rewrite Hlow by lia. reflexivity.
  - exact Hrec'.
  - apply (assign_codes_spec nc lens Hok lens [] nc []); auto.
    intros L HL. unfold num_of_len; simpl. rewrite N.add_0_r.
    rewrite (Hrec' L HL). unfold uint16. rewrite N.Div0.mod_mod. reflexivity.
Qed.

(** ** Canonical codes over the integers *)

(** The number of symbols of length [L >= 1]; [len_count 0] is the reset
    slot 0. *)
Definition len_count (lens : list N) (L : nat) : N :=
  match L with
  | O => 0
  | S _ => N.of_nat (num_of_len (N.of_nat L) lens)
  end.

(** The first canonical code of each length (RFC 1951, 3.2.2). *)
Fixpoint next_code (lens : list N) (L : nat) : N :=
  match L with
  | O => 0
  | S L' => N.shiftl (next_code lens L' + len_count lens L') 1
  end.

(** The canonical code of symbol [s]. *)
Definition canonical_code (lens : list N) (s : nat) : N :=
  next_code lens (N.to_nat lens.[s]) + N.of_nat (num_of_len lens.[s] (take s lens)).

Definition code_of (lens : list N) (s : nat) : CodeIndexPair :=
  {| code := bit_reversed (N.to_nat lens.[s]) (canonical_code lens s);
     index := N.of_nat s |}.

Lemma len_count_kraft lens L :
  (if N.of_nat L =? 0 then 0 else N.of_nat (num_of_len (N.of_nat L) lens) * 2 ^ (15 - N.of_nat L))
  = len_count lens L * 2 ^ (15 - N.of_nat L).
Proof.
  destruct L as [|L]; [reflexivity|].
  destruct (N.eqb_spec (N.of_nat (S L)) 0); [lia|reflexivity].
Qed.

Lemma kraft_below_0 lens : kraft_below 0 lens = 0.
Proof.
  induction lens as [|len lens IH]; simpl; auto.
  rewrite IH. destruct len; simpl; rewrite ?orb_true_r; reflexivity.
Qed.

Lemma next_code_kraft lens L : (L <= 15)%nat ->
  next_code lens L * 2 ^ (15 - N.of_nat L) = kraft_below (N.of_nat L) lens.
Proof.
  induction L as [|L IH]; intros HL.
  - simpl. rewrite kraft_below_0. reflexivity.
  - rewrite Nat2N.inj_succ, kraft_below_succ, len_count_kraft, <- IH by lia.
    simpl next_code. rewrite N.shiftl_mul_pow2, N.pow_1_r.
    replace (15 - N.of_nat L) with (N.succ (15 - N.succ (N.of_nat L))) by lia.
    rewrite N.pow_succ_r'. lia.
Qed.

(** Under the Kraft inequality the codes of length [L] end within [L] bits. *)
Lemma next_code_bound lens L : lens_ok lens -> kraft15 lens <= 2 ^ 15 -> (L <= 15)%nat ->
  next_code lens L + len_count lens L <= 2 ^ N.of_nat L.
Proof.
  intros Hok Hk HL.
  pose proof (kraft_below_le (N.succ (N.of_nat L)) 16 lens ltac:(lia)) as Hle.
  rewrite kraft_below_16, kraft_below_succ, len_count_kraft, <- next_code_kraft in Hle
    by assumption.
  assert (Hp : 2 ^ 15 = 2 ^ N.of_nat L * 2 ^ (15 - N.of_nat L)).
  { rewrite <- N.pow_add_r. f_equal; lia. }
  pose proof (pow2_pos (15 - N.of_nat L)). nia.
Qed.

Lemma next_code_mono lens L k :
  2 ^ N.of_nat (S k) * (next_code lens L + len_count lens L) <= next_code lens (L + S k).
Proof.
  induction k as [|k IH].
  - replace (L + 1)%nat with (S L) by lia. simpl next_code.
    rewrite N.shiftl_mul_pow2. simpl N.of_nat. lia.
  - replace (L + S (S k))%nat with (S (L + S k)) by lia. simpl next_code.
    rewrite N.shiftl_mul_pow2, N.pow_1_r.
    rewrite (Nat2N.inj_succ (S k)), N.pow_succ_r'. lia.
Qed.

Lemma num_of_len_take_lt lens s : (s < length lens)%nat ->
  (num_of_len lens.[s] (take s lens) < num_of_len lens.[s] lens)%nat.
Proof.
  intros Hs. destruct (lookup_lt_is_Some_2 lens s Hs) as [x Hx].
  rewrite (vec_get_lookup _ _ _ Hx).
  rewrite <- (take_drop_middle lens s x Hx) at 2.
  rewrite num_of_len_app, num_of_len_cons. destruct (decide (x = x)); [lia|congruence].
Qed.

Lemma num_of_len_take_mono L lens s s' : (s <= s')%nat ->
  (num_of_len L (take s lens) <= num_of_len L (take s' lens))%nat.
Proof.
  intros H. replace s' with (s + (s' - s))%nat by lia.
  rewrite <- take_take_drop, num_of_len_app. lia.
Qed.

Lemma num_of_len_take_S lens s : (s < length lens)%nat ->
  num_of_len lens.[s] (take (S s) lens) = S (num_of_len lens.[s] (take s lens)).
Proof.
  intros Hs. destruct (lookup_lt_is_Some_2 lens s Hs) as [x Hx].
  rewrite (vec_get_lookup _ _ _ Hx), (take_S_r _ _ _ Hx), num_of_len_app.
  unfold num_of_len at 2; simpl. rewrite filter_cons.
  destruct (decide (x = x)); [simpl; lia|congruence].
Qed.

Lemma canonical_code_lt lens s : (s < length lens)%nat -> lens.[s] <> 0 ->
  canonical_code lens s < next_code lens (N.to_nat lens.[s]) + len_count lens (N.to_nat lens.[s]).
Proof.
  intros Hs Hnz. unfold canonical_code, len_count.
  destruct (N.to_nat lens.[s]) as [|n] eqn:E; [lia|].
  rewrite <- E, N2Nat.id. pose proof (num_of_len_take_lt lens s Hs). lia.
Qed.

Lemma lens_ok_get lens s : lens_ok lens -> lens.[s] <= 15.
Proof.
  intros Hok. unfold vec_get. destruct (lens !! s) as [x|] eqn:E; simpl; [|lia].
  apply (lens_ok_elem x lens Hok). apply list_elem_of_lookup. eauto.
Qed.

Lemma canonical_code_bound lens s : lens_ok lens -> kraft15 lens <= 2 ^ 15 ->
  (s < length lens)%nat -> lens.[s] <> 0 -> canonical_code lens s < 2 ^ lens.[s].
Proof.
  intros Hok Hk Hs Hnz.
  pose proof (canonical_code_lt lens s Hs Hnz).
  pose proof (lens_ok_get lens s Hok).
  pose proof (next_code_bound lens (N.to_nat lens.[s]) Hok Hk ltac:(lia)) as Hb.
  rewrite N2Nat.id in Hb. lia.
Qed.

(** Canonical codes are prefix-free: the leading bits of a code are never
    the code of another symbol. *)
Lemma canonical_prefix_free lens s s' k :
  (s < length lens)%nat -> (s' < length lens)%nat ->
  lens.[s] <> 0 -> lens.[s'] = lens.[s] + N.of_nat k ->
  canonical_code lens s' / 2 ^ N.of_nat k = canonical_code lens s -> s = s'.
Proof.
  intros Hs Hs' Hnz Hlen Heq. destruct k as [|k].
  - rewrite N.pow_0_r, N.div_1_r in Heq. rewrite N.add_0_r in Hlen.
    unfold canonical_code in Heq. rewrite Hlen in Heq.
    assert (Hc : num_of_len lens.[s] (take s' lens) = num_of_len lens.[s] (take s lens)) by lia.
    destruct (Nat.lt_total s s') as [Hlt|[?|Hlt]]; auto; exfalso.
    + pose proof (num_of_len_take_mono lens.[s] lens (S s) s' ltac:(lia)).
      rewrite num_of_len_take_S in * by assumption. lia.
    + pose proof (num_of_len_take_mono lens.[s] lens (S s') s ltac:(lia)) as Hm.
      rewrite <- Hlen in Hm, Hc. rewrite num_of_len_take_S in * by assumption. lia.
  - exfalso. pose proof (canonical_code_lt lens s Hs Hnz) as Hlt.
    pose proof (next_code_mono lens (N.to_nat lens.[s]) k) as Hm.
    replace (N.to_nat lens.[s] + S k)%nat with (N.to_nat lens.[s']) in Hm by lia.
    assert (Hge : next_code lens (N.to_nat lens.[s']) <= canonical_code lens s')
      by (unfold canonical_code; lia).
    assert (Hd : next_code lens (N.to_nat lens.[s]) + len_count lens (N.to_nat lens.[s])
                 <= canonical_code lens s' / 2 ^ N.of_nat (S k)).
    { apply N.div_le_lower_bound; [apply N.pow_nonzero; discriminate|]. lia. }
    lia.
Qed.

Lemma len_count16_exact lens L : lens_ok lens -> kraft15 lens <= 2 ^ 15 -> (L <= 15)%nat ->
  len_count16 lens L = len_count lens L.
Proof.
  intros Hok Hk HL. destruct L as [|L]; [reflexivity|].
  simpl. apply kraft_count16; auto. lia.
Qed.

Lemma next_code16_exact lens (nc : list N) : lens_ok lens -> kraft15 lens <= 2 ^ 15 ->
  nc.[O] = 0 ->
  (forall L, (1 <= L <= 15)%nat ->
     nc.[L] = uint16 (N.shiftl (nc.[(L - 1)%nat] + len_count16 lens (L - 1)) 1)) ->
  forall L, (L <= 15)%nat -> nc.[L] = next_code lens L.
Proof.
  intros Hok Hk H0 Hrec. induction L as [|L IH]; intros HL; [exact H0|].
  rewrite Hrec by lia. replace (S L - 1)%nat with L by lia.
  rewrite IH, len_count16_exact by (auto; lia).
  change (N.shiftl (next_code lens L + len_count lens L) 1) with (next_code lens (S L)).
  apply uint16_small.
  pose proof (next_code_bound lens (S L) Hok Hk HL) as Hb.
  assert (Hp : 2 ^ N.of_nat (S L) <= 2 ^ 15) by (apply N.pow_le_mono_r; lia).
  change (2 ^ 16) with (2 * 2 ^ 15). lia.
Qed.

Lemma coded_symbols_elem lens s :
  s ∈ coded_symbols lens <-> (s < length lens)%nat /\ lens.[s] <> 0.
Proof.
  unfold coded_symbols. rewrite list_elem_of_filter, elem_of_seq. split; intros []; split; auto; lia.
Qed.

Lemma code_of16_exact lens (nc : list N) s : lens_ok lens -> kraft15 lens <= 2 ^ 15 ->
  (length lens <= 2 ^ 16)%nat ->
  (forall L, (L <= 15)%nat -> nc.[L] = next_code lens L) ->
  s ∈ coded_symbols lens -> code_of16 nc lens s = code_of lens s.
Proof.
  intros Hok Hk Hlen Hnc Hs. apply coded_symbols_elem in Hs as [Hs Hnz].
  pose proof (lens_ok_get lens s Hok) as H15.
  unfold code_of16, code_of. rewrite Hnc by lia. fold (canonical_code lens s). f_equal.
  - f_equal. apply uint16_small.
    pose proof (canonical_code_bound lens s Hok Hk Hs Hnz) as Hb.
    assert (Hp : 2 ^ lens.[s] <= 2 ^ 15) by (apply N.pow_le_mono_r; lia).
    change (2 ^ 16) with (2 * 2 ^ 15). lia.
  - apply uint16_small.
    assert (N.of_nat s < N.of_nat (2 ^ 16)) by lia.
    rewrite pow2_16_nat in *. assumption.
Qed.

(** With a Kraft sum of at most 1 the pairs carry the canonical codes. *)
Lemma InitHuffmanCodes_exact lens mb cips :
  InitHuffmanCodes lens = Ret (mb, cips) ->
  (kraft_sum lens <= 1)%Q -> (length lens <= 2 ^ 16)%nat ->
  cips = map (code_of lens) (coded_symbols lens).
Proof.
  intros Hrun Hkq Hlen.
  destruct (InitHuffmanCodes_codes lens mb cips Hrun) as (Hok & nc & H0 & Hrec & Hcips).
  assert (Hk : kraft15 lens <= 2 ^ 15) by (apply kraft_le_1; assumption).
  rewrite Hcips. apply map_ext_in. intros s Hs.
  apply code_of16_exact; auto.
  - apply next_code16_exact; auto.
  - apply list_elem_of_In; assumption.
Qed.

(** C4. For every array that [InitHuffmanCodes] accepts, the first codes
    obey [next_code[L] = (next_code[L-1] + len_count[L-1]) << 1] from
    [next_code[0] = 0] (in the 16-bit arithmetic of the code, with slot 0 of
    the counts reset), and the pairs are those of the symbols of non-zero
    length in ascending order, each with the next code of its length
    reversed over exactly [len] bits. When the Kraft sum is at most 1
    nothing wraps: the first codes are the canonical ones over the integers
    and every symbol carries its canonical code. *)
Theorem InitHuffmanCodes_canonical (lens : list N) (max_bits : nat)
    (cips : list CodeIndexPair) :
  InitHuffmanCodes lens = Ret (max_bits, cips) ->
  exists next_code_ : list N,
    next_code_.[O] = 0 /\
    (forall L, (1 <= L <= 15)%nat ->
       next_code_.[L] =
       uint16 (N.shiftl (next_code_.[(L - 1)%nat] + len_count16 lens (L - 1)) 1)) /\
    cips = map (code_of16 next_code_ lens) (coded_symbols lens) /\
    ((kraft_sum lens <= 1)%Q -> (length lens <= 2 ^ 16)%nat ->
     (forall L, (L <= 15)%nat ->
        len_count16 lens L = len_count lens L /\ next_code_.[L] = next_code lens L) /\
     cips = map (code_of lens) (coded_symbols lens)).
Proof.
  intros Hrun. destruct (InitHuffmanCodes_codes lens max_bits cips Hrun)
    as (Hok & nc & H0 & Hrec & Hcips).
  exists nc. repeat split; auto.
  - apply len_count16_exact; auto. apply kraft_le_1; assumption.
  - apply next_code16_exact; auto. apply kraft_le_1; assumption.
  - rewrite Hcips. apply map_ext_in. intros s Hs.
    apply code_of16_exact; auto.
    + apply kraft_le_1; assumption.
    + apply next_code16_exact; auto. apply kraft_le_1; assumption.
    + apply list_elem_of_In; assumption.
Qed.

(** ** BuildHuffmanCodes: the forward table *)

(** The valid bit of a table entry, and the entry of a pair. *)
Definition valid (hc : N) : bool := negb (N.land hc 0x8000 =? 0).
Definition entry (cip : CodeIndexPair) : N := uint16 (N.lor (index cip) 0x8000).

Lemma valid_testbit hc : valid hc = N.testbit hc 15.
Proof.
  unfold valid. change 0x8000 with (2 ^ 15).
  destruct (N.testbit hc 15) eqn:Hb.
  - destruct (N.eqb_spec (N.land hc (2 ^ 15)) 0) as [Hz|]; auto.
    apply (f_equal (fun x => N.testbit x 15)) in Hz.
    rewrite N.land_spec, Hb, N.pow2_bits_true in Hz. discriminate.
  - destruct (N.eqb_spec (N.land hc (2 ^ 15)) 0) as [|Hnz]; auto.
    exfalso; apply Hnz. apply N.bits_inj. intros n.
    rewrite N.land_spec, N.bits_0, N.pow2_bits_eqb.
    destruct (N.eqb_spec 15 n) as [<-|]; [rewrite Hb; reflexivity|apply andb_false_r].
Qed.

Lemma valid_land hc : valid hc = true -> N.land hc 0x8000 = 0x8000.
Proof.
  rewrite valid_testbit. intros Hb. change 0x8000 with (2 ^ 15).
  apply N.bits_inj. intros n. rewrite N.land_spec, N.pow2_bits_eqb.
  destruct (N.eqb_spec 15 n) as [<-|]; [|apply andb_false_r].
  rewrite Hb. reflexivity.
Qed.

Lemma valid_0 : valid 0 = false.
Proof. reflexivity. Qed.

Lemma valid_entry cip : valid (entry cip) = true.
Proof.
  rewrite valid_testbit. unfold entry, uint16.
  rewrite N.mod_pow2_bits_low by reflexivity.
  rewrite N.lor_spec. change 0x8000 with (2 ^ 15). rewrite N.pow2_bits_true.
  apply orb_true_r.
Qed.

Lemma entry_small cip : index cip < 2 ^ 15 ->
  entry cip = index cip + 0x8000 /\ N.land (entry cip) 0x7FFF = index cip.
Proof.
  intros Hlt. unfold entry.
  assert (Hd : N.land (index cip) 0x8000 = 0).
  { apply N.bits_inj. intros n. rewrite N.land_spec, N.bits_0.
    change 0x8000 with (2 ^ 15). rewrite N.pow2_bits_eqb.
    destruct (N.eqb_spec 15 n) as [<-|]; [|apply andb_false_r].
    destruct (N.eq_dec (index cip) 0) as [->|Hnz]; [reflexivity|].
    rewrite N.bits_above_log2; [reflexivity|]. apply N.log2_lt_pow2; lia. }
  assert (He : N.lor (index cip) 0x8000 = index cip + 0x8000).
  { rewrite <- N.lxor_lor by assumption. symmetry. apply N.add_nocarry_lxor. assumption. }
  rewrite He. rewrite uint16_small by (change (2 ^ 16) with (2 ^ 15 + 0x8000); lia).
  split; [reflexivity|].
  change 0x7FFF with (N.ones 15). rewrite N.land_ones.
  change 0x8000 with (1 * 2 ^ 15). rewrite N.Div0.mod_add. apply N.mod_small. assumption.
Qed.

Lemma lor_shiftl_low a l c : c < 2 ^ l -> N.lor (N.shiftl a l) c = a * 2 ^ l + c.
Proof.
  intros Hc. rewrite <- N.shiftl_mul_pow2.
  assert (Hd : N.land (N.shiftl a l) c = 0).
  { apply N.bits_inj. intros n. rewrite N.land_spec, N.bits_0.
    destruct (N.lt_ge_cases n l) as [Hn|Hn].
    - rewrite N.shiftl_spec_low by assumption. reflexivity.
    - destruct (N.eq_dec c 0) as [->|Hnz]; [rewrite N.bits_0; apply andb_false_r|].
      rewrite (N.bits_above_log2 c n); [apply andb_false_r|].
      apply N.lt_le_trans with l; [|assumption]. apply N.log2_lt_pow2; lia. }
  rewrite <- N.lxor_lor by assumption. symmetry. apply N.add_nocarry_lxor. assumption.
Qed.

Section Expand.

Variables (len : nat) (cip : CodeIndexPair) (max_bits : nat).
Hypothesis Hcode : code cip < 2 ^ N.of_nat len.
Hypothesis Hlen : (len <= max_bits)%nat.

(** The slot that the fill loop visits at [idx]. *)
Definition location (idx : nat) : nat :=
  N.to_nat (N.lor (N.shiftl (N.of_nat idx) (N.of_nat len)) (code cip)).

Lemma location_eq idx : location idx = (idx * 2 ^ len + N.to_nat (code cip))%nat.
Proof.
  unfold location. rewrite lor_shiftl_low by assumption.
  rewrite N2Nat.inj_add, N2Nat.inj_mul, N2Nat.inj_pow, !Nat2N.id. reflexivity.
Qed.

Lemma pow2_split : (2 ^ max_bits = 2 ^ (max_bits - len) * 2 ^ len)%nat.
Proof. rewrite <- Nat.pow_add_r. f_equal. lia. Qed.

Lemma code_lt_nat : (N.to_nat (code cip) < 2 ^ len)%nat.
Proof.
  assert (H : (N.to_nat (code cip) < N.to_nat (2 ^ N.of_nat len))%nat) by lia.
  rewrite N2Nat.inj_pow, Nat2N.id in H. exact H.
Qed.

Lemma location_lt idx : (idx < 2 ^ (max_bits - len))%nat -> (location idx < 2 ^ max_bits)%nat.
Proof.
  intros Hidx. rewrite location_eq, pow2_split. pose proof code_lt_nat. nia.
Qed.

Lemma location_low idx : low_bits len (N.of_nat (location idx)) = code cip.
Proof.
  unfold low_bits. rewrite location_eq.
  rewrite Nat2N.inj_add, Nat2N.inj_mul, Nat2N.inj_pow, N2Nat.id.
  change (N.of_nat 2) with 2. rewrite N.add_comm, N.Div0.mod_add.
  apply N.mod_small. assumption.
Qed.

(** Every slot below [1 << max_bits] that carries the code is visited. *)
Lemma location_complete j : (j < 2 ^ max_bits)%nat -> low_bits len (N.of_nat j) = code cip ->
  exists idx, (idx < 2 ^ (max_bits - len))%nat /\ j = location idx.
Proof.
  intros Hj Hlow. exists (j / 2 ^ len)%nat.
  assert (Hp : (2 ^ len <> 0)%nat) by (apply Nat.pow_nonzero; lia).
  split.
  - apply Nat.Div0.div_lt_upper_bound. rewrite Nat.mul_comm, <- pow2_split. assumption.
  - rewrite location_eq. unfold low_bits in Hlow. rewrite <- Hlow.
    rewrite N2Nat.inj_mod, Nat2N.id, N2Nat.inj_pow, Nat2N.id.
    change (N.to_nat 2) with 2%nat.
    rewrite (Nat.div_mod_eq j (2 ^ len)) at 1. lia.
Qed.

Lemma fill_codes_spec idxs : forall T T',
  fill_codes idxs (N.of_nat len) cip T = Ret T' ->
  length T' = length T /\
  (forall j, T'.[j] = T.[j] \/
     (T'.[j] = entry cip /\ valid T.[j] = false /\ exists idx, idx ∈ idxs /\ j = location idx)) /\
  (forall idx, idx ∈ idxs -> (location idx < length T)%nat -> valid T'.[location idx] = true).
Proof using Hcode Hlen.
  induction idxs as [|idx idxs IH]; intros T T' Hrun.
  - injection Hrun as <-. repeat split; auto. intros idx H. inversion H.
  - set (T1 := if negb (valid T.[location idx]) then <[location idx:=entry cip]> T else T).
    assert (Hrun1 : fill_codes idxs (N.of_nat len) cip T1 = Ret T').
    { revert Hrun. cbn [fill_codes]. fold (location idx). fold (entry cip).
      unfold T1, valid, vec_load, vec_store.
      destruct (T !! location idx) as [hc|] eqn:Hhc; [|discriminate].
      rewrite (vec_get_lookup _ _ _ Hhc). apply lookup_lt_Some in Hhc.
      destruct (Nat.ltb_spec (location idx) (length T)); [|lia].
      cbn [mbind outcome_mbind obind]. destruct (N.land hc 32768 =? 0); auto. }
    destruct (IH T1 T' Hrun1) as (Hl & Hch & Hval).
    assert (Hl1 : length T1 = length T).
    { unfold T1. destruct (negb _); [apply length_insert|reflexivity]. }
    assert (Hch1 : forall j, T1.[j] = T.[j] \/
      (T1.[j] = entry cip /\ valid T.[j] = false /\ j = location idx)).
    { intros j. unfold T1. destruct (valid T.[location idx]) eqn:Hv; simpl; auto.
      destruct (decide (j = location idx)) as [->|Hne].
      - destruct (le_lt_dec (length T) (location idx)).
        + left. rewrite list_insert_ge by assumption. reflexivity.
        + right. rewrite vec_get_insert_eq by assumption. auto.
      - left. apply vec_get_insert_ne. auto. }
    assert (Hkeep : forall j, valid T1.[j] = true -> forall T2,
      (T2.[j] = T1.[j] \/ (T2.[j] = entry cip /\ valid T1.[j] = false /\
         exists idx, idx ∈ idxs /\ j = location idx)) -> valid T2.[j] = true).
    { intros j Hv T2 [->|(_ & Hf & _)]; congruence. }
    split; [congruence|]. split.
    + intros j. destruct (Hch j) as [->|(He & Hf & idx' & Hin & ->)].
      * destruct (Hch1 j) as [->|(He & Hf & ->)]; auto.
        right. repeat split; auto. exists idx. split; [left|reflexivity].
      * right. repeat split; auto.
        -- destruct (Hch1 (location idx')) as [<-|(He1 & _ & _)]; auto.
           rewrite He1, valid_entry in Hf. discriminate.
        -- exists idx'. split; [right; assumption|reflexivity].
    + intros idx' Hin Hlt. apply elem_of_cons in Hin as [->|Hin].
      * refine (Hkeep _ _ _ (Hch _)).
        unfold T1. destruct (valid T.[location idx]) eqn:Hv; simpl; auto.
        rewrite vec_get_insert_eq by assumption. apply valid_entry.
      * apply Hval; auto. lia.
Qed.

(** The fill loop stays inside a table that has the slots it visits. *)
Lemma fill_codes_Ret idxs : forall T,
  (forall idx, idx ∈ idxs -> (location idx < length T)%nat) ->
  exists T', fill_codes idxs (N.of_nat len) cip T = Ret T'.
Proof using Hcode Hlen.
  induction idxs as [|idx idxs IH]; intros T Hin; [simpl; eauto|].
  cbn [fill_codes]. fold (location idx).
  assert (Hlt : (location idx < length T)%nat) by (apply Hin; left).
  destruct (lookup_lt_is_Some_2 T (location idx) Hlt) as [hc Hhc].
  unfold vec_load, vec_store. rewrite Hhc.
  destruct (Nat.ltb_spec (location idx) (length T)); [|lia].
  cbn [mbind outcome_mbind obind].
  destruct (N.land hc 32768 =? 0); cbn [mbind outcome_mbind obind]; apply IH;
    intros idx' Hin'; [rewrite length_insert|]; apply Hin; right; assumption.
Qed.

End Expand.

(** The length of the symbol a pair stands for. *)
Definition cip_len (lens : list N) (cip : CodeIndexPair) : nat :=
  N.to_nat lens.[N.to_nat (index cip)].

(** A slot carries a pair when its low bits are the pair's code. *)
Definition carries (lens : list N) (cip : CodeIndexPair) (j : nat) : Prop :=
  low_bits (cip_len lens cip) (N.of_nat j) = code cip.

Lemma expand_codes_spec lens max_bits : forall cips T T',
  (forall cip, cip ∈ cips -> code cip < 2 ^ N.of_nat (cip_len lens cip)) ->
  expand_codes cips lens max_bits T = Ret T' ->
  length T' = length T /\
  (forall cip, cip ∈ cips -> (cip_len lens cip <= max_bits)%nat) /\
  (forall j, T'.[j] = T.[j] \/
     exists cip, cip ∈ cips /\ T'.[j] = entry cip /\ (j < 2 ^ max_bits)%nat /\
                 carries lens cip j) /\
  (forall j, valid T.[j] = true -> valid T'.[j] = true) /\
  (forall cip, cip ∈ cips -> forall j, (j < 2 ^ max_bits)%nat -> (j < length T)%nat ->
     carries lens cip j -> valid T'.[j] = true).
Proof.
  induction cips as [|cip cips IH]; intros T T' Hcodes Hrun.
  - injection Hrun as <-. repeat split; auto; intros cip H; inversion H.
  - cbn [expand_codes] in Hrun. fold (entry cip) in Hrun.
    unfold vec_store, vec_load in Hrun.
    destruct (Nat.ltb_spec (N.to_nat (code cip)) (length T)) as [Hstore|]; [|discriminate].
    cbn [mbind outcome_mbind obind] in Hrun.
    destruct (lens !! N.to_nat (index cip)) as [l|] eqn:Hl0; [|discriminate].
    cbn [mbind outcome_mbind obind] in Hrun.
    assert (Hl' : l = N.of_nat (cip_len lens cip)).
    { unfold cip_len. rewrite (vec_get_lookup _ _ _ Hl0), N2Nat.id. reflexivity. }
    rewrite Hl', Nat2N.id in Hrun.
    destruct (Nat.leb_spec (cip_len lens cip) max_bits) as [Hle|]; [|discriminate].
    assert (Hc : code cip < 2 ^ N.of_nat (cip_len lens cip)) by (apply Hcodes; left).
    set (T1 := <[N.to_nat (code cip):=entry cip]> T) in *.
    set (idxs := seq 1 (2 ^ (max_bits - cip_len lens cip) - 1)) in *.
    destruct (fill_codes idxs (N.of_nat (cip_len lens cip)) cip T1) as [T2| |] eqn:Hfill;
      try discriminate.
    cbn [mbind outcome_mbind obind] in Hrun.
    destruct (fill_codes_spec (cip_len lens cip) cip max_bits Hc Hle idxs T1 T2 Hfill)
      as (Hl2 & Hch2 & Hval2).
    destruct (IH T2 T') as (Hl & Hlens & Hch & Hkeep & Hval); auto.
    { intros c Hin. apply Hcodes. right. assumption. }
    assert (Hl1 : length T1 = length T) by apply length_insert.
    assert (Hloc0 : location (cip_len lens cip) cip 0 = N.to_nat (code cip)).
    { rewrite location_eq by assumption. lia. }
    assert (Hkeep1 : forall j, valid T.[j] = true -> valid T1.[j] = true).
    { intros j Hv. unfold T1. destruct (decide (j = N.to_nat (code cip))) as [->|Hne].
      - destruct (le_lt_dec (length T) (N.to_nat (code cip))).
        + rewrite list_insert_ge by assumption. assumption.
        + rewrite vec_get_insert_eq by assumption. apply valid_entry.
      - rewrite vec_get_insert_ne by auto. assumption. }
    assert (Hkeep2 : forall j, valid T1.[j] = true -> valid T2.[j] = true).
    { intros j Hv. destruct (Hch2 j) as [->|(_ & Hf & _)]; congruence. }
    split; [congruence|]. split; [|split; [|split]].
    + intros c Hin. apply elem_of_cons in Hin as [->|Hin]; auto.
    + intros j. destruct (Hch j) as [->|(c & Hin & He & Hj & Hcar)].
      2:{ right. exists c. split; [right|]; auto. }
      assert (Hcase : T2.[j] = T.[j] \/
        T2.[j] = entry cip /\ exists idx, (idx < 2 ^ (max_bits - cip_len lens cip))%nat /\
                                          j = location (cip_len lens cip) cip idx).
      { destruct (Hch2 j) as [->|(He & _ & idx & Hin & ->)].
        - unfold T1. destruct (decide (j = N.to_nat (code cip))) as [->|Hne].
          + destruct (le_lt_dec (length T) (N.to_nat (code cip))).
            * left. rewrite list_insert_ge by assumption. reflexivity.
            * right. rewrite vec_get_insert_eq by assumption. split; auto.
              exists O. split; [|auto]. apply Nat.neq_0_lt_0, Nat.pow_nonzero. lia.
          + left. apply vec_get_insert_ne. auto.
        - right. split; auto. exists idx. split; auto.
          apply elem_of_seq in Hin. lia. }
      destruct Hcase as [->|(He & idx & Hidx & ->)]; auto.
      right. exists cip. split; [left|]. split; auto. split.
      * apply location_lt; assumption.
      * apply location_low. assumption.
    + intros j Hv. auto.
    + intros c Hin j Hj HjT Hcar. apply elem_of_cons in Hin as [->|Hin].
      2:{ apply (Hval c); auto. lia. }
      apply Hkeep.
      destruct (location_complete _ _ max_bits Hc Hle j Hj Hcar) as (idx & Hidx & ->).
      destruct idx as [|idx].
      * apply Hkeep2. rewrite Hloc0. unfold T1.
        rewrite vec_get_insert_eq by (rewrite <- Hloc0; assumption). apply valid_entry.
      * apply Hval2; [|lia]. apply elem_of_seq. lia.
Qed.

(** The pairs of [InitHuffmanCodes] keep [expand_codes] inside the part of
    the table that [memset] has cleared: every store and load of the loop is
    below [1 << max_bits]. *)
Lemma expand_codes_Ret lens mb : forall cips T,
  (2 ^ mb <= length T)%nat ->
  (forall cip, cip ∈ cips ->
     (N.to_nat (index cip) < length lens)%nat /\ (cip_len lens cip <= mb)%nat /\
     code cip < 2 ^ N.of_nat (cip_len lens cip)) ->
  exists T', expand_codes cips lens mb T = Ret T'.
Proof.
  induction cips as [|cip cips IH]; intros T Hsize Hcips; [simpl; eauto|].
  destruct (Hcips cip) as (Hidx & Hle & Hc); [left|].
  cbn [expand_codes]. fold (entry cip). unfold vec_store, vec_load.
  pose proof (code_lt_nat _ _ mb Hc Hle) as Hcn.
  assert (Hpow : (2 ^ cip_len lens cip <= 2 ^ mb)%nat) by (apply Nat.pow_le_mono_r; lia).
  destruct (Nat.ltb_spec (N.to_nat (code cip)) (length T)); [|lia].
  cbn [mbind outcome_mbind obind].
  destruct (lookup_lt_is_Some_2 lens _ Hidx) as [l Hl0]. rewrite Hl0.
  cbn [mbind outcome_mbind obind].
  assert (Hl' : l = N.of_nat (cip_len lens cip)).
  { unfold cip_len. rewrite (vec_get_lookup _ _ _ Hl0), N2Nat.id. reflexivity. }
  rewrite Hl', Nat2N.id.
  destruct (Nat.leb_spec (cip_len lens cip) mb); [|lia].
  set (T1 := <[N.to_nat (code cip):=entry cip]> T).
  set (idxs := seq 1 (2 ^ (mb - cip_len lens cip) - 1)).
  destruct (fill_codes_Ret (cip_len lens cip) cip mb Hc Hle idxs T1) as [T2 HT2].
  { intros idx Hin. apply elem_of_seq in Hin. unfold T1. rewrite length_insert.
    pose proof (location_lt (cip_len lens cip) cip mb Hc Hle idx). lia. }
  rewrite HT2. cbn [mbind outcome_mbind obind].
  destruct (fill_codes_spec (cip_len lens cip) cip mb Hc Hle idxs T1 T2 HT2) as (Hl2 & _).
  apply IH.
  - rewrite Hl2. unfold T1. rewrite length_insert. assumption.
  - intros c Hin. apply Hcips. right. assumption.
Qed.

Lemma bit_reversed_mod l k c :
  bit_reversed (l + k) c mod 2 ^ N.of_nat l = bit_reversed l (c / 2 ^ N.of_nat k).
Proof.
  revert c. induction k as [|k IH]; intros c.
  - rewrite Nat.add_0_r. simpl. rewrite N.div_1_r. apply N.mod_small, bit_reversed_lt.
  - replace (l + S k)%nat with (S (l + k)) by lia. rewrite bit_reversed_succ.
    replace (2 ^ N.of_nat (l + k)) with (2 ^ N.of_nat k * 2 ^ N.of_nat l)
      by (rewrite <- N.pow_add_r; f_equal; lia).
    replace (2 ^ N.of_nat k * 2 ^ N.of_nat l * N.b2n (N.odd c))
      with (2 ^ N.of_nat k * N.b2n (N.odd c) * 2 ^ N.of_nat l) by lia.
    rewrite N.Div0.mod_add, IH. f_equal.
    rewrite N.div2_div, Nat2N.inj_succ, N.pow_succ_r', N.Div0.div_div. reflexivity.
Qed.

Lemma bit_reversed_inj l : forall c c',
  bit_reversed l c = bit_reversed l c' -> c mod 2 ^ N.of_nat l = c' mod 2 ^ N.of_nat l.
Proof.
  induction l as [|l IH]; intros c c' Heq.
  - simpl. rewrite !N.mod_1_r. reflexivity.
  - rewrite !bit_reversed_succ in Heq.
    pose proof (bit_reversed_lt l (N.div2 c)) as Hl.
    pose proof (bit_reversed_lt l (N.div2 c')) as Hl'.
    assert (Hparts : bit_reversed l (N.div2 c) = bit_reversed l (N.div2 c') /\
                     N.odd c = N.odd c').
    { destruct (N.odd c), (N.odd c'); simpl N.b2n in Heq; split; auto; lia. }
    destruct Hparts as [Hhi Hlo]. apply IH in Hhi.
    rewrite Nat2N.inj_succ, N.pow_succ_r', !N.Div0.mod_mul_r.
    rewrite <- !N.div2_div, Hhi, <- !N.bit0_mod, !N.bit0_odd, Hlo. reflexivity.
Qed.

Lemma code_of16_facts nc lens s : (length lens <= 2 ^ 16)%nat -> s ∈ coded_symbols lens ->
  let cip := code_of16 nc lens s in
  index cip = N.of_nat s /\ cip_len lens cip = N.to_nat lens.[s] /\
  code cip < 2 ^ N.of_nat (cip_len lens cip).
Proof.
  intros Hlen Hs. apply coded_symbols_elem in Hs as [Hs Hnz].
  assert (Hi : index (code_of16 nc lens s) = N.of_nat s).
  { simpl. apply uint16_small.
    assert (N.of_nat s < N.of_nat (2 ^ 16)) by lia.
    rewrite pow2_16_nat in *. assumption. }
  assert (Hl : cip_len lens (code_of16 nc lens s) = N.to_nat lens.[s]).
  { unfold cip_len. rewrite Hi, Nat2N.id. reflexivity. }
  cbv zeta. rewrite Hl. repeat split; auto. apply bit_reversed_lt.
Qed.

(** The table that [BuildHuffmanCodes] leaves: below [1 << max_bits] every
    valid entry is the entry of a pair that the slot carries, and every
    slot that carries a pair is valid. *)
Lemma BuildHuffmanCodes_table lens hcodes T' mb cips :
  (length lens <= 2 ^ 16)%nat ->
  BuildHuffmanCodes lens hcodes = Ret (T', mb, cips) ->
  exists cips0,
    InitHuffmanCodes lens = Ret (mb, cips0) /\ cips ≡ₚ cips0 /\
    (2 ^ mb <= length hcodes)%nat /\ length T' = length hcodes /\
    (forall cip, cip ∈ cips0 -> (cip_len lens cip <= mb)%nat) /\
    (forall j, (j < 2 ^ mb)%nat -> valid T'.[j] = true ->
       exists cip, cip ∈ cips0 /\ T'.[j] = entry cip /\ carries lens cip j) /\
    (forall cip, cip ∈ cips0 -> forall j, (j < 2 ^ mb)%nat -> carries lens cip j ->
       valid T'.[j] = true).
Proof.
  intros Hlen Hrun. unfold BuildHuffmanCodes in Hrun.
  destruct (InitHuffmanCodes lens) as [[mb0 cips0]| |] eqn:Hinit; try discriminate.
  cbv [mbind outcome_mbind obind] in Hrun. cbv zeta in Hrun.
  set (sorted := std_sort _ cips0) in Hrun.
  destruct (Nat.leb_spec (2 ^ mb0) (length hcodes)) as [Hsize|]; [|discriminate].
  set (T := replicate (2 ^ mb0) 0 ++ drop (2 ^ mb0) hcodes) in Hrun.
  destruct (expand_codes sorted lens mb0 T) as [T0| |] eqn:Hexp; try discriminate.
  injection Hrun as <- <- <-.
  assert (Hperm : sorted ≡ₚ cips0) by apply std_sort_perm.
  destruct (InitHuffmanCodes_codes lens mb0 cips0 Hinit) as (Hok & nc & _ & _ & Hcips).
  assert (Hfacts : forall cip, cip ∈ cips0 -> code cip < 2 ^ N.of_nat (cip_len lens cip)).
  { intros cip Hin. rewrite Hcips in Hin. apply list_elem_of_fmap in Hin as (s & -> & Hs).
    apply code_of16_facts; assumption. }
  destruct (expand_codes_spec lens mb0 sorted T T0) as (Hl & Hlens & Hch & _ & Hval); auto.
  { intros cip Hin. apply Hfacts. rewrite <- Hperm. assumption. }
  assert (HlT : length T = length hcodes).
  { unfold T. rewrite length_app, length_replicate, length_drop. lia. }
  assert (HT0 : forall j, (j < 2 ^ mb0)%nat -> T.[j] = 0).
  { intros j Hj. unfold T, vec_get. rewrite lookup_app_l by (rewrite length_replicate; lia).
    rewrite lookup_replicate_2 by assumption. reflexivity. }
  exists cips0. repeat split; auto; try congruence.
  - intros cip Hin. apply Hlens. rewrite Hperm. assumption.
  - intros j Hj Hv. destruct (Hch j) as [He|(cip & Hin & He & _ & Hcar)].
    + rewrite He, HT0, valid_0 in Hv by assumption. discriminate.
    + exists cip. rewrite <- Hperm. auto.
  - intros cip Hin j Hj Hcar. apply (Hval cip); auto; [rewrite Hperm; assumption|lia].
Qed.

(** Two coded symbols whose codes one slot carries are the same symbol. *)
Lemma carried_symbol_unique lens s s' i :
  lens_ok lens -> kraft15 lens <= 2 ^ 15 ->
  s ∈ coded_symbols lens -> s' ∈ coded_symbols lens ->
  (N.to_nat lens.[s] <= N.to_nat lens.[s'])%nat ->
  low_bits (N.to_nat lens.[s]) i = bit_reversed (N.to_nat lens.[s]) (canonical_code lens s) ->
  low_bits (N.to_nat lens.[s']) i = bit_reversed (N.to_nat lens.[s']) (canonical_code lens s') ->
  s = s'.
Proof.
  intros Hok Hk Hs Hs' Hle Hcar Hcar'.
  apply coded_symbols_elem in Hs as [Hs Hnz]. apply coded_symbols_elem in Hs' as [Hs' Hnz'].
  set (l := N.to_nat lens.[s]) in *. set (l' := N.to_nat lens.[s']) in *.
  set (k := (l' - l)%nat).
  assert (Hl' : l' = (l + k)%nat) by (unfold k; lia).
  pose proof (canonical_code_bound lens s Hok Hk Hs Hnz) as Hb.
  pose proof (canonical_code_bound lens s' Hok Hk Hs' Hnz') as Hb'.
  apply (canonical_prefix_free lens s s' k); auto; [unfold l, l' in *; lia|].
  assert (Hmod : bit_reversed l' (canonical_code lens s') mod 2 ^ N.of_nat l =
                 bit_reversed l (canonical_code lens s)).
  { rewrite <- Hcar, <- Hcar'. unfold low_bits.
    rewrite Hl', Nat2N.inj_add, N.pow_add_r, N.Div0.mod_mul_r.
    rewrite N.mul_comm, N.Div0.mod_add. apply N.Div0.mod_mod. }
  rewrite Hl', bit_reversed_mod in Hmod. apply bit_reversed_inj in Hmod.
  rewrite !N.mod_small in Hmod; auto.
  - unfold l. rewrite N2Nat.id. assumption.
  - apply N.Div0.div_lt_upper_bound. rewrite <- N.pow_add_r.
    replace (N.of_nat k + N.of_nat l) with lens.[s'] by (unfold l, l' in *; lia). assumption.
Qed.

(** C3, as the code has it. When the Kraft sum of the lengths is at most 1
    (and the alphabet fits the 15 bits of a table entry), every slot of the
    forward table whose low [lens[s]] bits are the bit-reversed canonical
    code of a symbol [s] of non-zero length holds [s] with the valid bit
    set; a lookup there returns [s] and the length [lens[s]]. *)
Theorem BuildHuffmanCodes_decodes (lens hcodes hcodes' : list N) (max_bits : nat)
    (cips : list CodeIndexPair) (s : nat) (i : N) :
  BuildHuffmanCodes lens hcodes = Ret (hcodes', max_bits, cips) ->
  (kraft_sum lens <= 1)%Q -> (length lens <= 2 ^ 15)%nat ->
  (s < length lens)%nat -> lens.[s] <> 0 -> i < 2 ^ N.of_nat max_bits ->
  low_bits (N.to_nat lens.[s]) i = bit_reversed (N.to_nat lens.[s]) (canonical_code lens s) ->
  hcodes'.[N.to_nat i] = N.lor (N.of_nat s) 0x8000 /\
  N.land hcodes'.[N.to_nat i] 0x8000 = 0x8000 /\
  N.land hcodes'.[N.to_nat i] 0x7FFF = N.of_nat s /\
  forall ht, code_hcodes_ ht = hcodes' -> code_lens_ ht = lens ->
    CodeAlphabet ht i = Ret (N.of_nat s, N.to_nat lens.[s]).
Proof.
  intros Hrun Hkq Hlen Hs Hnz Hi Hcar.
  assert (Hlen16 : (length lens <= 2 ^ 16)%nat).
  { etransitivity; [exact Hlen|]. apply Nat.pow_le_mono_r; lia. }
  destruct (BuildHuffmanCodes_table lens hcodes hcodes' max_bits cips Hlen16 Hrun)
    as (cips0 & Hinit & _ & Hsize & HlT & _ & Hent & Hval).
  destruct (InitHuffmanCodes_codes lens max_bits cips0 Hinit) as (Hok & _).
  pose proof (InitHuffmanCodes_exact lens max_bits cips0 Hinit Hkq Hlen16) as Hcips.
  assert (Hk : kraft15 lens <= 2 ^ 15) by (apply kraft_le_1; assumption).
  assert (Hcoded : s ∈ coded_symbols lens) by (apply coded_symbols_elem; auto).
  assert (Hj : (N.to_nat i < 2 ^ max_bits)%nat).
  { assert (H : (N.to_nat i < N.to_nat (2 ^ N.of_nat max_bits))%nat) by lia.
    rewrite N2Nat.inj_pow, Nat2N.id in H. exact H. }
  assert (Hsmall : forall s', s' ∈ coded_symbols lens -> N.of_nat s' < 2 ^ 15).
  { intros s' Hs'. apply coded_symbols_elem in Hs' as [Hs' _].
    assert (H : N.of_nat s' < N.of_nat (2 ^ 15)) by lia.
    rewrite pow2_15_nat in H. exact H. }
  assert (Hlen_of : forall s', cip_len lens (code_of lens s') = N.to_nat lens.[s']).
  { intros s'. unfold cip_len. simpl. rewrite Nat2N.id. reflexivity. }
  assert (Hv : valid hcodes'.[N.to_nat i] = true).
  { apply (Hval (code_of lens s)); auto.
    - rewrite Hcips. apply list_elem_of_fmap. eauto.
    - unfold carries. rewrite Hlen_of, N2Nat.id. exact Hcar. }
  destruct (Hent _ Hj Hv) as (cip & Hin & He & Hcar').
  rewrite Hcips in Hin. apply list_elem_of_fmap in Hin as (s' & -> & Hs').
  unfold carries in Hcar'. rewrite Hlen_of, N2Nat.id in Hcar'. simpl in Hcar'.
  assert (Hss : s = s').
  { destruct (le_lt_dec (N.to_nat lens.[s]) (N.to_nat lens.[s'])).
    - apply (carried_symbol_unique lens s s' i); auto.
    - symmetry. apply (carried_symbol_unique lens s' s i); auto. lia. }
  subst s'.
  destruct (entry_small (code_of lens s)) as [Hadd Hsym]; [simpl; auto|].
  simpl in Hadd, Hsym.
  assert (Hlor : N.lor (N.of_nat s) 0x8000 = N.of_nat s + 0x8000).
  { unfold entry in Hadd. simpl in Hadd. rewrite <- Hadd. symmetry. apply uint16_small.
    destruct (N.lt_ge_cases (N.lor (N.of_nat s) 0x8000) (2 ^ 16)) as [|Hge]; auto.
    exfalso. assert (Hlog : N.log2 (N.lor (N.of_nat s) 0x8000) < 16).
    { rewrite N.log2_lor. apply N.max_lub_lt; [|reflexivity].
      destruct (N.eq_dec (N.of_nat s) 0) as [->|]; [reflexivity|].
      apply N.log2_lt_pow2; [lia|]. specialize (Hsmall s Hcoded).
      change (2 ^ 16) with (2 * 2 ^ 15). lia. }
    apply N.log2_lt_pow2 in Hlog; lia. }
  rewrite He, Hlor. split; [assumption|]. split; [|split; [assumption|]].
  - apply valid_land, valid_entry.
  - intros ht Hh Hl. unfold CodeAlphabet. rewrite Hh, Hl. unfold vec_load.
    destruct (lookup_lt_is_Some_2 hcodes' (N.to_nat i)) as [hc Hhc]; [lia|].
    rewrite Hhc. cbv [mbind outcome_mbind obind].
    rewrite (vec_get_lookup _ _ _ Hhc) in He, Hv.
    fold (valid hc). rewrite Hv. simpl test. cbv iota.
    rewrite He, Hsym, Nat2N.id.
    destruct (lookup_lt_is_Some_2 lens s Hs) as [len Hlens].
    rewrite Hlens, (vec_get_lookup _ _ _ Hlens). reflexivity.
Qed.

(** ** BuildHuffmanCodeLengths: rejected sequences *)

(** One iteration of each loop. *)
Lemma code_lengths_br_step fuel ht max_bits num_codes idx br buffer index_ lens :
  code_lengths_br (S fuel) ht max_bits num_codes idx br buffer index_ lens =
  if (idx <? num_codes)%nat then
    _ ← test (CacheBits max_bits br) kInsufficientInput;
    '(code, nbits) ← set_error (CodeAlphabet ht (ReadBits max_bits br)) kInvalidInput;
    _ ← test (index_ <? length buffer)%nat kInsufficientOutput;
    if code <? 16 then
      code_lengths_br fuel ht max_bits num_codes (S idx) (DropBits nbits br)
        (<[index_:=uint8 code]> buffer) (S index_) (lens ++ [uint8 code])
    else
      _ ← test (code <? 19) kInvalidInput;
      '(copy_num, copy_val, br', buffer') ←
        repeat_marker_br code idx (DropBits nbits br) buffer index_ lens;
      code_lengths_br fuel ht max_bits num_codes (idx + copy_num) br'
        buffer' (S index_) (lens ++ replicate copy_num copy_val)
  else Ret (br, buffer, index_, lens).
Proof. reflexivity. Qed.

Lemma code_lengths_bw_step fuel ht num_codes idx buffer index_ bw lens :
  code_lengths_bw (S fuel) ht num_codes idx buffer index_ bw lens =
  if (idx <? num_codes)%nat then
    _ ← test (index_ <? length buffer)%nat kInsufficientInput;
    let pcode := buffer.[index_] in
    _ ← test (pcode <=? 155) kInvalidInput;
    let code :=
      if pcode <? 16 then pcode else if pcode <? 20 then 16
      else if pcode <? 28 then 17 else 18 in
    '(hcode, nbits) ← set_error (CodeHuffman ht code) kInvalidInput;
    bw' ← write_or nbits hcode bw kInsufficientOutput;
    if code <? 16 then
      code_lengths_bw fuel ht num_codes (S idx) buffer (S index_) bw' (lens ++ [uint8 code])
    else
      '(copy_num, copy_val, bw'') ← repeat_marker_bw code pcode idx bw' lens;
      code_lengths_bw fuel ht num_codes (idx + copy_num) buffer (S index_) bw''
        (lens ++ replicate copy_num copy_val)
  else Ret (index_, bw, lens).
Proof. reflexivity. Qed.

(** C7. In the puff-to-bits direction, an iteration that reads a byte above
    155 fails with [kInvalidInput] at once: whatever the table, the writer
    (even one without room) and the lengths read so far, nothing of the
    byte is looked up, written or expanded. In particular a sequence that
    starts with such a byte is rejected. *)
Theorem code_lengths_bw_above_155 (ht : HuffmanTable) (num_codes : nat) (pcode : N) :
  (forall fuel idx buffer index_ bw lens,
     (idx < num_codes)%nat -> buffer !! index_ = Some pcode -> 155 < pcode ->
     code_lengths_bw (S fuel) ht num_codes idx buffer index_ bw lens = Fail kInvalidInput) /\
  (forall rest bw,
     (0 < num_codes)%nat -> 155 < pcode ->
     BuildHuffmanCodeLengths_bw ht (pcode :: rest) bw num_codes = Fail kInvalidInput).
Proof.
  assert (Hloop : forall fuel idx buffer index_ bw lens,
     (idx < num_codes)%nat -> buffer !! index_ = Some pcode -> 155 < pcode ->
     code_lengths_bw (S fuel) ht num_codes idx buffer index_ bw lens = Fail kInvalidInput).
  { intros fuel idx buffer index_ bw lens Hidx Hbyte Hbig.
    rewrite code_lengths_bw_step. cbv zeta.
    destruct (Nat.ltb_spec idx num_codes); [|lia].
    destruct (Nat.ltb_spec index_ (length buffer)) as [|Hge].
    2:{ apply lookup_lt_Some in Hbyte. lia. }
    rewrite (vec_get_lookup _ _ _ Hbyte). cbn [test mbind outcome_mbind obind].
    destruct (N.leb_spec pcode 155); [lia|]. reflexivity. }
  split; [exact Hloop|].
  intros rest bw Hn Hbig. unfold BuildHuffmanCodeLengths_bw.
  destruct num_codes as [|n]; [lia|]. apply Hloop; auto.
Qed.

Definition has_room (n : nat) (bw : BitWriter) : bool :=
  (length (bw_bits bw) + n <=? bw_size bw)%nat.

Lemma write_or_room n v bw e :
  write_or n v bw e =
  if has_room n bw
  then Ret {| bw_bits := bw_bits bw ++ N_to_bits n v; bw_size := bw_size bw |}
  else Fail e.
Proof. unfold write_or, WriteBits, has_room. destruct (_ <=? _)%nat; reflexivity. Qed.

(** C6. A copy-previous marker in first position is never accepted: both
    directions fail on it, with [kInvalidInput] from the test [idx != 0]
    unless one of the other two failure modes of the procedure comes first.
    Reading, the marker is the symbol that the meta table gives for the next
    [max_bits] bits: the call reports [kInsufficientInput] when fewer than
    [max_bits] bits are left, [kInsufficientOutput] when the puff buffer has
    no byte free, and [kInvalidInput] in every other case. Writing, the
    marker is a first byte 16..19: the call reports [kInsufficientOutput]
    when the bit writer has no room for the code of symbol 16, and
    [kInvalidInput] in every other case. *)
Theorem code_lengths_copy_previous_first (ht : HuffmanTable) (num_codes : nat) :
  (0 < num_codes)%nat ->
  (forall br buffer max_bits nbits,
     CodeAlphabet ht (ReadBits max_bits br) = Ret (16, nbits) ->
     BuildHuffmanCodeLengths_br ht br buffer max_bits num_codes =
     Fail (if negb (CacheBits max_bits br) then kInsufficientInput
           else if (0 <? length buffer)%nat then kInvalidInput
           else kInsufficientOutput)) /\
  (forall pcode rest bw hcode nbits,
     16 <= pcode <= 19 ->
     CodeHuffman ht 16 = Ret (hcode, nbits) ->
     BuildHuffmanCodeLengths_bw ht (pcode :: rest) bw num_codes =
     Fail (if has_room nbits bw then kInvalidInput else kInsufficientOutput)).
Proof.
  intros Hn. destruct num_codes as [|n]; [lia|]. split.
  - intros br buffer max_bits nbits Hcode.
    unfold BuildHuffmanCodeLengths_br. rewrite code_lengths_br_step.
    change (0 <? S n)%nat with true. cbv iota.
    destruct (CacheBits max_bits br); [|reflexivity].
    rewrite Hcode. cbn [test set_error mbind outcome_mbind obind negb].
    destruct (0 <? length buffer)%nat; reflexivity.
  - intros pcode rest bw hcode nbits Hp Hcode.
    unfold BuildHuffmanCodeLengths_bw. rewrite code_lengths_bw_step.
    change ((pcode :: rest).[O]) with pcode. cbv zeta.
    change (0 <? S n)%nat with true. change (0 <? length (pcode :: rest))%nat with true.
    cbv iota. cbn [test mbind outcome_mbind obind].
    destruct (N.leb_spec pcode 155); [|lia].
    destruct (N.ltb_spec pcode 16); [lia|]. destruct (N.ltb_spec pcode 20); [|lia].
    rewrite Hcode. cbn [set_error mbind outcome_mbind obind]. rewrite write_or_room.
    destruct (has_room nbits bw); reflexivity.
Qed.

(** A table whose meta code has two symbols of length 1: the zero length
    (code 0) and the long run of zeros, symbol 18 (code 1). *)
Definition run_table : HuffmanTable :=
  let ht := set_code_lens_ new_table ([1] ++ replicate 17 0 ++ [1]) in
  let ht := set_code_hcodes_ ht ([0x8000; 0x8012] ++ replicate 126 0) in
  let ht := set_code_rcodes_ ht (replicate 18 0 ++ [1]) in
  set_code_max_bits_ ht 1.

(** C9. Neither direction bounds a run by the size of the alphabet. With 5
    codes announced, the single marker 18 with extra bits 0 (eleven zeros)
    is accepted in both directions and leaves 11 lengths. *)
Theorem code_lengths_run_overflows :
  BuildHuffmanCodeLengths_br run_table
    [true; false; false; false; false; false; false; false] [0; 0] 1 5
  = Ret ([], [28; 0], 1%nat, replicate 11 0) /\
  BuildHuffmanCodeLengths_bw run_table [28] {| bw_bits := []; bw_size := 8 |} 5
  = Ret (1%nat,
         {| bw_bits := [true; false; false; false; false; false; false; false];
            bw_size := 8 |},
         replicate 11 0) /\
  (5 < length (replicate 11 0%N))%nat.
Proof. split; [|split]; [vm_compute; reflexivity ..|simpl; lia]. Qed.

(** ** BuildDynamicHuffmanTable, puff bytes to DEFLATE bits: trailing bytes *)

Lemma vec_get_app_l (a b : list N) i : (i < length a)%nat -> (a ++ b).[i] = a.[i].
Proof. intros H. unfold vec_get. rewrite lookup_app_l by assumption. reflexivity. Qed.

Lemma half_le n k : ((n + 1) / 2 <= k)%nat <-> (n <= 2 * k)%nat.
Proof.
  pose proof (Nat.div_mod_eq (n + 1) 2). pose proof (Nat.mod_upper_bound (n + 1) 2). lia.
Qed.

(** The nibble loop reads [(n + 1) / 2] bytes and nothing behind them. *)
Lemma write_code_lens_app extra idxs : forall buffer index_ checked code_lens bw,
  (index_ <= length buffer)%nat ->
  (length idxs + (if checked : bool then 1 else 0) <= 2 * (length buffer - index_))%nat ->
  write_code_lens idxs (buffer ++ extra) index_ checked code_lens bw =
  write_code_lens idxs buffer index_ checked code_lens bw.
Proof.
  induction idxs as [|idx idxs IH]; intros buffer index_ checked code_lens bw Hi Hroom.
  - reflexivity.
  - simpl length in Hroom. simpl write_code_lens.
    rewrite vec_get_app_l by (destruct checked; lia).
    destruct checked; simpl.
    + destruct (vec_store code_lens (perm idx) _); simpl; auto.
      destruct (write_or 3 _ bw kInsufficientOutput); simpl; auto.
      apply IH; lia.
    + destruct (vec_store code_lens (perm idx) _); simpl; auto.
      destruct (write_or 3 _ bw kInsufficientOutput); simpl; auto.
      apply IH; lia.
Qed.

(** The nibble loop advances by the bytes it has finished. *)
Lemma write_code_lens_index idxs : forall buffer index_ checked code_lens bw index' checked' cl' bw',
  write_code_lens idxs buffer index_ checked code_lens bw = Ret (index', checked', cl', bw') ->
  (2 * (if checked' : bool then S index' else index') =
   2 * index_ + length idxs + (if checked : bool then 1 else 0)
   + (if checked' : bool then 1 else 0))%nat.
Proof.
  induction idxs as [|idx idxs IH]; intros buffer index_ checked code_lens bw i' c' cl' bw' Hrun.
  - simpl in Hrun. injection Hrun as <- <- <- <-. simpl. destruct checked; simpl; lia.
  - simpl in Hrun. simpl length.
    destruct checked; simpl in Hrun.
    + destruct (vec_store code_lens (perm idx) _); simpl in Hrun; try discriminate.
      destruct (write_or 3 _ bw kInsufficientOutput); simpl in Hrun; try discriminate.
      apply IH in Hrun. simpl in Hrun. lia.
    + destruct (vec_store code_lens (perm idx) _); simpl in Hrun; try discriminate.
      destruct (write_or 3 _ bw kInsufficientOutput); simpl in Hrun; try discriminate.
      apply IH in Hrun. simpl in Hrun. lia.
Qed.

(** An accepting run of the code-length loop reads only the bytes it
    consumes: bytes behind them do not change it. *)
Lemma code_lengths_bw_app extra ht num_codes fuel : forall idx buffer index_ bw lens r,
  code_lengths_bw fuel ht num_codes idx buffer index_ bw lens = Ret r ->
  (index_ <= length buffer)%nat ->
  code_lengths_bw fuel ht num_codes idx (buffer ++ extra) index_ bw lens = Ret r /\
  (r.1.1 <= length buffer)%nat.
Proof.
  induction fuel as [|fuel IH]; intros idx buffer index_ bw lens r Hrun Hi.
  - simpl in *. destruct (idx <? num_codes)%nat; [discriminate|].
    injection Hrun as <-. simpl. split; [reflexivity|assumption].
  - rewrite code_lengths_bw_step in *. cbv zeta in *.
    destruct (idx <? num_codes)%nat.
    2:{ injection Hrun as <-. simpl. split; [reflexivity|assumption]. }
    destruct (Nat.ltb_spec index_ (length buffer)) as [Hlt|]; [|discriminate].
    rewrite length_app. destruct (Nat.ltb_spec index_ (length buffer + length extra)); [|lia].
    rewrite vec_get_app_l by assumption.
    cbn [test mbind outcome_mbind obind] in *.
    destruct (test (buffer.[index_] <=? 155) kInvalidInput); try discriminate.
    cbn [test mbind outcome_mbind obind] in *.
    destruct (set_error (CodeHuffman ht _) kInvalidInput) as [[hcode nbits]| |];
      try discriminate.
    cbn [mbind outcome_mbind obind] in *.
    destruct (write_or nbits hcode bw kInsufficientOutput) as [bw'| |]; try discriminate.
    cbn [mbind outcome_mbind obind] in *.
    match type of Hrun with (if ?c then _ else _) = _ => destruct c end.
    + apply IH; [assumption|lia].
    + destruct (repeat_marker_bw _ _ idx bw' lens) as [[[copy_num copy_val] bw'']| |];
        try discriminate.
      cbn [mbind outcome_mbind obind] in *. apply IH; [assumption|lia].
Qed.

(** Case analysis on the step a successful run takes next. *)
Tactic Notation "next_step" hyp(H) "as" simple_intropattern(p) "eqn" ident(E) :=
  lazymatch type of H with
  | mbind _ ?m = Ret _ =>
      destruct m as [p| |] eqn:E;
      cbn [mbind outcome_mbind obind] in H |- *; [|discriminate H ..]
  end.

(** C10. The writing direction consumes its buffer exactly: if it accepts
    a header, it fails with [kInvalidInput] on the same header followed by
    any further byte. *)
Theorem BuildDynamicHuffmanTable_bw_trailing (ht : HuffmanTable) (buffer extra : list N)
    (bw : BitWriter) (r : HuffmanTable * BitWriter) :
  BuildDynamicHuffmanTable_bw ht buffer bw = Ret r ->
  extra <> [] ->
  BuildDynamicHuffmanTable_bw ht (buffer ++ extra) bw = Fail kInvalidInput.
Proof.
  intros Hrun Hextra. unfold BuildDynamicHuffmanTable_bw in *. cbv zeta in *.
  next_step Hrun as ? eqn Hlen. apply test_Ret, Nat.leb_le in Hlen.
  rewrite length_app. destruct (Nat.leb_spec 3 (length buffer + length extra)); [|lia].
  cbn [test mbind outcome_mbind obind].
  rewrite !vec_get_app_l by lia.
  next_step Hrun as bw1 eqn Ew1. next_step Hrun as bw2 eqn Ew2.
  next_step Hrun as bw3 eqn Ew3. next_step Hrun as ? eqn Echeck.
  next_step Hrun as ? eqn Eroom. apply test_Ret, Nat.leb_le, half_le in Eroom.
  destruct (Nat.leb_spec ((N.to_nat buffer.[2] + 4 + 1) / 2) (length buffer + length extra - 3))
    as [_|Hbad].
  2:{ apply Nat.lt_nge in Hbad. exfalso. apply Hbad, half_le. lia. }
  cbn [test mbind outcome_mbind obind].
  rewrite write_code_lens_app by (rewrite ?length_seq; simpl; lia).
  next_step Hrun as [[[index_ checked] code_lens] bw4] eqn Enib.
  apply write_code_lens_index in Enib. rewrite length_seq in Enib.
  set (index1 := if checked then S index_ else index_) in *.
  assert (Hi1 : (index1 <= length buffer)%nat) by (destruct checked; simpl in Enib; lia).
  next_step Hrun as code_lens' eqn Eclear.
  next_step Hrun as [[rcodes max_bits] cips] eqn Ecode.
  rewrite drop_app_le by assumption.
  next_step Hrun as [[bytes1 bw5] lens1] eqn Elit.
  unfold BuildHuffmanCodeLengths_bw in Elit |- *.
  destruct (code_lengths_bw_app extra _ _ _ _ _ _ _ _ _ Elit) as [Elit' Hb1]; [lia|].
  rewrite Elit'. cbn [mbind outcome_mbind obind].
  simpl in Hb1. rewrite length_drop in Hb1.
  next_step Hrun as [[rcodes2 max_bits2] cips2] eqn Elitr.
  rewrite drop_app_le by lia.
  next_step Hrun as [[bytes2 bw6] lens2] eqn Edist.
  destruct (code_lengths_bw_app extra _ _ _ _ _ _ _ _ _ Edist) as [Edist' Hb2]; [lia|].
  rewrite Edist'. cbn [mbind outcome_mbind obind].
  next_step Hrun as [[rcodes3 max_bits3] cips3] eqn Edistr.
  next_step Hrun as ? eqn Efinal. apply test_Ret, Nat.eqb_eq in Efinal.
  destruct (Nat.eqb_spec (length buffer + length extra) (index1 + bytes1 + bytes2)) as [Heq|_].
  - destruct extra; [congruence|]. simpl in Heq. lia.
  - reflexivity.
Qed.

(** ** Round trip of the dynamic header *)

(** *** Bits *)

Lemma N_to_bits_bits_to_N n : forall bs, (n <= length bs)%nat ->
  N_to_bits n (bits_to_N bs) = take n bs.
Proof.
  induction n as [|n IH]; intros bs Hn; [reflexivity|].
  destruct bs as [|b bs]; simpl in Hn; [lia|]. simpl.
  assert (Hodd : N.odd (N.b2n b + 2 * bits_to_N bs) = b).
  { rewrite N.odd_add_mul_2. destruct b; reflexivity. }
  assert (Hdiv : N.div2 (N.b2n b + 2 * bits_to_N bs) = bits_to_N bs).
  { rewrite N.div2_div, (N.mul_comm 2), N.div_add by discriminate.
    destruct b; reflexivity. }
  rewrite Hodd, Hdiv, IH by lia. reflexivity.
Qed.

Lemma N_to_bits_mod n : forall v, N_to_bits n (v mod 2 ^ N.of_nat n) = N_to_bits n v.
Proof.
  induction n as [|n IH]; intros v; [reflexivity|]. simpl N_to_bits.
  rewrite Nat2N.inj_succ, N.pow_succ_r', N.Div0.mod_mul_r.
  assert (Hodd : N.odd (v mod 2 + 2 * ((v / 2) mod 2 ^ N.of_nat n)) = N.odd v).
  { rewrite N.odd_add_mul_2. rewrite <- N.bit0_mod, N.bit0_odd.
    destruct (N.odd v); reflexivity. }
  assert (Hdiv : N.div2 (v mod 2 + 2 * ((v / 2) mod 2 ^ N.of_nat n)) =
                 (v / 2) mod 2 ^ N.of_nat n).
  { rewrite N.div2_div, (N.mul_comm 2), N.div_add by discriminate.
    rewrite N.div_small by (apply N.mod_lt; discriminate). apply N.add_0_l. }
  rewrite Hodd, Hdiv, IH, N.div2_div. reflexivity.
Qed.

Lemma N_to_bits_take n m bs : (n <= m)%nat -> (n <= length bs)%nat ->
  N_to_bits n (bits_to_N (take m bs)) = take n bs.
Proof.
  intros Hnm Hn. rewrite N_to_bits_bits_to_N by (rewrite length_take; lia).
  rewrite take_take. f_equal. lia.
Qed.

Lemma ReadBits_lt n br : ReadBits n br < 2 ^ N.of_nat n.
Proof.
  unfold ReadBits. pose proof (bits_to_N_lt (take n br)) as H.
  eapply N.lt_le_trans; [exact H|]. apply N.pow_le_mono_r; [discriminate|].
  rewrite length_take. lia.
Qed.

(** Writing what was read reproduces the bits that were dropped. *)
Lemma write_read n br bw e :
  CacheBits n br = true -> has_room n bw = true ->
  write_or n (ReadBits n br) bw e =
    Ret {| bw_bits := bw_bits bw ++ take n br; bw_size := bw_size bw |} /\
  br = take n br ++ DropBits n br.
Proof.
  intros Hc Hr. apply Nat.leb_le in Hc. rewrite write_or_room, Hr. split.
  - unfold ReadBits. rewrite N_to_bits_take by lia. reflexivity.
  - unfold DropBits. symmetry. apply take_drop.
Qed.

(** *** The reverse table *)

Lemma by_index_strict_weak :
  strict_weak_order (fun a b : CodeIndexPair => index a <? index b).
Proof.
  repeat split.
  - intros a. apply N.ltb_irrefl.
  - intros a b c Hab Hbc. apply N.ltb_lt in Hab, Hbc. apply N.ltb_lt. lia.
  - intros a b c Hab Hbc. apply N.ltb_ge in Hab, Hbc. apply N.ltb_ge. lia.
Qed.

(** A sorted rearrangement of pairs in strictly ascending index order is
    the same list. *)
Lemma sorted_by_index_unique (l0 : list CodeIndexPair) : forall l,
  StronglySorted (fun a b => index a < index b) l0 ->
  StronglySorted (fun a b => (index b <? index a) = false) l ->
  l ≡ₚ l0 -> l = l0.
Proof.
  induction l0 as [|x l0 IH]; intros l Hs0 Hs Hperm.
  - apply Permutation_nil_r in Hperm. exact Hperm.
  - destruct l as [|y l]; [apply Permutation_nil_cons in Hperm; contradiction|].
    apply StronglySorted_inv in Hs0 as [Hs0 Hx]. apply StronglySorted_inv in Hs as [Hs Hy].
    rewrite Forall_forall in Hx, Hy.
    assert (Hyx : y = x).
    { assert (Hin : y ∈ x :: l0) by (rewrite <- Hperm; left).
      apply elem_of_cons in Hin as [|Hin]; auto.
      assert (Hin' : x ∈ y :: l) by (rewrite Hperm; left).
      apply elem_of_cons in Hin' as [|Hin']; auto.
      specialize (Hx y Hin). specialize (Hy x Hin'). apply N.ltb_ge in Hy. lia. }
    subst y. f_equal. apply IH; auto. eapply Permutation_cons_inv. exact Hperm.
Qed.

Lemma coded_sorted (f : nat -> CodeIndexPair) (P : nat -> Prop) `{forall s, Decision (P s)} n :
  forall a, (forall s, index (f s) = N.of_nat s) ->
  StronglySorted (fun x y => index x < index y) (map f (filter P (seq a n))).
Proof.
  induction n as [|n IH]; intros a Hf; simpl.
  - constructor.
  - rewrite filter_cons. destruct (decide (P a)); [|apply IH; auto].
    simpl. constructor; [apply IH; auto|].
    apply Forall_forall. intros y Hy. apply list_elem_of_fmap in Hy as (s & -> & Hs).
    apply list_elem_of_filter in Hs as [_ Hs]. apply elem_of_seq in Hs.
    rewrite !Hf. lia.
Qed.

(** The walk over the symbols and the sorted pairs: slot [j] receives the
    code of symbol [j] if it has one, and 0 otherwise. *)
Lemma reverse_codes_spec (f : nat -> CodeIndexPair) lens n : forall a cursor cips rcodes,
  (forall s, (s < length lens)%nat -> index (f s) = N.of_nat s) ->
  drop cursor cips = map f (filter (fun s => lens.[s] <> 0) (seq a (length lens - a))) ->
  (a + n <= length rcodes)%nat ->
  let rcodes' := reverse_codes (seq a n) cursor cips rcodes in
  length rcodes' = length rcodes /\
  (forall j, (j < a)%nat -> rcodes'.[j] = rcodes.[j]) /\
  (forall j, (a <= j < a + n)%nat ->
     rcodes'.[j] = if decide (lens.[j] <> 0) then code (f j) else 0).
Proof.
  induction n as [|n IH]; intros a cursor cips rcodes Hf Hdrop Hlen; simpl.
  - repeat split; auto. intros; lia.
  - assert (Hhead : cips !! cursor = drop cursor cips !! O)
      by (rewrite lookup_drop; f_equal; lia).
    assert (Htail : drop (S cursor) cips = drop 1 (drop cursor cips))
      by (rewrite drop_drop; f_equal; lia).
    rewrite Hdrop in Hhead, Htail.
    assert (Hnext : forall l, (length lens - a = S l)%nat ->
      (length lens - S a = l)%nat) by (intros; lia).
    destruct (le_lt_dec (length lens) a) as [Hout|Hin].
    + replace (length lens - a)%nat with O in * by lia. simpl in Hhead, Htail.
      rewrite Hhead.
      destruct (IH (S a) cursor cips (<[a:=0]> rcodes)) as (Hl & Hlow & Hval); auto.
      { rewrite Hdrop. replace (length lens - S a)%nat with O by lia.
        replace (length lens - a)%nat with O by lia. reflexivity. }
      { rewrite length_insert. lia. }
      rewrite length_insert in Hl. repeat split; auto.
      * intros j Hj. rewrite Hlow by lia. apply vec_get_insert_ne. lia.
      * intros j Hj. destruct (decide (j = a)) as [->|].
        -- rewrite Hlow by lia. rewrite vec_get_insert_eq by lia.
           rewrite (vec_get_ge lens a Hout). destruct (decide (0 <> 0)); [contradiction|reflexivity].
        -- apply Hval. lia.
    + destruct (length lens - a)%nat as [|l] eqn:El; [lia|].
      specialize (Hnext l eq_refl). simpl seq in Hhead, Htail.
      rewrite filter_cons in Hhead, Htail.
      destruct (decide (lens.[a] <> 0)) as [Hnz|Hz].
      * simpl in Hhead, Htail. rewrite Hhead, Hf, N.eqb_refl by assumption.
        destruct (IH (S a) (S cursor) cips (<[a:=code (f a)]> rcodes)) as (Hl & Hlow & Hval); auto.
        { rewrite Htail, Hnext. reflexivity. }
        { rewrite length_insert. lia. }
        rewrite length_insert in Hl. repeat split; auto.
        -- intros j Hj. rewrite Hlow by lia. apply vec_get_insert_ne. lia.
        -- intros j Hj. destruct (decide (j = a)) as [->|].
           ++ rewrite Hlow by lia. rewrite vec_get_insert_eq by lia.
              destruct (decide (lens.[a] <> 0)); [reflexivity|contradiction].
           ++ apply Hval. lia.
      * assert (Hskip : reverse_codes (seq (S a) n) cursor cips (<[a:=0]> rcodes) =
          match cips !! cursor with
          | Some cip =>
              if N.of_nat a =? index cip
              then reverse_codes (seq (S a) n) (S cursor) cips (<[a:=code cip]> rcodes)
              else reverse_codes (seq (S a) n) cursor cips (<[a:=0]> rcodes)
          | None => reverse_codes (seq (S a) n) cursor cips (<[a:=0]> rcodes)
          end).
        { destruct (cips !! cursor) as [cip|] eqn:Ec; [|reflexivity].
          destruct (N.eqb_spec (N.of_nat a) (index cip)) as [Heq|]; [exfalso|reflexivity].
          rewrite Hhead in Ec.
          assert (Hcip : cip ∈ map f (filter (fun s => lens.[s] <> 0) (seq (S a) l))).
          { apply list_elem_of_lookup. eauto. }
          apply list_elem_of_fmap in Hcip as (s & -> & Hs).
          apply list_elem_of_filter in Hs as [_ Hs]. apply elem_of_seq in Hs.
          rewrite Hf in Heq by lia. lia. }
        rewrite <- Hskip.
        destruct (IH (S a) cursor cips (<[a:=0]> rcodes)) as (Hl & Hlow & Hval); auto.
        { rewrite Hdrop, Hnext. simpl. rewrite filter_cons.
          destruct (decide (lens.[a] <> 0)); [contradiction|reflexivity]. }
        { rewrite length_insert. lia. }
        rewrite length_insert in Hl. repeat split; auto.
        -- intros j Hj. rewrite Hlow by lia. apply vec_get_insert_ne. lia.
        -- intros j Hj. destruct (decide (j = a)) as [->|].
           ++ rewrite Hlow by lia. rewrite vec_get_insert_eq by lia.
              destruct (decide (lens.[a] <> 0)); [contradiction|reflexivity].
           ++ apply Hval. lia.
Qed.

Lemma InitHuffmanCodes_pairs lens mb cips0 :
  (length lens <= 2 ^ 16)%nat -> InitHuffmanCodes lens = Ret (mb, cips0) ->
  exists f : nat -> CodeIndexPair,
    cips0 = map f (coded_symbols lens) /\
    forall s, (s < length lens)%nat -> lens.[s] <> 0 ->
      index (f s) = N.of_nat s /\ code (f s) < 2 ^ lens.[s].
Proof.
  intros Hlen Hinit.
  destruct (InitHuffmanCodes_codes lens mb cips0 Hinit) as (Hok & nc & _ & _ & Hcips).
  exists (code_of16 nc lens). split; [assumption|]. intros s Hs Hnz.
  destruct (code_of16_facts nc lens s Hlen) as (Hi & Hl & Hc).
  { apply coded_symbols_elem. auto. }
  split; [assumption|]. rewrite Hl, N2Nat.id in Hc. assumption.
Qed.

(** The table that [BuildHuffmanReverseCodes] leaves: it accepts whatever
    [InitHuffmanCodes] accepts, and the slot of every coded symbol holds
    the symbol's code. *)
Lemma BuildHuffmanReverseCodes_table lens rcodes mb cips0 :
  (length lens <= 2 ^ 16)%nat -> InitHuffmanCodes lens = Ret (mb, cips0) ->
  exists rcodes',
    BuildHuffmanReverseCodes lens rcodes = Ret (rcodes', mb, cips0) /\
    length rcodes' = length rcodes /\
    forall cip, cip ∈ cips0 -> (N.to_nat (index cip) < length rcodes)%nat ->
      rcodes'.[N.to_nat (index cip)] = code cip.
Proof.
  intros Hlen Hinit. unfold BuildHuffmanReverseCodes. rewrite Hinit.
  cbn [mbind outcome_mbind obind].
  destruct (InitHuffmanCodes_pairs lens mb cips0 Hlen Hinit) as (f & Hcips & Hf).
  (* Outside the coded symbols the choice of [f] is free. *)
  set (g := fun s => if decide (lens.[s] <> 0) then f s
                     else {| code := 0; index := N.of_nat s |}).
  assert (Hg : cips0 = map g (coded_symbols lens)).
  { rewrite Hcips. apply map_ext_in. intros s Hs. apply list_elem_of_In in Hs.
    apply coded_symbols_elem in Hs as [_ Hnz]. unfold g.
    destruct (decide (lens.[s] <> 0)); [reflexivity|contradiction]. }
  assert (Hgi : forall s, (s < length lens)%nat -> index (g s) = N.of_nat s).
  { intros s Hs. unfold g. destruct (decide (lens.[s] <> 0)); [apply Hf; auto|reflexivity]. }
  assert (Hsorted : std_sort (fun a b => index a <? index b) cips0 = cips0).
  { apply sorted_by_index_unique.
    - rewrite Hg. unfold coded_symbols.
      set (g' := fun s => if decide (s < length lens)%nat then g s
                          else {| code := 0; index := N.of_nat s |}).
      rewrite (map_ext_in g g').
      + apply coded_sorted. intros s. unfold g'.
        destruct (decide (s < length lens)%nat); [apply Hgi; assumption|reflexivity].
      + intros s Hs. apply list_elem_of_In, list_elem_of_filter in Hs as [_ Hs].
        apply elem_of_seq in Hs. unfold g'.
        destruct (decide (s < length lens)%nat); [reflexivity|lia].
    - apply std_sort_sorted, by_index_strict_weak.
    - apply std_sort_perm. }
  rewrite Hsorted.
  destruct (reverse_codes_spec g lens (length rcodes) 0 0 cips0 rcodes) as (Hl & _ & Hval); auto.
  { rewrite Nat.sub_0_r. exact Hg. }
  eexists. split; [reflexivity|]. split; [assumption|].
  intros cip Hin Hidx. rewrite Hg in Hin. apply list_elem_of_fmap in Hin as (s & -> & Hs).
  apply coded_symbols_elem in Hs as [Hs Hnz].
  rewrite Hgi in * by assumption. rewrite Nat2N.id in *.
  rewrite Hval by lia. destruct (decide (lens.[s] <> 0)); [reflexivity|contradiction].
Qed.

(** What the two directions need of the meta tables: a valid slot of the
    forward table names a symbol of the meta alphabet whose length fits
    [max_bits] and whose reverse code is the low bits of the slot. *)
Definition meta_tables (hcodes code_lens rcodes : list N) (max_bits : nat) : Prop :=
  length code_lens = 19%nat /\ length rcodes = 19%nat /\
  forall j hc, (j < 2 ^ max_bits)%nat -> hcodes !! j = Some hc -> valid hc = true ->
    let s := N.to_nat (N.land hc 0x7FFF) in
    (s < 19)%nat /\ (N.to_nat code_lens.[s] <= max_bits)%nat /\
    low_bits (N.to_nat code_lens.[s]) (N.of_nat j) = rcodes.[s].

Lemma meta_tables_built code_lens hcodes hcodes' rcodes rcodes' mb mb' cips cips' :
  length code_lens = 19%nat -> length rcodes = 19%nat ->
  BuildHuffmanCodes code_lens hcodes = Ret (hcodes', mb, cips) ->
  BuildHuffmanReverseCodes code_lens rcodes = Ret (rcodes', mb', cips') ->
  mb' = mb /\ meta_tables hcodes' code_lens rcodes' mb.
Proof.
  intros Hcl Hrc Hfwd Hrev.
  assert (Hlen : (length code_lens <= 2 ^ 16)%nat).
  { rewrite Hcl. apply Nat.lt_le_incl. apply (Nat.lt_le_trans _ (2 ^ 5)); [simpl; lia|].
    apply Nat.pow_le_mono_r; lia. }
  destruct (BuildHuffmanCodes_table _ _ _ _ _ Hlen Hfwd)
    as (cips0 & Hinit & _ & Hsize & HlT & Hlens & Hent & _).
  destruct (BuildHuffmanReverseCodes_table code_lens rcodes mb cips0 Hlen Hinit)
    as (rc & Hrev' & Hlrc & Hcodes).
  rewrite Hrev' in Hrev. injection Hrev as <- <- <-.
  split; [reflexivity|]. split; [assumption|]. split; [congruence|].
  intros j hc Hj Hhc Hv. rewrite <- (vec_get_lookup _ _ _ Hhc) in Hv |- *.
  destruct (Hent j Hj Hv) as (cip & Hin & He & Hcar).
  destruct (InitHuffmanCodes_pairs code_lens mb cips0 Hlen Hinit) as (f & Hcips & Hf).
  pose proof Hin as Hin'. rewrite Hcips in Hin'.
  apply list_elem_of_fmap in Hin' as (s & -> & Hs).
  apply coded_symbols_elem in Hs as [Hs Hnz]. destruct (Hf s Hs Hnz) as [Hi Hc].
  assert (Hs15 : index (f s) < 2 ^ 15).
  { rewrite Hi. rewrite Hcl in Hs. change (2 ^ 15) with 32768. lia. }
  destruct (entry_small (f s) Hs15) as [_ Hsym].
  rewrite He, Hsym, Hi, Nat2N.id. cbv zeta.
  split; [lia|]. specialize (Hlens _ Hin). unfold cip_len in Hlens.
  rewrite Hi, Nat2N.id in Hlens. split; [assumption|].
  unfold carries, cip_len in Hcar. rewrite Hi, Nat2N.id in Hcar. rewrite Hcar.
  symmetry. specialize (Hcodes _ Hin). rewrite Hi, Nat2N.id in Hcodes.
  apply Hcodes. lia.
Qed.

(** *** The code-length sequences *)

Lemma CodeAlphabet_Ret ht bits code nbits :
  CodeAlphabet ht bits = Ret (code, nbits) ->
  exists hc, code_hcodes_ ht !! N.to_nat bits = Some hc /\ valid hc = true /\
    code = N.land hc 0x7FFF /\
    exists nb, code_lens_ ht !! N.to_nat code = Some nb /\ nbits = N.to_nat nb.
Proof.
  unfold CodeAlphabet, vec_load. intros H.
  destruct (code_hcodes_ ht !! N.to_nat bits) as [hc|]; [|discriminate].
  cbn [mbind outcome_mbind obind] in H. fold (valid hc) in H.
  destruct (valid hc) eqn:Hv; [|discriminate]. cbn [test mbind outcome_mbind obind] in H.
  destruct (code_lens_ ht !! N.to_nat (N.land hc 32767)) as [nb|] eqn:Hnb; [|discriminate].
  cbn [mbind outcome_mbind obind] in H. injection H as <- <-.
  exists hc. repeat split; auto. exists nb. auto.
Qed.

Lemma CodeHuffman_Ret ht s :
  (s < length (code_lens_ ht))%nat -> (s < length (code_rcodes_ ht))%nat ->
  CodeHuffman ht (N.of_nat s) = Ret ((code_rcodes_ ht).[s], N.to_nat (code_lens_ ht).[s]).
Proof.
  intros Hl Hr. unfold CodeHuffman, vec_load. rewrite Nat2N.id.
  destruct (Nat.ltb_spec s (length (code_lens_ ht))); [|lia].
  cbn [test mbind outcome_mbind obind].
  destruct (lookup_lt_is_Some_2 _ _ Hl) as [nb Hnb].
  destruct (lookup_lt_is_Some_2 _ _ Hr) as [rc Hrc].
  rewrite Hnb, Hrc. cbn [mbind outcome_mbind obind].
  rewrite (vec_get_lookup _ _ _ Hnb), (vec_get_lookup _ _ _ Hrc). reflexivity.
Qed.

(** The three repeat markers: symbol, number of extra bits, least run,
    least puff value. *)
Definition markers : list (N * nat * N * N) :=
  [(16, 2%nat, 3, 16); (17, 3%nat, 3, 20); (18, 7%nat, 11, 28)].

Lemma repeat_marker_br_Ret code idx br buffer index_ lens cn cv br' buffer' :
  repeat_marker_br code idx br buffer index_ lens = Ret (cn, cv, br', buffer') ->
  exists e base p, (code, e, base, p) ∈ markers /\
    CacheBits e br = true /\ cn = N.to_nat (base + ReadBits e br) /\
    buffer' = <[index_:=p + ReadBits e br]> buffer /\ br' = DropBits e br /\
    (if code =? 16 then idx <> O /\ lens !! (idx - 1)%nat = Some cv else cv = 0).
Proof.
  unfold repeat_marker_br, markers. intros H.
  destruct (N.eqb_spec code 16) as [->|H16].
  { destruct (Nat.eqb_spec idx 0); [discriminate|]. cbn [negb test mbind outcome_mbind obind] in H.
    destruct (CacheBits 2 br) eqn:Hc; [|discriminate].
    cbn [test mbind outcome_mbind obind] in H. unfold vec_load in H.
    destruct (lens !! (idx - 1)%nat) as [v|] eqn:Hv; [|discriminate].
    cbn [mbind outcome_mbind obind] in H. injection H as <- <- <- <-.
    exists 2%nat, 3, 16. split; [left|].
    pose proof (ReadBits_lt 2 br). rewrite uint8_small by (simpl in *; lia).
    repeat split; auto. }
  destruct (N.eqb_spec code 17) as [->|H17].
  { destruct (CacheBits 3 br) eqn:Hc; [|discriminate].
    cbn [test mbind outcome_mbind obind] in H. injection H as <- <- <- <-.
    exists 3%nat, 3, 20. split; [right; left|].
    pose proof (ReadBits_lt 3 br). rewrite uint8_small by (simpl in *; lia).
    repeat split; auto. }
  destruct (N.eqb_spec code 18) as [->|H18]; [|discriminate].
  destruct (CacheBits 7 br) eqn:Hc; [|discriminate].
  cbn [test mbind outcome_mbind obind] in H. injection H as <- <- <- <-.
  exists 7%nat, 11, 28. split; [right; right; left|].
  pose proof (ReadBits_lt 7 br). rewrite uint8_small by (simpl in *; lia).
  repeat split; auto.
Qed.

Lemma markers_cases code e base p : (code, e, base, p) ∈ markers ->
  (code, e, base, p) = (16, 2%nat, 3, 16) \/ (code, e, base, p) = (17, 3%nat, 3, 20) \/
  (code, e, base, p) = (18, 7%nat, 11, 28).
Proof.
  unfold markers. intros H. repeat (apply elem_of_cons in H as [H|H]; auto).
  inversion H.
Qed.

(** What an accepting run of the reading loop does to its buffer and its
    reader. *)
Lemma code_lengths_br_facts ht max_bits num_codes fuel :
  forall idx br buffer index_ lens br' buffer' index' lens',
  code_lengths_br fuel ht max_bits num_codes idx br buffer index_ lens =
    Ret (br', buffer', index', lens') ->
  (index_ <= length buffer)%nat ->
  length buffer' = length buffer /\ (index_ <= index' <= length buffer)%nat /\
  (forall j, (j < index_)%nat -> buffer'.[j] = buffer.[j]) /\
  (length br' <= length br)%nat.
Proof.
  induction fuel as [|fuel IH]; intros idx br buffer index_ lens br' buffer' index' lens' Hrun Hi.
  - simpl in Hrun. destruct (idx <? num_codes)%nat; [discriminate|].
    injection Hrun as <- <- <- <-. repeat split; auto.
  - rewrite code_lengths_br_step in Hrun.
    destruct (idx <? num_codes)%nat.
    2:{ injection Hrun as <- <- <- <-. repeat split; auto. }
    next_step Hrun as ? eqn Hcache.
    next_step Hrun as [code nbits] eqn Hcode.
    next_step Hrun as ? eqn Hroom. apply test_Ret, Nat.ltb_lt in Hroom.
    destruct (code <? 16).
    + apply IH in Hrun as (Hl & Hidx & Hlow & Hbr); [|rewrite length_insert; lia].
      rewrite length_insert in Hl, Hidx. unfold DropBits in Hbr. rewrite length_drop in Hbr.
      repeat split; auto; try lia.
      intros j Hj. rewrite Hlow by lia. apply vec_get_insert_ne. lia.
    + next_step Hrun as ? eqn Hlt19.
      next_step Hrun as [[[cn cv] br1] buffer1] eqn Hmark.
      apply repeat_marker_br_Ret in Hmark as (e & base & p & _ & _ & _ & -> & -> & _).
      apply IH in Hrun as (Hl & Hidx & Hlow & Hbr); [|rewrite length_insert; lia].
      rewrite length_insert in Hl, Hidx. unfold DropBits in Hbr. rewrite !length_drop in Hbr.
      repeat split; auto; try lia.
      intros j Hj. rewrite Hlow by lia. apply vec_get_insert_ne. lia.
Qed.

Lemma repeat_marker_bw_Ret code e base p x idx bw lens cv :
  (code, e, base, p) ∈ markers -> x < 2 ^ N.of_nat e -> has_room e bw = true ->
  (if code =? 16 then idx <> O /\ lens !! (idx - 1)%nat = Some cv else cv = 0) ->
  let pcode := p + x in
  (pcode <=? 155) = true /\
  (if pcode <? 16 then pcode else if pcode <? 20 then 16 else if pcode <? 28 then 17 else 18)
    = code /\
  (code <? 16) = false /\
  repeat_marker_bw code pcode idx bw lens =
    Ret (N.to_nat (base + x), cv,
         {| bw_bits := bw_bits bw ++ N_to_bits e x; bw_size := bw_size bw |}).
Proof.
  intros Hm Hx Hroom Hcv. cbv zeta.
  apply markers_cases in Hm as [Hm|[Hm|Hm]]; injection Hm as -> -> -> ->;
    simpl in Hx, Hcv; unfold repeat_marker_bw; simpl N.eqb; cbv iota.
  - destruct Hcv as [Hidx Hcv].
    destruct (N.leb_spec (16 + x) 155); [|lia].
    destruct (N.ltb_spec (16 + x) 16); [lia|]. destruct (N.ltb_spec (16 + x) 20); [|lia].
    repeat split; auto.
    destruct (Nat.eqb_spec idx 0); [contradiction|]. cbn [negb test mbind outcome_mbind obind].
    rewrite write_or_room, Hroom. cbn [mbind outcome_mbind obind].
    unfold vec_load. rewrite Hcv. cbn [mbind outcome_mbind obind].
    replace (16 + x - 16) with x by lia. replace (3 + (16 + x) - 16) with (3 + x) by lia.
    reflexivity.
  - subst cv.
    destruct (N.leb_spec (20 + x) 155); [|lia].
    destruct (N.ltb_spec (20 + x) 16); [lia|]. destruct (N.ltb_spec (20 + x) 20); [lia|].
    destruct (N.ltb_spec (20 + x) 28); [|lia].
    repeat split; auto.
    rewrite write_or_room, Hroom. cbn [mbind outcome_mbind obind].
    replace (20 + x - 20) with x by lia. replace (3 + (20 + x) - 20) with (3 + x) by lia.
    reflexivity.
  - subst cv.
    destruct (N.leb_spec (28 + x) 155); [|lia].
    destruct (N.ltb_spec (28 + x) 16); [lia|]. destruct (N.ltb_spec (28 + x) 20); [lia|].
    destruct (N.ltb_spec (28 + x) 28); [lia|].
    repeat split; auto.
    rewrite write_or_room, Hroom. cbn [mbind outcome_mbind obind].
    replace (28 + x - 28) with x by lia. replace (11 + (28 + x) - 28) with (11 + x) by lia.
    reflexivity.
Qed.

Lemma bw_eta bw : bw = {| bw_bits := bw_bits bw ++ []; bw_size := bw_size bw |}.
Proof. destruct bw; simpl. rewrite app_nil_r. reflexivity. Qed.

(** The writing loop, run on the bytes that the reading loop produced,
    re-emits the bits that the reading loop consumed and rebuilds the same
    lengths. *)
Lemma code_lengths_roundtrip ht_r ht_w cl max_bits num_codes :
  meta_tables (code_hcodes_ ht_r) cl (code_rcodes_ ht_w) max_bits ->
  code_lens_ ht_r = cl -> code_lens_ ht_w = cl ->
  forall fuel idx br rbuf index_ lens br' rbuf' index' lens',
  code_lengths_br fuel ht_r max_bits num_codes idx br rbuf index_ lens =
    Ret (br', rbuf', index', lens') ->
  (index_ <= length rbuf)%nat ->
  forall wbuf bw,
  (index' <= length wbuf)%nat ->
  (forall j, (index_ <= j < index')%nat -> wbuf.[j] = rbuf'.[j]) ->
  (length (bw_bits bw) + (length br - length br') <= bw_size bw)%nat ->
  exists c, br = c ++ br' /\
    code_lengths_bw fuel ht_w num_codes idx wbuf index_ bw lens =
      Ret (index', {| bw_bits := bw_bits bw ++ c; bw_size := bw_size bw |}, lens').
Proof.
  intros (Hcl & Hrc & Hmeta) Hclr Hclw.
  induction fuel as [|fuel IH];
    intros idx br rbuf index_ lens br' rbuf' index' lens' Hrun Hi wbuf bw Hw Hagree Hroom.
  - simpl in *. destruct (idx <? num_codes)%nat; [discriminate|].
    injection Hrun as <- <- <- <-. exists []. split; [reflexivity|].
    rewrite <- bw_eta. reflexivity.
  - rewrite code_lengths_br_step in Hrun. rewrite code_lengths_bw_step. cbv zeta.
    destruct (idx <? num_codes)%nat.
    2:{ injection Hrun as <- <- <- <-. exists []. split; [reflexivity|].
        rewrite <- bw_eta. reflexivity. }
    next_step Hrun as ? eqn Hcache. apply test_Ret in Hcache.
    next_step Hrun as [code nbits] eqn Hcode. apply set_error_Ret in Hcode.
    next_step Hrun as ? eqn Hfits. apply test_Ret, Nat.ltb_lt in Hfits.
    apply CodeAlphabet_Ret in Hcode as (hc & Hhc & Hv & Hsym & nb & Hnb & Hnbits).
    rewrite Hclr in Hnb.
    assert (Hj : (N.to_nat (ReadBits max_bits br) < 2 ^ max_bits)%nat).
    { pose proof (ReadBits_lt max_bits br) as Hlt.
      assert (H : (N.to_nat (ReadBits max_bits br) < N.to_nat (2 ^ N.of_nat max_bits))%nat)
        by lia.
      rewrite N2Nat.inj_pow, Nat2N.id in H. exact H. }
    destruct (Hmeta _ _ Hj Hhc Hv) as (Hs19 & Hlen & Hlow). cbv zeta in Hs19, Hlen, Hlow.
    rewrite <- Hsym in Hs19, Hlen, Hlow. rewrite N2Nat.id in Hlow.
    rewrite (vec_get_lookup _ _ _ Hnb), <- Hnbits in Hlen, Hlow.
    assert (Hcache' : (max_bits <= length br)%nat) by (apply Nat.leb_le; exact Hcache).
    assert (Hbits : N_to_bits nbits (code_rcodes_ ht_w).[N.to_nat code] = take nbits br).
    { rewrite <- Hlow. unfold low_bits. rewrite N_to_bits_mod. unfold ReadBits.
      apply N_to_bits_take; lia. }
    assert (Hhuff : CodeHuffman ht_w code =
                    Ret ((code_rcodes_ ht_w).[N.to_nat code], nbits)).
    { rewrite <- (N2Nat.id code) at 1. rewrite CodeHuffman_Ret by (rewrite ?Hclw; lia).
      rewrite Hclw, (vec_get_lookup _ _ _ Hnb), Hnbits. reflexivity. }
    assert (Hdrop : length (DropBits nbits br) = (length br - nbits)%nat)
      by apply length_drop.
    destruct (N.ltb_spec code 16) as [Hlit|Hrep].
    + pose proof (code_lengths_br_facts _ _ _ _ _ _ _ _ _ _ _ _ _ Hrun) as Hfacts.
      rewrite length_insert in Hfacts. destruct Hfacts as (Hl' & Hidx' & Hlow' & Hbr'); [lia|].
      assert (Hbyte : wbuf.[index_] = code).
      { rewrite Hagree by lia. rewrite Hlow' by lia.
        rewrite vec_get_insert_eq by assumption. apply uint8_small.
        change (2 ^ 8) with 256. lia. }
      destruct (Nat.ltb_spec index_ (length wbuf)); [|lia].
      cbn [test mbind outcome_mbind obind]. rewrite Hbyte.
      destruct (N.leb_spec code 155); [|lia]. cbn [test mbind outcome_mbind obind].
      destruct (N.ltb_spec code 16); [|lia].
      rewrite Hhuff. cbn [set_error mbind outcome_mbind obind].
      rewrite write_or_room.
      assert (Hr : has_room nbits bw = true) by (apply Nat.leb_le; lia).
      rewrite Hr. cbn [mbind outcome_mbind obind].
      destruct (N.ltb_spec code 16); [|lia].
      set (bw1 := {| bw_bits := bw_bits bw ++ N_to_bits nbits (code_rcodes_ ht_w).[N.to_nat code];
                     bw_size := bw_size bw |}).
      assert (Hp1 : (S index_ <= length (<[index_:=uint8 code]> rbuf))%nat)
        by (rewrite length_insert; lia).
      assert (Hp2 : forall j, (S index_ <= j < index')%nat -> wbuf.[j] = rbuf'.[j])
        by (intros j Hj'; apply Hagree; lia).
      assert (Hp3 : (length (bw_bits bw1) + (length (DropBits nbits br) - length br')
                     <= bw_size bw1)%nat).
      { simpl. rewrite length_app, length_N_to_bits. lia. }
      destruct (IH _ _ _ _ _ _ _ _ _ Hrun Hp1 wbuf bw1 Hw Hp2 Hp3) as (c & Hc & Hrunw).
      simpl in Hrunw. rewrite Hrunw. exists (take nbits br ++ c). split.
      * rewrite <- app_assoc, <- Hc. symmetry. apply take_drop.
      * rewrite Hbits, <- app_assoc. reflexivity.
    + next_step Hrun as ? eqn Hlt19.
      next_step Hrun as [[[cn cv] br1] rbuf1] eqn Hmark.
      apply repeat_marker_br_Ret in Hmark
        as (e & base & p & Hm & Hce & -> & -> & -> & Hcv).
      pose proof (code_lengths_br_facts _ _ _ _ _ _ _ _ _ _ _ _ _ Hrun) as Hfacts.
      rewrite length_insert in Hfacts. destruct Hfacts as (Hl' & Hidx' & Hlow' & Hbr'); [lia|].
      unfold DropBits in Hbr'. rewrite !length_drop in Hbr'.
      assert (Hce' : (e <= length br - nbits)%nat)
        by (apply Nat.leb_le in Hce; unfold DropBits in Hce; rewrite length_drop in Hce; lia).
      set (x := ReadBits e (DropBits nbits br)) in *.
      assert (Hbyte : wbuf.[index_] = p + x).
      { rewrite Hagree by lia. rewrite Hlow' by lia.
        apply vec_get_insert_eq. assumption. }
      assert (Hr : has_room nbits bw = true) by (apply Nat.leb_le; lia).
      set (bw1 := {| bw_bits := bw_bits bw ++ N_to_bits nbits (code_rcodes_ ht_w).[N.to_nat code];
                     bw_size := bw_size bw |}).
      assert (Hr1 : has_room e bw1 = true).
      { apply Nat.leb_le. simpl. rewrite length_app, length_N_to_bits. lia. }
      destruct (repeat_marker_bw_Ret code e base p x idx bw1 lens cv Hm
                  (ReadBits_lt _ _) Hr1 Hcv) as (H155 & Hclass & H16 & Hmarkw).
      destruct (Nat.ltb_spec index_ (length wbuf)); [|lia].
      cbn [test mbind outcome_mbind obind]. rewrite Hbyte, H155.
      cbn [test mbind outcome_mbind obind]. rewrite Hclass, Hhuff.
      cbn [set_error mbind outcome_mbind obind].
      rewrite write_or_room, Hr. cbn [mbind outcome_mbind obind]. rewrite H16.
      fold bw1. rewrite Hmarkw. cbn [mbind outcome_mbind obind].
      destruct (write_read e (DropBits nbits br) bw1 kInsufficientOutput Hce Hr1)
        as [_ Hsplit].
      assert (Hx : N_to_bits e x = take e (DropBits nbits br)).
      { unfold x, ReadBits. apply N_to_bits_take; [lia|]. rewrite Hdrop. lia. }
      set (bw2 := {| bw_bits := bw_bits bw1 ++ N_to_bits e x; bw_size := bw_size bw1 |}).
      assert (Hp1 : (S index_ <= length (<[index_:=(p + x)%N]> rbuf))%nat)
        by (rewrite length_insert; lia).
      assert (Hp2 : forall j, (S index_ <= j < index')%nat -> wbuf.[j] = rbuf'.[j])
        by (intros j Hj'; apply Hagree; lia).
      assert (Hp3 : (length (bw_bits bw2) + (length (DropBits e (DropBits nbits br)) - length br')
                     <= bw_size bw2)%nat).
      { simpl. rewrite !length_app, !length_N_to_bits. unfold DropBits.
        rewrite !length_drop. lia. }
      destruct (IH _ _ _ _ _ _ _ _ _ Hrun Hp1 wbuf bw2 Hw Hp2 Hp3) as (c & Hc & Hrunw).
      simpl in Hrunw. simpl. rewrite Hrunw.
      exists (take nbits br ++ take e (DropBits nbits br) ++ c). split.
      * rewrite <- !app_assoc, <- Hc, <- Hsplit. symmetry. apply take_drop.
      * rewrite Hbits, Hx, <- !app_assoc. reflexivity.
Qed.

(** *** The meta code lengths *)

(** The 3-bit values at the head of a bit stream, and the assignments to
    [code_lens_[kPermutations[idx]]] that both directions make of them. *)
Fixpoint nibbles (n : nat) (br : BitReader) : list N :=
  match n with
  | O => []
  | S n => ReadBits 3 br :: nibbles n (DropBits 3 br)
  end.

Fixpoint stores (idxs : list nat) (vs : list N) (code_lens : list N) : list N :=
  match idxs, vs with
  | idx :: idxs, v :: vs => stores idxs vs (<[perm idx:=v]> code_lens)
  | _, _ => code_lens
  end.

Lemma vec_store_Ret {E} (v : list N) i x v' :
  vec_store (E:=E) v i x = Ret v' -> (i < length v)%nat /\ v' = <[i:=x]> v.
Proof.
  unfold vec_store. destruct (Nat.ltb_spec i (length v)); [|discriminate].
  intros [= <-]. auto.
Qed.

Lemma vec_store_lt {E} (v : list N) i x :
  (i < length v)%nat -> vec_store (E:=E) v i x = Ret (<[i:=x]> v).
Proof. intros H. unfold vec_store. destruct (Nat.ltb_spec i (length v)); [reflexivity|lia]. Qed.

Lemma length_stores idxs : forall vs cl, length (stores idxs vs cl) = length cl.
Proof.
  induction idxs as [|idx idxs IH]; intros [|v vs] cl; simpl; auto.
  rewrite IH. apply length_insert.
Qed.

Lemma nibble_high v : v < 8 -> uint8 (N.shiftl v 4) = v * 16.
Proof. intros H. rewrite N.shiftl_mul_pow2. apply uint8_small. simpl. lia. Qed.

Lemma nibble_low h v : h < 16 -> v < 8 -> uint8 (N.lor (h * 16) v) = h * 16 + v.
Proof.
  intros Hh Hv. change 16 with (2 ^ 4). rewrite <- N.shiftl_mul_pow2.
  rewrite lor_shiftl_low by (simpl; lia). rewrite N.shiftl_mul_pow2.
  apply uint8_small. simpl. lia.
Qed.

(** What an accepting run of the reading nibble loop does. *)
Lemma read_code_lens_facts idxs :
  forall br rbuf index_ checked cl br' rbuf' index' checked' cl',
  read_code_lens idxs br rbuf index_ checked cl = Ret (br', rbuf', index', checked', cl') ->
  (index_ <= length rbuf)%nat ->
  (length idxs + (if checked : bool then 1 else 0) <= 2 * (length rbuf - index_))%nat ->
  (checked = true -> exists h, h < 16 /\ rbuf.[index_] = h * 16) ->
  (3 * length idxs <= length br)%nat /\ br' = drop (3 * length idxs) br /\
  length rbuf' = length rbuf /\
  cl' = stores idxs (nibbles (length idxs) br) cl /\ length cl' = length cl /\
  Forall (fun idx => perm idx < length cl)%nat idxs /\
  (2 * (if checked' : bool then S index' else index') =
   2 * index_ + length idxs + (if checked : bool then 1 else 0)
   + (if checked' : bool then 1 else 0))%nat /\
  (forall j, (j < index_)%nat -> rbuf'.[j] = rbuf.[j]) /\
  (checked = true -> rbuf'.[index_] / 16 = rbuf.[index_] / 16).
Proof.
  induction idxs as [|idx idxs IH];
    intros br rbuf index_ checked cl br' rbuf' index' checked' cl' Hrun Hi Hroom Hhigh.
  - simpl in Hrun. injection Hrun as <- <- <- <- <-. simpl.
    split; [lia|]. split; [reflexivity|]. split; [reflexivity|]. split; [reflexivity|].
    split; [reflexivity|]. split; [constructor|]. split; [destruct checked; lia|].
    split; auto.
  - cbn [read_code_lens] in Hrun. simpl length in *.
    next_step Hrun as ? eqn Hcache. apply test_Ret, Nat.leb_le in Hcache.
    next_step Hrun as cl1 eqn Hstore. apply vec_store_Ret in Hstore as [Hperm ->].
    pose proof (ReadBits_lt 3 br) as Hv. change (2 ^ N.of_nat 3) with 8 in Hv.
    rewrite (uint8_small (ReadBits 3 br)) in * by (simpl; lia).
    destruct checked.
    + destruct (Hhigh eq_refl) as (h & Hh & Hbyte).
      rewrite Hbyte, nibble_low in Hrun by assumption.
      apply IH in Hrun as (Hbits & Hbr & Hl & Hcl & Hlcl & Hperms & Hidx & Hlow & _);
        [|rewrite length_insert; simpl; lia ..|discriminate].
      rewrite length_insert in *. unfold DropBits in *. rewrite length_drop in Hbits.
      split; [lia|]. split; [rewrite Hbr, drop_drop; f_equal; lia|].
      split; [assumption|]. split; [exact Hcl|]. split; [assumption|].
      split; [constructor; assumption|]. split; [simpl in *; lia|]. split.
      * intros j Hj. rewrite Hlow by lia. apply vec_get_insert_ne. lia.
      * intros _. rewrite Hlow by lia. rewrite vec_get_insert_eq by lia.
        rewrite Hbyte. rewrite N.div_add_l, N.div_mul by discriminate.
        rewrite N.div_small by lia. lia.
    + rewrite nibble_high in Hrun by assumption.
      apply IH in Hrun as (Hbits & Hbr & Hl & Hcl & Hlcl & Hperms & Hidx & Hlow & Hkeep);
        [|rewrite length_insert; simpl; lia ..|].
      2:{ intros _. exists (ReadBits 3 br). split; [lia|].
          apply vec_get_insert_eq. lia. }
      rewrite length_insert in *. unfold DropBits in *. rewrite length_drop in Hbits.
      split; [lia|]. split; [rewrite Hbr, drop_drop; f_equal; lia|].
      split; [assumption|]. split; [exact Hcl|]. split; [assumption|].
      split; [constructor; assumption|]. split; [simpl in *; lia|]. split.
      * intros j Hj. rewrite Hlow by lia. apply vec_get_insert_ne. lia.
      * discriminate.
Qed.

Lemma land_15 x : N.land x 0x0F = x mod 16.
Proof. change 0x0F with (N.ones 4). apply N.land_ones. Qed.

Lemma shiftr_4 x : N.shiftr x 4 = x / 16.
Proof. apply N.shiftr_div_pow2. Qed.

(** The writing nibble loop, run on the bytes that the reading loop
    produced, re-emits the bits and makes the same assignments. *)
Lemma write_code_lens_roundtrip idxs :
  forall br rbuf index_ checked cl br' rbuf' index' checked' cl',
  read_code_lens idxs br rbuf index_ checked cl = Ret (br', rbuf', index', checked', cl') ->
  (index_ <= length rbuf)%nat ->
  (length idxs + (if checked : bool then 1 else 0) <= 2 * (length rbuf - index_))%nat ->
  (checked = true -> exists h, h < 16 /\ rbuf.[index_] = h * 16) ->
  forall wbuf bw cl_w,
  ((if checked' : bool then S index' else index') <= length wbuf)%nat ->
  (forall j, (index_ <= j < (if checked' : bool then S index' else index'))%nat ->
     wbuf.[j] = rbuf'.[j]) ->
  length cl_w = length cl ->
  (length (bw_bits bw) + 3 * length idxs <= bw_size bw)%nat ->
  write_code_lens idxs wbuf index_ checked cl_w bw =
    Ret (index', checked', stores idxs (nibbles (length idxs) br) cl_w,
         {| bw_bits := bw_bits bw ++ take (3 * length idxs) br; bw_size := bw_size bw |}).
Proof.
  induction idxs as [|idx idxs IH];
    intros br rbuf index_ checked cl br' rbuf' index' checked' cl' Hrun Hi Hroom Hhigh
           wbuf bw cl_w Hw Hagree Hlcl Hbw.
  - simpl in Hrun. injection Hrun as <- <- <- <- <-. simpl. rewrite <- bw_eta. reflexivity.
  - cbn [read_code_lens] in Hrun. simpl length in *.
    next_step Hrun as ? eqn Hcache. apply test_Ret in Hcache.
    next_step Hrun as cl1 eqn Hstore. apply vec_store_Ret in Hstore as [Hperm ->].
    pose proof (ReadBits_lt 3 br) as Hv. change (2 ^ N.of_nat 3) with 8 in Hv.
    rewrite (uint8_small (ReadBits 3 br)) in * by (simpl; lia).
    assert (Hr : has_room 3 bw = true) by (apply Nat.leb_le; lia).
    destruct (write_read 3 br bw kInsufficientOutput Hcache Hr) as [Hwrite _].
    set (bw1 := {| bw_bits := bw_bits bw ++ take 3 br; bw_size := bw_size bw |}) in *.
    assert (Htake : forall n, take 3 br ++ take (3 * n) (DropBits 3 br) = take (3 * S n) br).
    { intros n. unfold DropBits. rewrite take_take_drop. f_equal. lia. }
    cbn [write_code_lens]. destruct checked.
    + destruct (Hhigh eq_refl) as (h & Hh & Hbyte).
      rewrite Hbyte, nibble_low in Hrun by assumption.
      pose proof (read_code_lens_facts _ _ _ _ _ _ _ _ _ _ _ Hrun) as Hfacts.
      rewrite length_insert in Hfacts.
      destruct Hfacts as (_ & _ & _ & _ & _ & _ & Hidx & Hlow & _);
        [lia|simpl; lia|discriminate|].
      assert (Hlen : N.land wbuf.[index_] 15 = ReadBits 3 br).
      { rewrite Hagree by (simpl in Hidx; lia). rewrite Hlow by lia.
        rewrite vec_get_insert_eq by lia. rewrite land_15.
        rewrite N.add_comm, N.Div0.mod_add. apply N.mod_small. lia. }
      rewrite Hlen, vec_store_lt by lia. cbn [mbind outcome_mbind obind].
      rewrite Hwrite. cbn [mbind outcome_mbind obind].
      assert (Hp1 : (S index_ <= length (<[index_:=(h * 16 + ReadBits 3 br)%N]> rbuf))%nat)
        by (rewrite length_insert; lia).
      assert (Hp2 : (length idxs + (if negb true then 1 else 0) <=
                     2 * (length (<[index_:=(h * 16 + ReadBits 3 br)%N]> rbuf) - S index_))%nat)
        by (rewrite length_insert; simpl; lia).
      assert (Hp3 : negb true = true -> exists h0, h0 < 16 /\
                (<[index_:=h * 16 + ReadBits 3 br]> rbuf).[S index_] = h0 * 16)
        by discriminate.
      assert (Hp4 : forall j, (S index_ <= j < (if checked' then S index' else index'))%nat ->
                wbuf.[j] = rbuf'.[j]) by (intros j Hj; apply Hagree; lia).
      assert (Hp5 : length (<[perm idx:=ReadBits 3 br]> cl_w) =
                    length (<[perm idx:=ReadBits 3 br]> cl))
        by (rewrite !length_insert; assumption).
      assert (Hp6 : (length (bw_bits bw1) + 3 * length idxs <= bw_size bw1)%nat).
      { simpl. rewrite length_app, length_take. lia. }
      rewrite (IH _ _ _ _ _ _ _ _ _ _ Hrun Hp1 Hp2 Hp3 wbuf bw1 _ Hw Hp4 Hp5 Hp6).
      simpl bw_bits. simpl bw_size. rewrite <- app_assoc, Htake. reflexivity.
    + rewrite nibble_high in Hrun by assumption.
      assert (Hhigh' : true = true -> exists h, h < 16 /\
                (<[index_:=ReadBits 3 br * 16]> rbuf).[index_] = h * 16).
      { intros _. exists (ReadBits 3 br). split; [lia|]. apply vec_get_insert_eq. lia. }
      pose proof (read_code_lens_facts _ _ _ _ _ _ _ _ _ _ _ Hrun) as Hfacts.
      rewrite length_insert in Hfacts.
      destruct Hfacts as (_ & _ & _ & _ & _ & _ & Hidx & Hlow & Hkeep);
        [lia|simpl; lia|exact Hhigh'|].
      assert (Hlen : N.shiftr wbuf.[index_] 4 = ReadBits 3 br).
      { rewrite Hagree by (simpl in Hidx; lia). rewrite shiftr_4, Hkeep by reflexivity.
        rewrite vec_get_insert_eq by lia. apply N.div_mul. discriminate. }
      rewrite Hlen, vec_store_lt by lia. cbn [mbind outcome_mbind obind].
      rewrite Hwrite. cbn [mbind outcome_mbind obind].
      assert (Hp1 : (index_ <= length (<[index_:=(ReadBits 3 br * 16)%N]> rbuf))%nat)
        by (rewrite length_insert; lia).
      assert (Hp2 : (length idxs + (if negb false then 1 else 0) <=
                     2 * (length (<[index_:=(ReadBits 3 br * 16)%N]> rbuf) - index_))%nat)
        by (rewrite length_insert; simpl; lia).
      assert (Hp4 : forall j, (index_ <= j < (if checked' then S index' else index'))%nat ->
                wbuf.[j] = rbuf'.[j]) by (intros j Hj; apply Hagree; lia).
      assert (Hp5 : length (<[perm idx:=ReadBits 3 br]> cl_w) =
                    length (<[perm idx:=ReadBits 3 br]> cl))
        by (rewrite !length_insert; assumption).
      assert (Hp6 : (length (bw_bits bw1) + 3 * length idxs <= bw_size bw1)%nat).
      { simpl. rewrite length_app, length_take. lia. }
      rewrite (IH _ _ _ _ _ _ _ _ _ _ Hrun Hp1 Hp2 Hhigh' wbuf bw1 _ Hw Hp4 Hp5 Hp6).
      simpl bw_bits. simpl bw_size. rewrite <- app_assoc, Htake. reflexivity.
Qed.

Lemma clear_code_lens_Ret {E} idxs : forall cl cl',
  clear_code_lens (E:=E) idxs cl = Ret cl' ->
  cl' = stores idxs (replicate (length idxs) 0) cl /\
  Forall (fun idx => perm idx < length cl)%nat idxs.
Proof.
  induction idxs as [|idx idxs IH]; intros cl cl' Hrun; simpl in *.
  - injection Hrun as <-. split; [reflexivity|constructor].
  - destruct (vec_store cl (perm idx) 0) as [cl1| |] eqn:Hstore; try discriminate.
    apply vec_store_Ret in Hstore as [Hperm ->]. cbn [mbind outcome_mbind obind] in Hrun.
    apply IH in Hrun as [-> Hall]. rewrite length_insert in Hall.
    split; [reflexivity|constructor; assumption].
Qed.

Lemma clear_code_lens_stores {E} idxs : forall cl,
  Forall (fun idx => perm idx < length cl)%nat idxs ->
  clear_code_lens (E:=E) idxs cl = Ret (stores idxs (replicate (length idxs) 0) cl).
Proof.
  induction idxs as [|idx idxs IH]; intros cl Hall; simpl.
  - reflexivity.
  - apply Forall_cons in Hall as [Hperm Hall]. rewrite vec_store_lt by assumption.
    cbn [mbind outcome_mbind obind]. apply IH. rewrite length_insert. assumption.
Qed.

Lemma stores_app idxs1 : forall vs1 idxs2 vs2 cl, length idxs1 = length vs1 ->
  stores idxs2 vs2 (stores idxs1 vs1 cl) = stores (idxs1 ++ idxs2) (vs1 ++ vs2) cl.
Proof.
  induction idxs1 as [|idx idxs1 IH]; intros [|v vs1] idxs2 vs2 cl Hlen;
    simpl in *; try discriminate; auto.
Qed.

Lemma length_nibbles n : forall br, length (nibbles n br) = n.
Proof. induction n; intros; simpl; auto. Qed.

(** Once all 19 slots are assigned, nothing of the old contents is left. *)
Lemma stores_full ws cl cl' :
  length ws = 19%nat -> length cl = 19%nat -> length cl' = 19%nat ->
  stores (seq 0 19) ws cl = stores (seq 0 19) ws cl'.
Proof.
  intros Hws Hcl Hcl'.
  do 20 (destruct ws as [|? ws]; try discriminate Hws).
  do 20 (destruct cl as [|? cl]; try discriminate Hcl).
  do 20 (destruct cl' as [|? cl']; try discriminate Hcl').
  reflexivity.
Qed.

(** *** The whole header *)

Lemma vec_get_take (l : list N) n j : (j < n)%nat -> (take n l).[j] = l.[j].
Proof. intros H. unfold vec_get. rewrite lookup_take_lt by assumption. reflexivity. Qed.

Lemma vec_get_drop (l : list N) n j : (drop n l).[j] = l.[(n + j)%nat].
Proof. unfold vec_get. rewrite lookup_drop. reflexivity. Qed.

Lemma vec_get_take_app_l (l m : list N) n j : (j < n)%nat -> (n <= length l)%nat ->
  (take n l ++ m).[j] = l.[j].
Proof.
  intros Hj Hn. rewrite vec_get_app_l by (rewrite length_take; lia).
  apply vec_get_take. assumption.
Qed.

Lemma vec_get_take_app_r (l m : list N) n j : (n <= length l)%nat ->
  (take n l ++ m).[(n + j)%nat] = m.[j].
Proof.
  intros Hn. rewrite <- (vec_get_app_r (take n l) m j). f_equal.
  rewrite length_take. lia.
Qed.

Lemma length_code_lens_br ht :
  (initialized_ ht = true -> length (code_lens_ ht) = 19%nat) ->
  length (code_lens_ (initialize_br ht)) = 19%nat.
Proof.
  intros H. unfold initialize_br. destruct (initialized_ ht); [auto|].
  simpl. apply length_resize.
Qed.

Lemma length_code_lens_bw ht :
  (initialized_ ht = true ->
   length (code_lens_ ht) = 19%nat /\ length (code_rcodes_ ht) = 19%nat) ->
  length (code_lens_ (initialize_bw ht)) = 19%nat /\
  length (code_rcodes_ (initialize_bw ht)) = 19%nat.
Proof.
  intros H. unfold initialize_bw. destruct (initialized_ ht); [auto|].
  simpl. rewrite !length_resize. auto.
Qed.

Lemma BuildHuffmanCodes_Init lens hcodes hcodes' mb cips :
  BuildHuffmanCodes lens hcodes = Ret (hcodes', mb, cips) ->
  exists cips0, InitHuffmanCodes lens = Ret (mb, cips0).
Proof.
  unfold BuildHuffmanCodes. intros H.
  destruct (InitHuffmanCodes lens) as [[mb0 cips0]| |]; try discriminate.
  cbn [mbind outcome_mbind obind] in H. cbv zeta in H.
  destruct (_ <=? _)%nat; [|discriminate].
  destruct (expand_codes _ _ _ _); try discriminate.
  cbn [mbind outcome_mbind obind] in H. injection H as _ <- _. eauto.
Qed.

Lemma BuildHuffmanReverseCodes_Init lens rcodes mb cips0 :
  InitHuffmanCodes lens = Ret (mb, cips0) ->
  exists rcodes' cips, BuildHuffmanReverseCodes lens rcodes = Ret (rcodes', mb, cips).
Proof. unfold BuildHuffmanReverseCodes. intros ->. simpl. eauto. Qed.

Ltac simpl_ht :=
  cbn [code_lens_ code_hcodes_ code_rcodes_ code_max_bits_
       lit_len_lens_ lit_len_hcodes_ lit_len_rcodes_ lit_len_max_bits_
       distance_lens_ distance_hcodes_ distance_rcodes_ distance_max_bits_
       codeindexpairs_ initialized_
       set_code_lens_ set_code_hcodes_ set_code_rcodes_ set_code_max_bits_
       set_lit_len_lens_ set_lit_len_hcodes_ set_lit_len_rcodes_ set_lit_len_max_bits_
       set_distance_lens_ set_distance_hcodes_ set_distance_rcodes_ set_distance_max_bits_
       set_codeindexpairs_ set_initialized_] in *.

(** C1. The writing direction inverts the reading direction. If
    [BuildDynamicHuffmanTable] reads a dynamic header from the bit stream
    and leaves [length] puff bytes, then run on those bytes (with a writer
    that has room for the bits consumed, and table objects whose meta
    vectors have their 19 entries once initialized) it succeeds, writes
    exactly the header bits that were consumed, and rebuilds the same
    meta, literal/length and distance code-length arrays. *)
Theorem BuildDynamicHuffmanTable_roundtrip (ht : HuffmanTable) (br : BitReader)
    (buffer : list N) (ht' : HuffmanTable) (br' : BitReader) (buffer' : list N)
    (length_ : nat) (htw : HuffmanTable) (bw : BitWriter) :
  BuildDynamicHuffmanTable_br ht br buffer = Ret (ht', br', buffer', length_) ->
  (initialized_ ht = true -> length (code_lens_ ht) = 19%nat) ->
  (initialized_ htw = true ->
   length (code_lens_ htw) = 19%nat /\ length (code_rcodes_ htw) = 19%nat) ->
  (length (bw_bits bw) + (length br - length br') <= bw_size bw)%nat ->
  exists header htw',
    br = header ++ br' /\
    BuildDynamicHuffmanTable_bw htw (take length_ buffer') bw =
      Ret (htw', {| bw_bits := bw_bits bw ++ header; bw_size := bw_size bw |}) /\
    code_lens_ htw' = code_lens_ ht' /\
    lit_len_lens_ htw' = lit_len_lens_ ht' /\
    distance_lens_ htw' = distance_lens_ ht'.
Proof.
  intros Hrun Hsr Hsw Hcap.
  apply length_code_lens_br in Hsr. apply length_code_lens_bw in Hsw as [Hsw Hswr].
  unfold BuildDynamicHuffmanTable_br in Hrun. cbv zeta in Hrun.
  set (htr0 := initialize_br ht) in *.
  next_step Hrun as ? eqn Hlen. apply test_Ret, Nat.leb_le in Hlen.
  next_step Hrun as ? eqn Hc14. apply test_Ret, Nat.leb_le in Hc14.
  set (br1 := DropBits 5 br) in *. set (br2 := DropBits 5 br1) in *.
  set (br3 := DropBits 4 br2) in *.
  set (h1 := ReadBits 5 br) in *. set (h2 := ReadBits 5 br1) in *.
  set (h3 := ReadBits 4 br2) in *.
  set (buffer3 := <[2%nat:=uint8 h3]> (<[1%nat:=uint8 h2]> (<[0%nat:=uint8 h1]> buffer))) in *.
  next_step Hrun as ? eqn Hcheck.
  next_step Hrun as ? eqn Hroom. apply test_Ret, Nat.leb_le, half_le in Hroom.
  next_step Hrun as [[[[br4 buffer4] index4] checked4] cl4] eqn Hnib.
  next_step Hrun as cl5 eqn Hclear.
  simpl_ht.
  next_step Hrun as [[hcodes mb] cips] eqn Hmeta. apply set_error_Ret in Hmeta.
  simpl_ht.
  set (index5 := if checked4 then S index4 else index4) in *.
  set (htr1 := set_codeindexpairs_ _ cips) in *.
  next_step Hrun as [[[br5 sub1] bytes1] lens1] eqn Hlit.
  next_step Hrun as [[hcodes1 mb1] cips1] eqn Hlitc. apply set_error_Ret in Hlitc.
  set (htr2 := set_codeindexpairs_ _ cips1) in *.
  set (buffer6 := take index5 buffer4 ++ sub1) in *.
  next_step Hrun as [[[br6 sub2] bytes2] lens2] eqn Hdist.
  next_step Hrun as [[hcodes2 mb2] cips2] eqn Hdistc. apply set_error_Ret in Hdistc.
  injection Hrun as <- <- <- <-. simpl_ht.
  (* What the reading run did. *)
  assert (Hl3 : length buffer3 = length buffer) by (unfold buffer3; rewrite !length_insert; auto).
  pose proof (ReadBits_lt 5 br) as Hh1. fold h1 in Hh1.
  pose proof (ReadBits_lt 5 br1) as Hh2. fold h2 in Hh2.
  pose proof (ReadBits_lt 4 br2) as Hh3. fold h3 in Hh3.
  simpl in Hh1, Hh2, Hh3.
  apply test_Ret in Hcheck.
  assert (Hnc : (N.to_nat h3 + 4 <= 19)%nat).
  { unfold CheckHuffmanArrayLengths in Hcheck. apply andb_true_iff in Hcheck as [_ H].
    apply Nat.leb_le in H. exact H. }
  destruct (read_code_lens_facts _ _ _ _ _ _ _ _ _ _ _ Hnib)
    as (Hbits4 & Hbr4 & Hl4 & Hcl4 & Hlcl4 & Hperm4 & Hidx4 & Hlow4 & _);
    [lia|rewrite length_seq; simpl; lia|discriminate|].
  rewrite length_seq in Hbits4, Hbr4, Hcl4, Hidx4. fold index5 in Hidx4.
  assert (Hidx5 : (2 * index5 <= 2 * 3 + (N.to_nat h3 + 4) + 1)%nat /\
                  (2 * 3 + (N.to_nat h3 + 4) <= 2 * index5)%nat)
    by (destruct checked4; lia).
  clear Hidx4.
  apply clear_code_lens_Ret in Hclear as [Hcl5 Hperm5]. rewrite length_seq in Hcl5.
  assert (Hi5 : (index5 <= length buffer4)%nat) by lia.
  unfold BuildHuffmanCodeLengths_br in Hlit, Hdist.
  destruct (code_lengths_br_facts _ _ _ _ _ _ _ _ _ _ _ _ _ Hlit)
    as (Hls1 & Hb1 & _ & Hbr5); [lia|].
  rewrite length_drop in Hls1, Hb1.
  assert (Hl6 : length buffer6 = length buffer4).
  { unfold buffer6. rewrite length_app, length_take, Hls1. lia. }
  destruct (code_lengths_br_facts _ _ _ _ _ _ _ _ _ _ _ _ _ Hdist)
    as (Hls2 & Hb2 & _ & Hbr6); [lia|].
  rewrite length_drop, Hl6 in Hls2, Hb2.
  set (buffer7 := take (index5 + bytes1) buffer6 ++ sub2) in *.
  set (n := (index5 + bytes1 + bytes2)%nat) in *.
  assert (Hl7 : length buffer7 = length buffer4).
  { unfold buffer7. rewrite length_app, length_take, Hls2, Hl6. lia. }
  set (wbuf := take n buffer7).
  assert (Hlw : length wbuf = n) by (unfold wbuf; rewrite length_take; lia).
  assert (Hw6 : forall j, (j < index5 + bytes1)%nat -> wbuf.[j] = buffer6.[j]).
  { intros j Hj. unfold wbuf. rewrite vec_get_take by lia.
    unfold buffer7. apply vec_get_take_app_l; lia. }
  assert (Hw4 : forall j, (j < index5)%nat -> wbuf.[j] = buffer4.[j]).
  { intros j Hj. rewrite Hw6 by lia. unfold buffer6. apply vec_get_take_app_l; lia. }
  assert (Hw3 : forall j, (j < 3)%nat -> wbuf.[j] = buffer3.[j]).
  { intros j Hj. rewrite Hw4 by lia. apply Hlow4. assumption. }
  assert (Hw0 : wbuf.[0%nat] = h1).
  { rewrite Hw3 by lia. unfold buffer3. rewrite !vec_get_insert_ne by lia.
    rewrite vec_get_insert_eq by lia. apply uint8_small. simpl; lia. }
  assert (Hw1 : wbuf.[1%nat] = h2).
  { rewrite Hw3 by lia. unfold buffer3. rewrite vec_get_insert_ne by lia.
    rewrite vec_get_insert_eq by (rewrite length_insert; lia). apply uint8_small. simpl; lia. }
  assert (Hw2 : wbuf.[2%nat] = h3).
  { rewrite Hw3 by lia. unfold buffer3.
    rewrite vec_get_insert_eq by (rewrite !length_insert; lia). apply uint8_small. simpl; lia. }
  (* The bits consumed, piece by piece. *)
  assert (Hlbr1 : length br1 = (length br - 5)%nat) by apply length_drop.
  assert (Hlbr2 : length br2 = (length br1 - 5)%nat) by apply length_drop.
  assert (Hlbr3 : length br3 = (length br2 - 4)%nat) by apply length_drop.
  assert (Hlbr4 : length br4 = (length br3 - 3 * (N.to_nat h3 + 4))%nat)
    by (rewrite Hbr4; apply length_drop).
  set (nc := (N.to_nat h3 + 4)%nat) in *.
  set (bw1 := {| bw_bits := bw_bits bw ++ take 5 br; bw_size := bw_size bw |}).
  set (bw2 := {| bw_bits := bw_bits bw1 ++ take 5 br1; bw_size := bw_size bw1 |}).
  set (bw3 := {| bw_bits := bw_bits bw2 ++ take 4 br2; bw_size := bw_size bw2 |}).
  set (bw4 := {| bw_bits := bw_bits bw3 ++ take (3 * nc) br3; bw_size := bw_size bw3 |}).
  assert (Hlb1 : length (bw_bits bw1) = (length (bw_bits bw) + 5)%nat)
    by (unfold bw1; cbn [bw_bits]; rewrite length_app, length_take; lia).
  assert (Hlb2 : length (bw_bits bw2) = (length (bw_bits bw1) + 5)%nat)
    by (unfold bw2 at 1; cbn [bw_bits]; rewrite length_app, length_take; lia).
  assert (Hlb3 : length (bw_bits bw3) = (length (bw_bits bw2) + 4)%nat)
    by (unfold bw3 at 1; cbn [bw_bits]; rewrite length_app, length_take; lia).
  assert (Hlb4 : length (bw_bits bw4) = (length (bw_bits bw3) + 3 * nc)%nat)
    by (unfold bw4 at 1; cbn [bw_bits]; rewrite length_app, length_take; lia).
  assert (Hsz : bw_size bw4 = bw_size bw) by reflexivity.
  destruct (write_read 5 br bw kInsufficientOutput) as [Ew1 Hs1];
    [apply Nat.leb_le; lia|apply Nat.leb_le; lia|]. fold h1 br1 bw1 in Ew1, Hs1.
  destruct (write_read 5 br1 bw1 kInsufficientOutput) as [Ew2 Hs2];
    [apply Nat.leb_le; lia|apply Nat.leb_le; simpl bw_size; lia|]. fold h2 br2 bw2 in Ew2, Hs2.
  destruct (write_read 4 br2 bw2 kInsufficientOutput) as [Ew3 Hs3];
    [apply Nat.leb_le; lia|apply Nat.leb_le; simpl bw_size; lia|]. fold h3 br3 bw3 in Ew3, Hs3.
  (* The meta code lengths. *)
  set (htw0 := initialize_bw htw) in *.
  assert (Enib : write_code_lens (seq 0 nc) wbuf 3 false (code_lens_ htw0) bw3 =
    Ret (index4, checked4, stores (seq 0 nc) (nibbles nc br3) (code_lens_ htw0), bw4)).
  { pose proof (write_code_lens_roundtrip _ _ _ _ _ _ _ _ _ _ _ Hnib) as Hsim.
    rewrite length_seq in Hsim. fold index5 in Hsim.
    apply Hsim; [lia|lia|discriminate|lia| |lia|].
    - intros j Hj. apply Hw4. lia.
    - change (bw_size bw3) with (bw_size bw). lia. }
  set (cl4w := stores (seq 0 nc) (nibbles nc br3) (code_lens_ htw0)) in *.
  assert (Hlcl4w : length cl4w = 19%nat) by (unfold cl4w; rewrite length_stores; assumption).
  assert (Eclear : clear_code_lens (E:=Error) (seq nc (19 - nc)) cl4w =
    Ret (stores (seq nc (19 - nc)) (replicate (19 - nc) 0) cl4w)).
  { pose proof (clear_code_lens_stores (E:=Error) (seq nc (19 - nc)) cl4w) as Hst.
    rewrite length_seq in Hst. apply Hst.
    rewrite Hlcl4w. rewrite Hlcl4, Hsr in Hperm5. exact Hperm5. }
  assert (Hcl5w : stores (seq nc (19 - nc)) (replicate (19 - nc) 0) cl4w = cl5).
  { rewrite Hcl5, Hcl4. unfold cl4w.
    rewrite !stores_app by (rewrite length_seq, length_nibbles; reflexivity).
    replace (seq 0 nc ++ seq nc (19 - nc)) with (seq 0 19).
    2:{ replace 19%nat with (nc + (19 - nc))%nat at 1 by lia. apply seq_app. }
    apply stores_full; auto.
    rewrite length_app, length_nibbles, length_replicate. lia. }
  rewrite Hcl5w in Eclear.
  assert (Hlcl5 : length cl5 = 19%nat).
  { rewrite <- Hcl5w. rewrite length_stores. assumption. }
  destruct (BuildHuffmanCodes_Init _ _ _ _ _ Hmeta) as (cips0 & Hinit).
  destruct (BuildHuffmanReverseCodes_Init cl5 (code_rcodes_ htw0) mb cips0 Hinit)
    as (rcodes & cipsw & Erev).
  destruct (meta_tables_built _ _ _ _ _ _ _ _ _ Hlcl5 Hswr Hmeta Erev) as [_ Htables].
  set (htw1 := set_codeindexpairs_
                 (set_code_max_bits_ (set_code_rcodes_ (set_code_lens_ htw0 cl5) rcodes) mb)
                 cipsw).
  (* The literal/length sequence. *)
  destruct (code_lengths_roundtrip htr1 htw1 cl5 mb (N.to_nat h1 + 257) Htables
              eq_refl eq_refl _ _ _ _ _ _ _ _ _ _ Hlit (Nat.le_0_l _)
              (drop index5 wbuf) bw4) as (c1 & Hc1 & Elit).
  { rewrite length_drop. lia. }
  { intros j Hj. rewrite vec_get_drop, Hw6 by lia. unfold buffer6.
    apply vec_get_take_app_r. assumption. }
  { rewrite Hlb4, Hsz. lia. }
  set (bw5 := {| bw_bits := bw_bits bw4 ++ c1; bw_size := bw_size bw4 |}) in *.
  assert (Hlbr5 : length br4 = (length c1 + length br5)%nat)
    by (rewrite Hc1 at 1; apply length_app).
  destruct (BuildHuffmanCodes_Init _ _ _ _ _ Hlitc) as (cips1' & Hinit1).
  destruct (BuildHuffmanReverseCodes_Init lens1 (lit_len_rcodes_ htw0) mb1 cips1' Hinit1)
    as (rcodes1 & cipsw1 & Erev1).
  set (htw2 := set_codeindexpairs_
                 (set_lit_len_max_bits_
                    (set_lit_len_rcodes_ (set_lit_len_lens_ htw1 lens1) rcodes1) mb1)
                 cipsw1).
  (* The distance sequence. *)
  destruct (code_lengths_roundtrip htr2 htw2 cl5 mb (N.to_nat h2 + 1) Htables
              eq_refl eq_refl _ _ _ _ _ _ _ _ _ _ Hdist (Nat.le_0_l _)
              (drop (index5 + bytes1) wbuf) bw5) as (c2 & Hc2 & Edist).
  { rewrite length_drop. lia. }
  { intros j Hj. rewrite vec_get_drop. unfold wbuf. rewrite vec_get_take by lia.
    unfold buffer7. apply vec_get_take_app_r. lia. }
  { assert (Hlb5 : length (bw_bits bw5) = (length (bw_bits bw4) + length c1)%nat)
      by (unfold bw5; cbn [bw_bits]; apply length_app).
    change (bw_size bw5) with (bw_size bw). lia. }
  destruct (BuildHuffmanCodes_Init _ _ _ _ _ Hdistc) as (cips2' & Hinit2).
  destruct (BuildHuffmanReverseCodes_Init lens2 (distance_rcodes_ htw0) mb2 cips2' Hinit2)
    as (rcodes2 & cipsw2 & Erev2).
  (* The writing run. *)
  exists (take 5 br ++ take 5 br1 ++ take 4 br2 ++ take (3 * nc) br3 ++ c1 ++ c2).
  eexists. split.
  { rewrite <- !app_assoc, <- Hc2, <- Hc1, Hbr4.
    rewrite (take_drop (3 * nc) br3), <- Hs3, <- Hs2. exact Hs1. }
  split.
  { unfold BuildDynamicHuffmanTable_bw. cbv zeta. fold htw0.
    rewrite Hlw, Hw0, Hw1, Hw2.
    destruct (Nat.leb_spec 3 n); [|lia]. cbn [test mbind outcome_mbind obind].
    rewrite Ew1. cbn [mbind outcome_mbind obind].
    rewrite Ew2. cbn [mbind outcome_mbind obind].
    rewrite Ew3. cbn [mbind outcome_mbind obind].
    fold nc. rewrite Hcheck. cbn [test mbind outcome_mbind obind].
    destruct (Nat.leb_spec ((nc + 1) / 2) (n - 3)) as [_|Hbad].
    2:{ apply Nat.lt_nge in Hbad. exfalso. apply Hbad, half_le. lia. }
    cbn [test mbind outcome_mbind obind].
    rewrite Enib. cbn [mbind outcome_mbind obind]. fold index5.
    rewrite Eclear. cbn [mbind outcome_mbind obind]. simpl_ht.
    rewrite Erev. cbn [set_error mbind outcome_mbind obind]. fold htw1.
    unfold BuildHuffmanCodeLengths_bw. rewrite Elit. cbn [mbind outcome_mbind obind].
    simpl_ht. rewrite Erev1. cbn [set_error mbind outcome_mbind obind]. fold htw2.
    rewrite Edist. cbn [mbind outcome_mbind obind].
    simpl_ht. rewrite Erev2. cbn [set_error mbind outcome_mbind obind].
    fold n. rewrite Nat.eqb_refl. cbn [test mbind outcome_mbind obind].
    f_equal. f_equal. simpl. rewrite <- !app_assoc. reflexivity. }
  simpl_ht. auto.
Qed.

End Transcoder.

(** * A sorting routine, and the statements at concrete inputs *)

Lemma insert_sorted_perm {A} (comp : A -> A -> bool) x l : insert_sorted comp x l ≡ₚ x :: l.
Proof.
  induction l as [|y l IH]; simpl; [reflexivity|].
  destruct (comp y x); [|reflexivity].
  rewrite IH. apply Permutation_swap.
Qed.

Lemma insertion_sort_perm {A} (comp : A -> A -> bool) l : insertion_sort comp l ≡ₚ l.
Proof.
  induction l as [|x l IH]; simpl; [reflexivity|].
  rewrite insert_sorted_perm, IH. reflexivity.
Qed.

Lemma insert_sorted_sorted {A} (comp : A -> A -> bool) x l :
  strict_weak_order comp ->
  StronglySorted (fun a b => comp b a = false) l ->
  StronglySorted (fun a b => comp b a = false) (insert_sorted comp x l).
Proof.
  intros (Hirr & Htrans & Hinc). induction 1 as [|y l Hs IH Hy]; simpl.
  - repeat constructor.
  - destruct (comp y x) eqn:Hyx.
    + constructor; [assumption|].
      rewrite insert_sorted_perm. constructor; [|assumption].
      destruct (comp x y) eqn:Hxy; [|reflexivity].
      rewrite <- (Hirr y). symmetry. eapply Htrans; eassumption.
    + constructor; [constructor; assumption|]. constructor; [assumption|].
      rewrite Forall_forall in Hy |- *. intros z Hz. eapply Hinc; [apply Hy; exact Hz|assumption].
Qed.

Lemma insertion_sort_sorted {A} (comp : A -> A -> bool) l :
  strict_weak_order comp ->
  StronglySorted (fun a b => comp b a = false) (insertion_sort comp l).
Proof.
  intros Hswo. induction l as [|x l IH]; simpl; [constructor|].
  apply insert_sorted_sorted; assumption.
Qed.

Lemma num_of_len_replicate_eq n x : num_of_len x (replicate n x) = n.
Proof.
  induction n as [|n IH]; simpl; auto.
  rewrite num_of_len_cons, IH. destruct (decide (x = x)); [reflexivity|contradiction].
Qed.

Ltac below_pow2 k :=
  transitivity (2 ^ k)%nat; [simpl; lia | apply Nat.pow_le_mono_r; lia].

Ltac lens_ok_tac := unfold lens_ok; repeat (constructor; [lia|]); constructor.

(** A complete code: five codes of length 3, one of length 2, two of length 4. *)
Definition example_lens : list N := [3; 3; 3; 3; 3; 2; 4; 4].

Definition example_cips : list CodeIndexPair :=
  [ {| code := 2; index := 0 |}; {| code := 6; index := 1 |};
    {| code := 1; index := 2 |}; {| code := 5; index := 3 |};
    {| code := 3; index := 4 |}; {| code := 0; index := 5 |};
    {| code := 7; index := 6 |}; {| code := 15; index := 7 |} ].

(** A table whose meta code has two symbols of length 1: the zero length
    (code 0) and the copy of the previous length, symbol 16 (code 1). *)
Definition copy_table : HuffmanTable :=
  let ht := set_code_lens_ new_table ([1] ++ replicate 15 0 ++ [1; 0; 0]) in
  let ht := set_code_hcodes_ ht ([0x8000; 0x8010] ++ replicate 126 0) in
  let ht := set_code_rcodes_ ht (replicate 16 0 ++ [1; 0; 0]) in
  set_code_max_bits_ ht 1.

(** A dynamic header: HLIT = 0 (257 literal/length codes), HDIST = 0 (one
    distance code), HCLEN = 14 (18 meta lengths). The meta code gives length
    1 to symbol 18 and length 2 to symbols 0 and 1. The literal/length
    lengths are 65 zeros, a 1, 190 zeros and a 1; the distance length is 0. *)
Definition example_header : list bool :=
  N_to_bits 5 0 ++ N_to_bits 5 0 ++ N_to_bits 4 14 ++
  flat_map (N_to_bits 3) [0; 0; 1; 2; 0; 0; 0; 0; 0; 0; 0; 0; 0; 0; 0; 0; 0; 2] ++
  N_to_bits 1 0 ++ N_to_bits 7 54 ++ N_to_bits 2 3 ++
  N_to_bits 1 0 ++ N_to_bits 7 127 ++ N_to_bits 1 0 ++ N_to_bits 7 41 ++
  N_to_bits 2 3 ++ N_to_bits 2 1.

(** The puff bytes of [example_header]. *)
Definition example_puff : list N :=
  [0; 0; 14; 0; 18; 0; 0; 0; 0; 0; 0; 2; 82; 1; 155; 69; 1; 0].

Lemma example_read :
  match BuildDynamicHuffmanTable_br insertion_sort new_table
          (example_header ++ [true; true; false]) (replicate 20 0) with
  | Ret (_, br', buffer', length_) =>
      br' = [true; true; false] /\ buffer' = example_puff ++ [0; 0] /\ length_ = 18%nat
  | _ => False
  end.
Proof. vm_compute. repeat split. Qed.

Lemma example_header_length : length example_header = 98%nat.
Proof. vm_compute. reflexivity. Qed.

Lemma BuildDynamicHuffmanTable_roundtrip_witness :
  exists ht' htw',
    BuildDynamicHuffmanTable_br insertion_sort new_table
      (example_header ++ [true; true; false]) (replicate 20 0)
    = Ret (ht', [true; true; false], example_puff ++ [0; 0], 18%nat) /\
    BuildDynamicHuffmanTable_bw insertion_sort new_table example_puff
      {| bw_bits := []; bw_size := 98 |}
    = Ret (htw', {| bw_bits := example_header; bw_size := 98 |}) /\
    code_lens_ htw' = code_lens_ ht' /\
    lit_len_lens_ htw' = lit_len_lens_ ht' /\
    distance_lens_ htw' = distance_lens_ ht'.
Proof.
  pose proof example_read as Hread.
  destruct (BuildDynamicHuffmanTable_br insertion_sort new_table
              (example_header ++ [true; true; false]) (replicate 20 0))
    as [[[[ht' br'] buffer'] n]| |] eqn:E; [|contradiction ..].
  destruct Hread as (-> & -> & ->).
  destruct (BuildDynamicHuffmanTable_roundtrip insertion_sort
              (@insertion_sort_perm CodeIndexPair) (@insertion_sort_sorted CodeIndexPair)
              new_table _ _ _ _ _ _ new_table {| bw_bits := []; bw_size := 98 |} E)
    as (header & htw' & Hbr & Hw & Hc & Hl & Hd).
  - discriminate.
  - discriminate.
  - rewrite length_app, example_header_length. simpl. lia.
  - apply app_inv_tail in Hbr. subst header.
    exists ht', htw'. split; [reflexivity|]. split; [exact Hw|].
    split; [exact Hc|]. split; [exact Hl|exact Hd].
Defined.

Lemma InitHuffmanCodes_kraft_witness :
  (kraft_sum example_lens <= 1)%Q /\
  returns_true (InitHuffmanCodes example_lens) = true.
Proof.
  assert (Hk : (kraft_sum example_lens <= 1)%Q) by (vm_compute; discriminate).
  split; [exact Hk|].
  apply (InitHuffmanCodes_kraft example_lens); [lens_ok_tac | exact Hk].
Defined.

(** The lengths [1; 1; 2] have Kraft sum 5/4, and are accepted: no single
    length has more codes than fit. *)
Lemma InitHuffmanCodes_kraft_counterexample :
  (1 < kraft_sum [1; 1; 2]%N)%Q /\
  InitHuffmanCodes [1; 1; 2] =
    Ret (2%nat, [ {| code := 0; index := 0 |}; {| code := 1; index := 1 |};
                  {| code := 0; index := 2 |} ]) /\
  returns_true (InitHuffmanCodes [1; 1; 2]) = true.
Proof. split; [|split]; vm_compute; reflexivity. Qed.

Lemma example_build :
  match BuildHuffmanCodes insertion_sort example_lens (replicate 16 0) with
  | Ret (_, max_bits, _) => max_bits = 4%nat
  | _ => False
  end.
Proof. vm_compute. reflexivity. Qed.

Lemma BuildHuffmanCodes_decodes_witness :
  exists hcodes' cips,
    BuildHuffmanCodes insertion_sort example_lens (replicate 16 0) = Ret (hcodes', 4%nat, cips) /\
    hcodes'.[4] = N.lor 5 0x8000 /\
    forall ht, code_hcodes_ ht = hcodes' -> code_lens_ ht = example_lens ->
      CodeAlphabet ht 4 = Ret (5, 2%nat).
Proof.
  pose proof example_build as Hbuild.
  destruct (BuildHuffmanCodes insertion_sort example_lens (replicate 16 0))
    as [[[hcodes' mb] cips]| |] eqn:E; [|contradiction ..].
  subst mb. exists hcodes', cips. split; [reflexivity|].
  destruct (BuildHuffmanCodes_decodes insertion_sort (@insertion_sort_perm CodeIndexPair)
              example_lens (replicate 16 0) hcodes' 4%nat cips 5%nat 4 E)
    as (H1 & _ & _ & H4).
  - vm_compute; discriminate.
  - below_pow2 3%nat.
  - unfold example_lens; cbn [length]; lia.
  - vm_compute; discriminate.
  - vm_compute; reflexivity.
  - vm_compute; reflexivity.
  - split; [exact H1|exact H4].
Defined.

(** With the lengths [1; 1; 2] the table is built, and the two-bit slot 0,
    the reversed code of symbol 2, holds symbol 0. *)
Lemma BuildHuffmanCodes_decodes_counterexample :
  BuildHuffmanCodes insertion_sort [1; 1; 2] (replicate 4 0) =
    Ret ([0x8000; 0x8001; 0x8000; 0x8001], 2%nat,
         [ {| code := 0; index := 2 |}; {| code := 0; index := 0 |};
           {| code := 1; index := 1 |} ]) /\
  low_bits 2 0 = bit_reversed 2 (canonical_code [1; 1; 2] 2) /\
  [0x8000; 0x8001; 0x8000; 0x8001].[O] = N.lor 0 0x8000 /\
  N.lor 0 0x8000 <> N.lor 2 0x8000.
Proof. split; [|split; [|split]]; vm_compute; congruence. Qed.

Lemma InitHuffmanCodes_canonical_witness :
  InitHuffmanCodes example_lens = Ret (4%nat, example_cips) /\
  example_cips = map (code_of example_lens) (coded_symbols example_lens).
Proof.
  assert (E : InitHuffmanCodes example_lens = Ret (4%nat, example_cips))
    by (vm_compute; reflexivity).
  split; [exact E|].
  destruct (InitHuffmanCodes_canonical example_lens 4%nat example_cips E)
    as (next_code_ & _ & _ & _ & Hexact).
  apply Hexact; [vm_compute; discriminate | below_pow2 3%nat].
Defined.


(** Beyond the arrays a caller can pass, the 16-bit counters wrap: with
    65536 codes of length 1 the count of length 1 is 0 again. *)
Lemma InitHuffmanCodes_count_wraps :
  2 ^ 1 < N.of_nat (num_of_len 1 (replicate (N.to_nat 65536) 1)) /\
  count16 (replicate (N.to_nat 65536) 1) 1 = 0 /\
  returns_true (InitHuffmanCodes (replicate (N.to_nat 65536) 1)) = true.
Proof.
  assert (Hc : forall L, (1 <= L <= 15)%nat ->
            count16 (replicate (N.to_nat 65536) 1) L = 0).
  { intros L HL. unfold count16. destruct (decide (L = 1%nat)) as [->|Hne].
    - change (N.of_nat 1) with 1. rewrite num_of_len_replicate_eq, N2Nat.id. reflexivity.
    - rewrite num_of_len_replicate_ne by lia. reflexivity. }
  split; [|split].
  - rewrite num_of_len_replicate_eq, N2Nat.id. reflexivity.
  - apply Hc; lia.
  - destruct (InitHuffmanCodes_Ret (replicate (N.to_nat 65536) 1)) as (mb & cips & ->).
    + apply Forall_replicate. lia.
    + intros L HL. rewrite Hc by assumption. lia.
    + reflexivity.
Qed.

(** The marker 16 in first place, on a one-bit code: rejected by both
    directions; and what each reports when the input or the output runs
    out first. *)
Lemma code_lengths_copy_previous_first_witness :
  (BuildHuffmanCodeLengths_br copy_table [true; false; false] [0] 1 1 = Fail kInvalidInput /\
   BuildHuffmanCodeLengths_br copy_table [true] [0] 2 1 = Fail kInsufficientInput /\
   BuildHuffmanCodeLengths_br copy_table [true; false; false] [] 1 1
   = Fail kInsufficientOutput) /\
  (BuildHuffmanCodeLengths_bw copy_table [16] {| bw_bits := []; bw_size := 8 |} 1
   = Fail kInvalidInput /\
   BuildHuffmanCodeLengths_bw copy_table [16] {| bw_bits := []; bw_size := 0 |} 1
   = Fail kInsufficientOutput).
Proof.
  destruct (code_lengths_copy_previous_first copy_table 1) as [Hr Hw]; [lia|].
  split; [split; [|split]|split].
  - apply (Hr [true; false; false] [0] 1%nat 1%nat); reflexivity.
  - apply (Hr [true] [0] 2%nat 1%nat); reflexivity.
  - apply (Hr [true; false; false] [] 1%nat 1%nat); reflexivity.
  - apply (Hw 16 [] {| bw_bits := []; bw_size := 8 |} 1 1%nat); [lia|reflexivity].
  - apply (Hw 16 [] {| bw_bits := []; bw_size := 0 |} 1 1%nat); [lia|reflexivity].
Defined.

Lemma example_write :
  returns_true (BuildDynamicHuffmanTable_bw insertion_sort new_table example_puff
                  {| bw_bits := []; bw_size := 98 |}) = true.
Proof. vm_compute. reflexivity. Qed.

Lemma BuildDynamicHuffmanTable_bw_trailing_witness :
  returns_true (BuildDynamicHuffmanTable_bw insertion_sort new_table example_puff
                  {| bw_bits := []; bw_size := 98 |}) = true /\
  BuildDynamicHuffmanTable_bw insertion_sort new_table (example_puff ++ [7])
    {| bw_bits := []; bw_size := 98 |} = Fail kInvalidInput.
Proof.
  split; [exact example_write|].
  pose proof example_write as Hwrite.
  destruct (BuildDynamicHuffmanTable_bw insertion_sort new_table example_puff
              {| bw_bits := []; bw_size := 98 |}) as [r| |] eqn:E;
    [|discriminate ..].
  apply (BuildDynamicHuffmanTable_bw_trailing insertion_sort new_table
           example_puff [7] {| bw_bits := []; bw_size := 98 |} r E).
  discriminate.
Defined.

(** * Further properties of the table builders *)

Section Coverage.

Variable std_sort :
  (CodeIndexPair -> CodeIndexPair -> bool) -> list CodeIndexPair -> list CodeIndexPair.
Hypothesis std_sort_perm : forall comp l, std_sort comp l ≡ₚ l.
Hypothesis std_sort_sorted : forall comp l,
  strict_weak_order comp -> StronglySorted (fun a b => comp b a = false) (std_sort comp l).

(** ** InitHuffmanCodes *)

Lemma vec_get_elem (lens : list N) s : lens.[s] <> 0 -> lens.[s] ∈ lens.
Proof.
  unfold vec_get. destruct (lens !! s) as [x|] eqn:E; simpl; [|contradiction].
  intros _. apply list_elem_of_lookup. eauto.
Qed.

Lemma num_of_len_elem L lens : L ∈ lens -> (0 < num_of_len L lens)%nat.
Proof.
  intros Hin. unfold num_of_len.
  assert (H : L ∈ filter (fun len => len = L) lens) by (apply list_elem_of_filter; auto).
  destruct (filter (fun len => len = L) lens); [inversion H|simpl; lia].
Qed.

Lemma InitHuffmanCodes_find_max lens mb cips :
  InitHuffmanCodes lens = Ret (mb, cips) ->
  exists lc, Init.count_lens lens (replicate 16 0) = Ret lc /\
    (forall L, (L <= 15)%nat -> lc.[L] = uint16 (N.of_nat (num_of_len (N.of_nat L) lens))) /\
    mb = Init.find_max_bits lc kMaxHuffmanBits.
Proof.
  intros Hrun. destruct (InitHuffmanCodes_codes lens mb cips Hrun) as (Hok & _).
  destruct (count_lens_init lens Hok) as (lc & Hc & _ & Hcnt).
  exists lc. split; [assumption|]. split; [assumption|].
  rewrite (InitHuffmanCodes_unfold _ _ Hc) in Hrun. cbv zeta in Hrun.
  destruct (Init.oversubscribed _ _); [discriminate|]. congruence.
Qed.

(** X2. On acceptance [max_bits] is the largest length of the array (0 when
    every length is 0), for arrays of fewer than [2^16] symbols, whose
    counters cannot wrap. *)
Theorem InitHuffmanCodes_max_bits (lens : list N) (max_bits : nat)
    (cips : list CodeIndexPair) :
  InitHuffmanCodes lens = Ret (max_bits, cips) -> (length lens < 2 ^ 16)%nat ->
  (max_bits <= 15)%nat /\
  (forall s, (N.to_nat lens.[s] <= max_bits)%nat) /\
  (max_bits <> O -> exists s, (s < length lens)%nat /\ N.to_nat lens.[s] = max_bits).
Proof.
  intros Hrun Hlen.
  destruct (InitHuffmanCodes_codes lens max_bits cips Hrun) as (Hok & _).
  destruct (InitHuffmanCodes_find_max lens max_bits cips Hrun) as (lc & _ & Hcnt & ->).
  destruct (find_max_bits_spec lc kMaxHuffmanBits) as (Hle & Hzero & Hmb).
  set (mb := Init.find_max_bits lc kMaxHuffmanBits) in *. unfold kMaxHuffmanBits in *.
  assert (Hsmall : forall L, (L <= 15)%nat -> lc.[L] = N.of_nat (num_of_len (N.of_nat L) lens)).
  { intros L HL. rewrite Hcnt by assumption. apply uint16_small.
    pose proof (num_of_len_le (N.of_nat L) lens). pose proof pow2_16_nat. lia. }
  split; [assumption|]. split.
  - intros s. destruct (le_lt_dec (N.to_nat lens.[s]) mb) as [|Hgt]; [assumption|exfalso].
    pose proof (lens_ok_get lens s Hok) as H15.
    assert (Hin : lens.[s] ∈ lens) by (apply vec_get_elem; lia).
    apply num_of_len_elem in Hin.
    specialize (Hzero (N.to_nat lens.[s])). rewrite Hsmall in Hzero by lia.
    rewrite N2Nat.id in Hzero. lia.
  - intros Hnz. destruct Hmb as [|Hmb]; [contradiction|].
    rewrite Hsmall in Hmb by assumption.
    assert (Hpos : (0 < num_of_len (N.of_nat mb) lens)%nat) by lia.
    apply num_of_len_pos_elem, list_elem_of_lookup in Hpos as [s Hs].
    exists s. split; [eapply lookup_lt_Some; eassumption|].
    rewrite (vec_get_lookup _ _ _ Hs). lia.
Qed.

(** X3. With a Kraft sum of at most 1 the codes [InitHuffmanCodes] assigns
    are prefix-free, in the bit order of the stream: the low bits of a code
    are never the whole code of another pair. *)
Theorem InitHuffmanCodes_prefix_free (lens : list N) (max_bits : nat)
    (cips : list CodeIndexPair) (a b : CodeIndexPair) :
  InitHuffmanCodes lens = Ret (max_bits, cips) ->
  (kraft_sum lens <= 1)%Q -> (length lens <= 2 ^ 16)%nat ->
  a ∈ cips -> b ∈ cips ->
  (cip_len lens a <= cip_len lens b)%nat ->
  low_bits (cip_len lens a) (code b) = code a ->
  a = b.
Proof.
  intros Hrun Hkq Hlen Ha Hb Hle Hpre.
  destruct (InitHuffmanCodes_codes lens max_bits cips Hrun) as (Hok & _).
  pose proof (InitHuffmanCodes_exact lens max_bits cips Hrun Hkq Hlen) as Hcips.
  assert (Hk : kraft15 lens <= 2 ^ 15) by (apply kraft_le_1; assumption).
  rewrite Hcips in Ha, Hb.
  apply list_elem_of_fmap in Ha as (s & -> & Hs). apply list_elem_of_fmap in Hb as (s' & -> & Hs').
  assert (Hlen_of : forall t, cip_len lens (code_of lens t) = N.to_nat lens.[t]).
  { intros t. unfold cip_len. simpl. rewrite Nat2N.id. reflexivity. }
  rewrite !Hlen_of in *. simpl in Hpre.
  f_equal. apply (carried_symbol_unique lens s s'
                    (bit_reversed (N.to_nat lens.[s']) (canonical_code lens s'))); auto.
  unfold low_bits. apply N.mod_small, bit_reversed_lt.
Qed.

(** ** BuildHuffmanCodes *)

Lemma InitHuffmanCodes_len_le lens mb cips0 :
  InitHuffmanCodes lens = Ret (mb, cips0) -> (length lens < 2 ^ 16)%nat ->
  forall s, (N.to_nat lens.[s] <= mb)%nat.
Proof.
  intros Hrun Hlen.
  destruct (InitHuffmanCodes_codes lens mb cips0 Hrun) as (Hok & _).
  destruct (InitHuffmanCodes_find_max lens mb cips0 Hrun) as (lc & _ & Hcnt & ->).
  destruct (find_max_bits_spec lc kMaxHuffmanBits) as (Hle & Hzero & _).
  set (mb := Init.find_max_bits lc kMaxHuffmanBits) in *. unfold kMaxHuffmanBits in *.
  intros s. destruct (le_lt_dec (N.to_nat lens.[s]) mb) as [|Hgt]; [assumption|exfalso].
  pose proof (lens_ok_get lens s Hok) as H15.
  assert (Hin : lens.[s] ∈ lens) by (apply vec_get_elem; lia).
  apply num_of_len_elem in Hin.
  specialize (Hzero (N.to_nat lens.[s])). rewrite Hcnt, N2Nat.id in Hzero by lia.
  rewrite uint16_small in Hzero.
  - lia.
  - pose proof (num_of_len_le lens.[s] lens). pose proof pow2_16_nat. lia.
Qed.

(** What a run of [BuildHuffmanCodes] is made of. *)
Lemma BuildHuffmanCodes_unfold lens hcodes mb cips0 :
  InitHuffmanCodes lens = Ret (mb, cips0) ->
  BuildHuffmanCodes std_sort lens hcodes =
  let cips :=
    std_sort (fun a b => lens.[N.to_nat (index b)] <? lens.[N.to_nat (index a)]) cips0 in
  if (2 ^ mb <=? length hcodes)%nat then
    hcodes' ← expand_codes cips lens mb (replicate (2 ^ mb) 0 ++ drop (2 ^ mb) hcodes);
    Ret (hcodes', mb, cips)
  else Undefined.
Proof. intros Hinit. unfold BuildHuffmanCodes. rewrite Hinit. reflexivity. Qed.

Lemma cips_code_lt lens mb cips0 :
  (length lens <= 2 ^ 16)%nat -> InitHuffmanCodes lens = Ret (mb, cips0) ->
  forall cip, cip ∈ cips0 -> code cip < 2 ^ N.of_nat (cip_len lens cip).
Proof.
  intros Hlen Hinit cip Hin.
  destruct (InitHuffmanCodes_codes lens mb cips0 Hinit) as (_ & nc & _ & _ & Hcips).
  rewrite Hcips in Hin. apply list_elem_of_fmap in Hin as (s & -> & Hs).
  apply code_of16_facts; assumption.
Qed.

(** The pairs index [lens] inside its bounds, and their codes and lengths
    fit the table of [2^max_bits] entries. *)
Lemma cips_in_table lens mb cips0 :
  (length lens < 2 ^ 16)%nat -> InitHuffmanCodes lens = Ret (mb, cips0) ->
  forall cip, cip ∈ cips0 ->
    (N.to_nat (index cip) < length lens)%nat /\ (cip_len lens cip <= mb)%nat /\
    code cip < 2 ^ N.of_nat (cip_len lens cip).
Proof.
  intros Hlen Hinit cip Hin.
  assert (Hlen' : (length lens <= 2 ^ 16)%nat) by lia.
  split; [|split].
  - destruct (InitHuffmanCodes_codes lens mb cips0 Hinit) as (_ & nc & _ & _ & Hcips).
    rewrite Hcips in Hin. apply list_elem_of_fmap in Hin as (s & -> & Hs).
    destruct (code_of16_facts nc lens s Hlen' Hs) as (Hi & _).
    rewrite Hi, Nat2N.id. apply coded_symbols_elem in Hs as [Hs _]. exact Hs.
  - apply (InitHuffmanCodes_len_le lens mb cips0); assumption.
  - apply (cips_code_lt lens mb cips0); assumption.
Qed.

(** The slots of the table after a run: those below [2^max_bits] are 0 or
    the entry of a pair whose code they carry, the others are untouched. *)
Lemma BuildHuffmanCodes_slot lens hcodes T' mb cips :
  (length lens <= 2 ^ 16)%nat ->
  BuildHuffmanCodes std_sort lens hcodes = Ret (T', mb, cips) ->
  forall j, (if (j <? 2 ^ mb)%nat then T'.[j] = 0 else T'.[j] = hcodes.[j]) \/
            exists cip, cip ∈ cips /\ T'.[j] = entry cip /\ (j < 2 ^ mb)%nat /\ carries lens cip j.
Proof.
  intros Hlen Hrun j.
  destruct (BuildHuffmanCodes_Init std_sort lens hcodes T' mb cips Hrun) as (cips0 & Hinit).
  rewrite (BuildHuffmanCodes_unfold _ _ _ _ Hinit) in Hrun. cbv zeta in Hrun.
  set (sorted := std_sort _ cips0) in Hrun.
  destruct (Nat.leb_spec (2 ^ mb) (length hcodes)) as [Hsize|]; [|discriminate].
  set (T := replicate (2 ^ mb) 0 ++ drop (2 ^ mb) hcodes) in Hrun.
  destruct (expand_codes sorted lens mb T) as [T0| |] eqn:Hexp; try discriminate.
  injection Hrun as <- <-.
  assert (Hperm : sorted ≡ₚ cips0) by apply std_sort_perm.
  destruct (expand_codes_spec lens mb sorted T T0) as (_ & _ & Hch & _); auto.
  { intros cip Hin. apply (cips_code_lt lens mb cips0); auto. rewrite <- Hperm. assumption. }
  destruct (Hch j) as [He|Hex]; [left|right; assumption].
  rewrite He. unfold T, vec_get. destruct (Nat.ltb_spec j (2 ^ mb)).
  - rewrite lookup_app_l by (rewrite length_replicate; lia).
    rewrite lookup_replicate_2 by assumption. reflexivity.
  - rewrite lookup_app_r by (rewrite length_replicate; lia).
    rewrite length_replicate, lookup_drop. do 2 f_equal. lia.
Qed.

Lemma BuildHuffmanCodes_frame lens hcodes T' mb cips :
  (length lens <= 2 ^ 16)%nat ->
  BuildHuffmanCodes std_sort lens hcodes = Ret (T', mb, cips) ->
  forall j, (2 ^ mb <= j)%nat -> T'.[j] = hcodes.[j].
Proof.
  intros Hlen Hrun j Hj.
  destruct (BuildHuffmanCodes_slot lens hcodes T' mb cips Hlen Hrun j)
    as [H|(cip & _ & _ & Hlt & _)]; [|lia].
  destruct (Nat.ltb_spec j (2 ^ mb)); [lia|assumption].
Qed.

Lemma BuildHuffmanCodes_Ret lens hcodes mb cips0 :
  InitHuffmanCodes lens = Ret (mb, cips0) -> (length lens < 2 ^ 16)%nat ->
  (2 ^ mb <= length hcodes)%nat ->
  exists T' cips, BuildHuffmanCodes std_sort lens hcodes = Ret (T', mb, cips) /\
    cips ≡ₚ cips0 /\ length T' = length hcodes.
Proof.
  intros Hinit Hlen Hsize.
  pose proof (BuildHuffmanCodes_unfold lens hcodes mb cips0 Hinit) as Hun.
  cbv zeta in Hun.
  destruct (Nat.leb_spec (2 ^ mb) (length hcodes)) as [_|]; [|lia].
  set (sorted := std_sort _ cips0) in Hun.
  destruct (expand_codes_Ret lens mb sorted
              (replicate (2 ^ mb) 0 ++ drop (2 ^ mb) hcodes)) as [T' HT'].
  { rewrite length_app, length_replicate, length_drop. lia. }
  { intros cip Hin. apply (cips_in_table lens mb cips0); auto.
    unfold sorted in Hin. rewrite std_sort_perm in Hin. exact Hin. }
  rewrite HT' in Hun. cbn [mbind outcome_mbind obind] in Hun.
  exists T', sorted. split; [assumption|]. split; [apply std_sort_perm|].
  destruct (BuildHuffmanCodes_table std_sort std_sort_perm lens hcodes T' mb sorted)
    as (_ & _ & _ & _ & HlT & _); [lia|assumption|assumption].
Qed.

(** X4. [BuildHuffmanCodes] accepts whatever [InitHuffmanCodes] accepts. It
    clears and fills the first [2^max_bits] entries of the table, which the
    vector must have (the [memset] is not guarded), keeps the size of the
    vector and leaves every entry from [2^max_bits] on as it was. *)
Theorem BuildHuffmanCodes_accepts (lens hcodes : list N) (max_bits : nat)
    (cips0 : list CodeIndexPair) :
  InitHuffmanCodes lens = Ret (max_bits, cips0) -> (length lens < 2 ^ 16)%nat ->
  if (2 ^ max_bits <=? length hcodes)%nat
  then exists hcodes' cips,
         BuildHuffmanCodes std_sort lens hcodes = Ret (hcodes', max_bits, cips) /\
         cips ≡ₚ cips0 /\ length hcodes' = length hcodes /\
         forall j, (2 ^ max_bits <= j)%nat -> hcodes'.[j] = hcodes.[j]
  else BuildHuffmanCodes std_sort lens hcodes = Undefined.
Proof.
  intros Hinit Hlen.
  destruct (Nat.leb_spec (2 ^ max_bits) (length hcodes)) as [Hsize|Hsize].
  - destruct (BuildHuffmanCodes_Ret lens hcodes max_bits cips0 Hinit Hlen Hsize)
      as (T' & cips & Hrun & Hperm & HlT).
    exists T', cips. split; [assumption|]. split; [assumption|]. split; [assumption|].
    apply (BuildHuffmanCodes_frame lens hcodes T' max_bits cips); [lia|assumption].
  - rewrite (BuildHuffmanCodes_unfold lens hcodes max_bits cips0 Hinit). cbv zeta.
    destruct (Nat.leb_spec (2 ^ max_bits) (length hcodes)); [lia|reflexivity].
Qed.

(** The pair a slot of the table names, when the Kraft sum is at most 1. *)
Lemma BuildHuffmanCodes_symbol lens hcodes T' mb cips :
  BuildHuffmanCodes std_sort lens hcodes = Ret (T', mb, cips) ->
  (kraft_sum lens <= 1)%Q -> (length lens <= 2 ^ 15)%nat ->
  lens_ok lens /\ kraft15 lens <= 2 ^ 15 /\ (length lens <= 2 ^ 16)%nat /\
  (forall s, s ∈ coded_symbols lens -> entry (code_of lens s) = N.of_nat s + 0x8000) /\
  (forall j, (j < 2 ^ mb)%nat -> valid T'.[j] = false -> T'.[j] = 0) /\
  (forall j, (j < 2 ^ mb)%nat -> valid T'.[j] = true ->
     exists s, s ∈ coded_symbols lens /\ T'.[j] = N.of_nat s + 0x8000 /\
       low_bits (N.to_nat lens.[s]) (N.of_nat j) =
       bit_reversed (N.to_nat lens.[s]) (canonical_code lens s)) /\
  (forall s j, s ∈ coded_symbols lens -> (j < 2 ^ mb)%nat ->
     low_bits (N.to_nat lens.[s]) (N.of_nat j) =
     bit_reversed (N.to_nat lens.[s]) (canonical_code lens s) ->
     valid T'.[j] = true).
Proof.
  intros Hrun Hkq Hlen.
  assert (Hlen16 : (length lens <= 2 ^ 16)%nat).
  { etransitivity; [exact Hlen|]. apply Nat.pow_le_mono_r; lia. }
  destruct (BuildHuffmanCodes_table std_sort std_sort_perm lens hcodes T' mb cips Hlen16 Hrun)
    as (cips0 & Hinit & Hperm & Hsize & HlT & _ & Hent & Hval).
  destruct (InitHuffmanCodes_codes lens mb cips0 Hinit) as (Hok & _).
  pose proof (InitHuffmanCodes_exact lens mb cips0 Hinit Hkq Hlen16) as Hcips.
  assert (Hk : kraft15 lens <= 2 ^ 15) by (apply kraft_le_1; assumption).
  assert (Hlen_of : forall s', cip_len lens (code_of lens s') = N.to_nat lens.[s']).
  { intros s'. unfold cip_len. simpl. rewrite Nat2N.id. reflexivity. }
  assert (Hentry : forall s, s ∈ coded_symbols lens ->
            entry (code_of lens s) = N.of_nat s + 0x8000).
  { intros s Hs. apply coded_symbols_elem in Hs as [Hs _].
    apply (entry_small (code_of lens s)). simpl.
    assert (H : N.of_nat s < N.of_nat (2 ^ 15)) by lia.
    rewrite pow2_15_nat in H. exact H. }
  split; [assumption|]. split; [assumption|]. split; [assumption|].
  split; [assumption|]. split; [|split].
  - intros j Hj Hv.
    destruct (BuildHuffmanCodes_slot lens hcodes T' mb cips Hlen16 Hrun j)
      as [H|(cip & _ & He & _)].
    + destruct (Nat.ltb_spec j (2 ^ mb)); [assumption|lia].
    + rewrite He, valid_entry in Hv. discriminate.
  - intros j Hj Hv. destruct (Hent j Hj Hv) as (cip & Hin & He & Hcar).
    rewrite Hcips in Hin. apply list_elem_of_fmap in Hin as (s & -> & Hs).
    exists s. split; [assumption|]. split; [rewrite He; apply Hentry; assumption|].
    unfold carries in Hcar. rewrite Hlen_of in Hcar. exact Hcar.
  - intros s j Hs Hj Hcar. apply (Hval (code_of lens s)); auto.
    + rewrite Hcips. apply list_elem_of_fmap. eauto.
    + unfold carries. rewrite Hlen_of. exact Hcar.
Qed.

Lemma carried_unique lens s s' i :
  lens_ok lens -> kraft15 lens <= 2 ^ 15 ->
  s ∈ coded_symbols lens -> s' ∈ coded_symbols lens ->
  low_bits (N.to_nat lens.[s]) i = bit_reversed (N.to_nat lens.[s]) (canonical_code lens s) ->
  low_bits (N.to_nat lens.[s']) i = bit_reversed (N.to_nat lens.[s']) (canonical_code lens s') ->
  s = s'.
Proof.
  intros Hok Hk Hs Hs' Hc Hc'.
  destruct (le_lt_dec (N.to_nat lens.[s]) (N.to_nat lens.[s'])).
  - apply (carried_symbol_unique lens s s' i); auto.
  - symmetry. apply (carried_symbol_unique lens s' s i); auto. lia.
Qed.

(** X5. The forward table of a code whose Kraft sum is at most 1, slot by
    slot: a slot below [2^max_bits] is 0 when its bits begin with no code,
    so that a lookup there fails, and otherwise holds, with the valid bit,
    the one symbol whose code its low bits are. *)
Theorem BuildHuffmanCodes_slots (lens hcodes hcodes' : list N) (max_bits : nat)
    (cips : list CodeIndexPair) (j : nat) :
  BuildHuffmanCodes std_sort lens hcodes = Ret (hcodes', max_bits, cips) ->
  (kraft_sum lens <= 1)%Q -> (length lens <= 2 ^ 15)%nat -> (j < 2 ^ max_bits)%nat ->
  (hcodes'.[j] = 0 /\
   forall s, s ∈ coded_symbols lens ->
     low_bits (N.to_nat lens.[s]) (N.of_nat j) <>
     bit_reversed (N.to_nat lens.[s]) (canonical_code lens s)) \/
  (exists s, s ∈ coded_symbols lens /\
     hcodes'.[j] = N.of_nat s + 0x8000 /\
     low_bits (N.to_nat lens.[s]) (N.of_nat j) =
     bit_reversed (N.to_nat lens.[s]) (canonical_code lens s) /\
     forall s', s' ∈ coded_symbols lens ->
       low_bits (N.to_nat lens.[s']) (N.of_nat j) =
       bit_reversed (N.to_nat lens.[s']) (canonical_code lens s') -> s' = s).
Proof.
  intros Hrun Hkq Hlen Hj.
  destruct (BuildHuffmanCodes_symbol lens hcodes hcodes' max_bits cips Hrun Hkq Hlen)
    as (Hok & Hk & _ & _ & Hzero & Hsym & Hval).
  destruct (valid hcodes'.[j]) eqn:Hv.
  - right. destruct (Hsym j Hj Hv) as (s & Hs & He & Hcar).
    exists s. repeat split; auto.
    intros s' Hs' Hcar'. apply (carried_unique lens s' s (N.of_nat j)); auto.
  - left. split; [apply Hzero; assumption|].
    intros s Hs Hcar. rewrite (Hval s j Hs Hj Hcar) in Hv. discriminate.
Qed.


(** ** BuildHuffmanReverseCodes *)

Lemma BuildHuffmanReverseCodes_run lens rcodes mb cips0 :
  (length lens <= 2 ^ 16)%nat -> InitHuffmanCodes lens = Ret (mb, cips0) ->
  BuildHuffmanReverseCodes std_sort lens rcodes =
  Ret (reverse_codes (seq 0 (length rcodes)) O cips0 rcodes, mb, cips0).
Proof.
  intros Hlen Hinit.
  destruct (BuildHuffmanReverseCodes_table std_sort std_sort_perm std_sort_sorted
              lens rcodes mb cips0 Hlen Hinit) as (rcodes' & Hrun & _).
  unfold BuildHuffmanReverseCodes in *. rewrite Hinit in *.
  cbn [mbind outcome_mbind obind] in *. injection Hrun as _ Hs. rewrite Hs. reflexivity.
Qed.

Lemma kraft_accepted lens : lens_ok lens -> (kraft_sum lens <= 1)%Q ->
  exists mb cips0, InitHuffmanCodes lens = Ret (mb, cips0).
Proof.
  intros Hok Hkq. apply InitHuffmanCodes_Ret; [assumption|].
  intros L HL. apply kraft_count16; auto. apply kraft_le_1; assumption.
Qed.

(** The reverse table of a code whose Kraft sum is at most 1. *)
Lemma reverse_table lens rcodes mb cips0 :
  InitHuffmanCodes lens = Ret (mb, cips0) ->
  (kraft_sum lens <= 1)%Q -> (length lens <= 2 ^ 16)%nat ->
  let rcodes' := reverse_codes (seq 0 (length rcodes)) O cips0 rcodes in
  length rcodes' = length rcodes /\
  forall s, (s < length rcodes)%nat ->
    rcodes'.[s] = if decide (lens.[s] <> 0)
                  then bit_reversed (N.to_nat lens.[s]) (canonical_code lens s) else 0.
Proof.
  intros Hinit Hkq Hlen.
  pose proof (InitHuffmanCodes_exact lens mb cips0 Hinit Hkq Hlen) as Hcips.
  destruct (reverse_codes_spec (code_of lens) lens (length rcodes) 0 0 cips0 rcodes)
    as (Hl & _ & Hval); auto.
  { rewrite Nat.sub_0_r. exact Hcips. }
  cbv zeta. split; [assumption|]. intros s Hs. rewrite Hval by lia. reflexivity.
Qed.

(** X7. [BuildHuffmanReverseCodes] on at most [2^16] lengths, each at most
    15, whose Kraft sum is at most 1: it returns true, keeps the size of the
    table, and leaves in the slot of every symbol the bit-reversed canonical
    code of the symbol, or 0 for a symbol of length 0 and for a slot beyond
    the alphabet. *)
Theorem BuildHuffmanReverseCodes_contents (lens rcodes : list N) :
  lens_ok lens -> (kraft_sum lens <= 1)%Q -> (length lens <= 2 ^ 16)%nat ->
  exists rcodes' max_bits cips,
    BuildHuffmanReverseCodes std_sort lens rcodes = Ret (rcodes', max_bits, cips) /\
    length rcodes' = length rcodes /\
    forall s, (s < length rcodes)%nat ->
      (lens.[s] <> 0 ->
       rcodes'.[s] = bit_reversed (N.to_nat lens.[s]) (canonical_code lens s)) /\
      (lens.[s] = 0 -> rcodes'.[s] = 0).
Proof.
  intros Hok Hkq Hlen.
  destruct (kraft_accepted lens Hok Hkq) as (mb & cips0 & Hinit).
  destruct (reverse_table lens rcodes mb cips0 Hinit Hkq Hlen) as (Hl & Hval).
  eexists _, mb, cips0. split; [apply BuildHuffmanReverseCodes_run; assumption|].
  split; [assumption|]. intros s Hs. rewrite (Hval s Hs).
  destruct (decide (lens.[s] <> 0)) as [Hnz|Hz]; split; intros H;
    [reflexivity|contradiction|contradiction|reflexivity].
Qed.

(** ** The two tables together *)

(** The entry of a slot that carries the code of a symbol. *)
Lemma forward_entry lens hcodes T' mb cips s j :
  BuildHuffmanCodes std_sort lens hcodes = Ret (T', mb, cips) ->
  (kraft_sum lens <= 1)%Q -> (length lens <= 2 ^ 15)%nat ->
  s ∈ coded_symbols lens -> (j < 2 ^ mb)%nat ->
  low_bits (N.to_nat lens.[s]) (N.of_nat j) =
    bit_reversed (N.to_nat lens.[s]) (canonical_code lens s) ->
  T'.[j] = N.of_nat s + 0x8000.
Proof.
  intros Hrun Hkq Hlen Hs Hj Hcar.
  destruct (BuildHuffmanCodes_symbol lens hcodes T' mb cips Hrun Hkq Hlen)
    as (Hok & Hk & _ & _ & _ & Hsym & Hval).
  pose proof (Hval s j Hs Hj Hcar) as Hv.
  destruct (Hsym j Hj Hv) as (s' & Hs' & He & Hcar').
  assert (s' = s) by (apply (carried_unique lens s' s (N.of_nat j)); auto).
  subst s'. exact He.
Qed.

(** X8. Encoding, then decoding. When the forward and the reverse table are
    built from the same lengths, of Kraft sum at most 1, the reverse table
    gives for a symbol of non-zero length a code that fits its length, and
    the slots of the forward table that hold the symbol, with the valid
    bit, are exactly the [max_bits]-bit windows that begin with that code. *)
Theorem forward_reverse_agree (lens hcodes rcodes hcodes' rcodes' : list N)
    (max_bits max_bits' : nat) (cips cips' : list CodeIndexPair) (s : nat) :
  BuildHuffmanCodes std_sort lens hcodes = Ret (hcodes', max_bits, cips) ->
  BuildHuffmanReverseCodes std_sort lens rcodes = Ret (rcodes', max_bits', cips') ->
  (kraft_sum lens <= 1)%Q -> (length lens <= 2 ^ 15)%nat ->
  (s < length lens)%nat -> (s < length rcodes)%nat -> lens.[s] <> 0 ->
  let len := N.to_nat lens.[s] in
  max_bits' = max_bits /\ (0 < len <= max_bits)%nat /\ rcodes'.[s] < 2 ^ N.of_nat len /\
  forall i, (i < 2 ^ max_bits)%nat ->
    (low_bits len (N.of_nat i) = rcodes'.[s] <-> hcodes'.[i] = N.of_nat s + 0x8000).
Proof.
  intros Hf Hr Hkq Hlen Hs Hsr Hnz. cbv zeta.
  assert (Hlen16 : (length lens <= 2 ^ 16)%nat).
  { etransitivity; [exact Hlen|]. apply Nat.pow_le_mono_r; lia. }
  assert (Hlt16 : (length lens < 2 ^ 16)%nat).
  { eapply Nat.le_lt_trans; [exact Hlen|]. apply Nat.pow_lt_mono_r; lia. }
  destruct (BuildHuffmanCodes_Init std_sort lens hcodes hcodes' max_bits cips Hf)
    as (cips0 & Hinit).
  rewrite (BuildHuffmanReverseCodes_run lens rcodes max_bits cips0 Hlen16 Hinit) in Hr.
  injection Hr as <- <- <-.
  destruct (reverse_table lens rcodes max_bits cips0 Hinit Hkq Hlen16) as (Hl & Hval).
  assert (Hcoded : s ∈ coded_symbols lens) by (apply coded_symbols_elem; auto).
  rewrite (Hval s Hsr). destruct (decide (lens.[s] <> 0)); [|contradiction].
  split; [reflexivity|]. split; [|split; [apply bit_reversed_lt|]].
  - pose proof (InitHuffmanCodes_len_le lens max_bits cips0 Hinit Hlt16 s). lia.
  - intros i Hi. split.
    + intros Hlow. apply (forward_entry lens hcodes hcodes' max_bits cips s i); auto.
    + intros He.
      destruct (BuildHuffmanCodes_symbol lens hcodes hcodes' max_bits cips Hf Hkq Hlen)
        as (_ & _ & _ & Hentry & _ & Hsym & _).
      assert (Hv : valid hcodes'.[i] = true).
      { rewrite He, <- (Hentry s Hcoded). apply valid_entry. }
      destruct (Hsym i Hi Hv) as (s' & Hs' & He' & Hcar).
      rewrite He in He'. assert (s' = s) by lia. subst s'. exact Hcar.
Qed.

(** ** BuildHuffmanCodeLengths: what an accepting run leaves *)

Tactic Notation "run_step" hyp(H) "as" simple_intropattern(p) "eqn" ident(E) :=
  lazymatch type of H with
  | mbind _ ?m = Ret _ =>
      destruct m as [p| |] eqn:E;
      cbn [mbind outcome_mbind obind] in H |- *; [|discriminate H ..]
  end.

Lemma lens_ok_app lens lens' : lens_ok lens -> lens_ok lens' -> lens_ok (lens ++ lens').
Proof. unfold lens_ok. intros. apply Forall_app; auto. Qed.

Lemma lens_ok_replicate n v : v <= 15 -> lens_ok (replicate n v).
Proof. intros H. apply Forall_replicate. exact H. Qed.

Lemma lens_ok_lookup lens i v : lens_ok lens -> lens !! i = Some v -> v <= 15.
Proof. intros Hok Hv. apply (lens_ok_elem v lens Hok). apply list_elem_of_lookup. eauto. Qed.

(** The run and the puff byte of a repeat marker. *)
Lemma marker_bounds code e base p x : (code, e, base, p) ∈ markers -> x < 2 ^ N.of_nat e ->
  (3 <= N.to_nat (base + x) <= 138)%nat /\ 16 <= p + x <= 155.
Proof.
  intros Hm Hx. apply markers_cases in Hm as [H|[H|H]]; injection H as -> -> -> ->;
    simpl in Hx; lia.
Qed.

Lemma code_lengths_br_output ht max_bits num_codes fuel :
  forall idx br buffer index_ lens br' buffer' index' lens',
  code_lengths_br fuel ht max_bits num_codes idx br buffer index_ lens =
    Ret (br', buffer', index', lens') ->
  (index_ <= length buffer)%nat -> lens_ok lens -> length lens = idx ->
  lens_ok lens' /\
  (if (idx <? num_codes)%nat then (num_codes <= length lens' <= num_codes + 137)%nat
   else lens' = lens) /\
  (index' + idx <= index_ + Nat.max idx num_codes)%nat /\
  (forall j, (index_ <= j < index')%nat -> buffer'.[j] <= 155) /\
  (forall j, (index' <= j)%nat -> buffer'.[j] = buffer.[j]) /\
  (exists c, br = c ++ br').
Proof.
  induction fuel as [|fuel IH]; intros idx br buffer index_ lens br' buffer' index' lens'
    Hrun Hi Hok Hlen.
  - simpl in Hrun. destruct (idx <? num_codes)%nat eqn:Hlt; [discriminate|].
    injection Hrun as <- <- <- <-. apply Nat.ltb_ge in Hlt.
    repeat split; auto; try lia. exists []. reflexivity.
  - rewrite code_lengths_br_step in Hrun.
    destruct (Nat.ltb_spec idx num_codes) as [Hlt|Hge].
    2:{ injection Hrun as <- <- <- <-. repeat split; auto; try lia. exists []. reflexivity. }
    run_step Hrun as ? eqn Hcache.
    run_step Hrun as [code nbits] eqn Hcode.
    run_step Hrun as ? eqn Hroom. apply test_Ret, Nat.ltb_lt in Hroom.
    destruct (N.ltb_spec code 16) as [Hc16|Hc16].
    + pose proof Hrun as Hfacts.
      apply code_lengths_br_facts in Hfacts as (Hl & Hidx & Hlow & _);
        [|rewrite length_insert; lia].
      rewrite length_insert in Hl, Hidx.
      assert (Hu : uint8 code = code) by (apply uint8_small; simpl; lia).
      apply IH in Hrun as (Hok' & Hn & Hcnt & Hpuff & Hrest & (c & Hc));
        [|rewrite length_insert; lia| |rewrite length_app; simpl; lia].
      2:{ apply lens_ok_app; [assumption|]. rewrite Hu. repeat constructor. lia. }
      split; [assumption|]. split; [|split; [|split; [|split]]].
      * destruct (Nat.ltb_spec (S idx) num_codes); [assumption|].
        subst lens'. rewrite length_app. simpl. lia.
      * lia.
      * intros j Hj. destruct (decide (j = index_)) as [->|Hne]; [|apply Hpuff; lia].
        rewrite Hlow by lia. rewrite vec_get_insert_eq by lia. lia.
      * intros j Hj. rewrite Hrest by lia. apply vec_get_insert_ne. lia.
      * exists (take nbits br ++ c). unfold DropBits in Hc.
        rewrite <- app_assoc, <- Hc. symmetry. apply take_drop.
    + run_step Hrun as ? eqn Hlt19.
      run_step Hrun as [[[cn cv] br1] buffer1] eqn Hmark.
      apply repeat_marker_br_Ret in Hmark as (e & base & p & Hm & _ & -> & -> & -> & Hcv).
      destruct (marker_bounds _ _ _ _ (ReadBits e (DropBits nbits br)) Hm (ReadBits_lt _ _))
        as [Hcn Hp].
      set (cn := N.to_nat (base + ReadBits e (DropBits nbits br))) in *.
      pose proof Hrun as Hfacts.
      apply code_lengths_br_facts in Hfacts as (Hl & Hidx & Hlow & _);
        [|rewrite length_insert; lia].
      rewrite length_insert in Hl, Hidx.
      assert (Hcv15 : cv <= 15).
      { destruct (code =? 16).
        - destruct Hcv as [_ Hcv]. apply (lens_ok_lookup lens _ _ Hok Hcv).
        - subst cv. lia. }
      apply IH in Hrun as (Hok' & Hn & Hcnt & Hpuff & Hrest & (c & Hc));
        [|rewrite length_insert; lia| |rewrite length_app, length_replicate; lia].
      2:{ apply lens_ok_app; [assumption|]. apply lens_ok_replicate. assumption. }
      split; [assumption|]. split; [|split; [|split; [|split]]].
      * destruct (Nat.ltb_spec (idx + cn) num_codes); [assumption|].
        subst lens'. rewrite length_app, length_replicate. lia.
      * lia.
      * intros j Hj. destruct (decide (j = index_)) as [->|Hne]; [|apply Hpuff; lia].
        rewrite Hlow by lia. rewrite vec_get_insert_eq by lia. lia.
      * intros j Hj. rewrite Hrest by lia. apply vec_get_insert_ne. lia.
      * exists (take nbits br ++ take e (DropBits nbits br) ++ c). unfold DropBits in *.
        rewrite <- !app_assoc in *. rewrite <- Hc, !take_drop. reflexivity.
Qed.

(** X9. What an accepting run of the reading direction of
    [BuildHuffmanCodeLengths] leaves: lengths between 0 and 15, at least
    [num_codes] and at most [num_codes + 137] of them; at most one puff byte
    per announced code, each at most 155, in a buffer of the same size whose
    other bytes are untouched; and a reader that lost a prefix of its bits. *)
Theorem BuildHuffmanCodeLengths_br_output (ht : HuffmanTable) (br br' : BitReader)
    (buffer buffer' : list N) (max_bits num_codes length_ : nat) (lens : list N) :
  BuildHuffmanCodeLengths_br ht br buffer max_bits num_codes = Ret (br', buffer', length_, lens) ->
  lens_ok lens /\
  (num_codes <= length lens <= num_codes + 137)%nat /\
  (length_ <= num_codes)%nat /\ (length_ <= length buffer)%nat /\
  length buffer' = length buffer /\
  (forall j, (j < length_)%nat -> buffer'.[j] <= 155) /\
  (forall j, (length_ <= j)%nat -> buffer'.[j] = buffer.[j]) /\
  (exists consumed, br = consumed ++ br').
Proof.
  unfold BuildHuffmanCodeLengths_br. intros Hrun.
  pose proof Hrun as Hfacts.
  apply code_lengths_br_facts in Hfacts as (Hl & Hidx & _ & _); [|lia].
  apply code_lengths_br_output in Hrun as (Hok & Hn & Hcnt & Hpuff & Hrest & Hc);
    [|lia|constructor|reflexivity].
  split; [assumption|]. split.
  { destruct (Nat.ltb_spec 0 num_codes); [assumption|]. subst lens. simpl. lia. }
  split; [lia|]. split; [lia|]. split; [assumption|]. split; [|split; assumption].
  intros j Hj. apply Hpuff. lia.
Qed.

Lemma repeat_marker_bw_cases code pcode idx bw lens cn cv bw' :
  (code <? 16) = false ->
  repeat_marker_bw code pcode idx bw lens = Ret (cn, cv, bw') ->
  code = (if pcode <? 16 then pcode else if pcode <? 20 then 16
          else if pcode <? 28 then 17 else 18) -> pcode <= 155 ->
  (3 <= cn <= 138)%nat /\ bw_size bw' = bw_size bw /\
  (exists c, bw_bits bw' = bw_bits bw ++ c) /\
  (length (bw_bits bw) <= bw_size bw -> length (bw_bits bw') <= bw_size bw')%nat /\
  (if code =? 16 then lens !! (idx - 1)%nat = Some cv else cv = 0).
Proof.
  intros H16 Hrun Hcode Hp. unfold repeat_marker_bw in Hrun.
  destruct (N.ltb_spec pcode 16) as [|Hp16]; [subst code; apply N.ltb_ge in H16; lia|].
  assert (Hw : forall n v bwa bwb, write_or n v bwa kInsufficientOutput = Ret bwb ->
            bw_size bwb = bw_size bwa /\ (exists c, bw_bits bwb = bw_bits bwa ++ c) /\
            (length (bw_bits bwb) <= bw_size bwb)%nat).
  { intros n v bwa bwb H. rewrite write_or_room in H. unfold has_room in H.
    destruct (Nat.leb_spec (length (bw_bits bwa) + n) (bw_size bwa)); [|discriminate].
    injection H as <-. simpl. split; [reflexivity|]. split; [eauto|].
    rewrite length_app, length_N_to_bits. assumption. }
  destruct (N.ltb_spec pcode 20) as [Hp20|Hp20].
  { subst code. cbn [N.eqb Pos.eqb] in Hrun |- *.
    destruct (negb (idx =? 0)%nat); [|discriminate].
    cbn [test mbind outcome_mbind obind] in Hrun.
    run_step Hrun as bw1 eqn Hw1. apply Hw in Hw1 as (Hs & Hb & Hr).
    unfold vec_load in Hrun. destruct (lens !! (idx - 1)%nat) as [v|]; [|discriminate].
    cbn [mbind outcome_mbind obind] in Hrun. injection Hrun as <- <- <-.
    repeat split; auto; lia. }
  destruct (N.ltb_spec pcode 28) as [Hp28|Hp28].
  { subst code. cbn [N.eqb Pos.eqb] in Hrun |- *.
    run_step Hrun as bw1 eqn Hw1. apply Hw in Hw1 as (Hs & Hb & Hr).
    injection Hrun as <- <- <-. repeat split; auto; lia. }
  subst code. cbn [N.eqb Pos.eqb] in Hrun |- *.
  run_step Hrun as bw1 eqn Hw1. apply Hw in Hw1 as (Hs & Hb & Hr).
  injection Hrun as <- <- <-. repeat split; auto; lia.
Qed.

Lemma code_lengths_bw_output ht num_codes fuel :
  forall idx buffer index_ bw lens index' bw' lens',
  code_lengths_bw fuel ht num_codes idx buffer index_ bw lens = Ret (index', bw', lens') ->
  (index_ <= length buffer)%nat -> lens_ok lens -> length lens = idx ->
  lens_ok lens' /\
  (if (idx <? num_codes)%nat then (num_codes <= length lens' <= num_codes + 137)%nat
   else lens' = lens) /\
  (index_ <= index' <= length buffer)%nat /\
  (index' + idx <= index_ + Nat.max idx num_codes)%nat /\
  bw_size bw' = bw_size bw /\
  (exists c, bw_bits bw' = bw_bits bw ++ c) /\
  (length (bw_bits bw) <= bw_size bw -> length (bw_bits bw') <= bw_size bw')%nat.
Proof.
  induction fuel as [|fuel IH]; intros idx buffer index_ bw lens index' bw' lens'
    Hrun Hi Hok Hlen.
  - simpl in Hrun. destruct (idx <? num_codes)%nat eqn:Hlt; [discriminate|].
    injection Hrun as <- <- <-. apply Nat.ltb_ge in Hlt.
    repeat split; auto; try lia. exists []. rewrite app_nil_r. reflexivity.
  - rewrite code_lengths_bw_step in Hrun. cbv zeta in Hrun.
    destruct (Nat.ltb_spec idx num_codes) as [Hlt|Hge].
    2:{ injection Hrun as <- <- <-. repeat split; auto; try lia.
        exists []. rewrite app_nil_r. reflexivity. }
    run_step Hrun as ? eqn Hin. apply test_Ret, Nat.ltb_lt in Hin.
    run_step Hrun as ? eqn H155. apply test_Ret, N.leb_le in H155.
    set (pcode := buffer.[index_]) in *.
    set (code := if pcode <? 16 then pcode else if pcode <? 20 then 16
                 else if pcode <? 28 then 17 else 18) in *.
    run_step Hrun as [hcode nbits] eqn Hcode.
    run_step Hrun as bw1 eqn Hw1.
    rewrite write_or_room in Hw1. unfold has_room in Hw1.
    destruct (Nat.leb_spec (length (bw_bits bw) + nbits) (bw_size bw)) as [Hroom|];
      [|discriminate].
    injection Hw1 as <-.
    destruct (N.ltb_spec code 16) as [Hc16|Hc16].
    + assert (Hu : uint8 code = code) by (apply uint8_small; simpl; lia).
      apply IH in Hrun as (Hok' & Hn & Hidx & Hcnt & Hs & (c & Hc) & Hr);
        [|lia| |rewrite length_app; simpl; lia].
      2:{ apply lens_ok_app; [assumption|]. rewrite Hu. repeat constructor. lia. }
      simpl in Hs, Hc, Hr.
      split; [assumption|]. split; [|split; [|split; [|split; [|split]]]]; try lia.
      * destruct (Nat.ltb_spec (S idx) num_codes); [assumption|].
        subst lens'. rewrite length_app. simpl. lia.
      * exists (N_to_bits nbits hcode ++ c). rewrite Hc, app_assoc. reflexivity.
      * intros _. apply Hr. rewrite length_app, length_N_to_bits. assumption.
    + run_step Hrun as [[cn cv] bw2] eqn Hmark.
      apply repeat_marker_bw_cases in Hmark as (Hcn & Hs2 & (c2 & Hc2) & Hr2 & Hcv);
        [|apply N.ltb_ge; assumption|reflexivity|assumption].
      simpl in Hs2, Hc2, Hr2.
      assert (Hcv15 : cv <= 15).
      { destruct (code =? 16).
        - apply (lens_ok_lookup lens _ _ Hok Hcv).
        - subst cv. lia. }
      apply IH in Hrun as (Hok' & Hn & Hidx & Hcnt & Hs & (c & Hc) & Hr);
        [|lia| |rewrite length_app, length_replicate; lia].
      2:{ apply lens_ok_app; [assumption|]. apply lens_ok_replicate. assumption. }
      split; [assumption|]. split; [|split; [|split; [|split; [|split]]]]; try lia.
      * destruct (Nat.ltb_spec (idx + cn) num_codes); [assumption|].
        subst lens'. rewrite length_app, length_replicate. lia.
      * exists (N_to_bits nbits hcode ++ c2 ++ c). rewrite Hc, Hc2, <- !app_assoc. reflexivity.
      * intros _. apply Hr, Hr2. rewrite length_app, length_N_to_bits. assumption.
Qed.

Lemma code_lengths_bw_mono ht num_codes fuel :
  forall idx buffer index_ bw lens index' bw' lens',
  code_lengths_bw fuel ht num_codes idx buffer index_ bw lens = Ret (index', bw', lens') ->
  (index_ <= index')%nat.
Proof.
  induction fuel as [|fuel IH]; intros idx buffer index_ bw lens index' bw' lens' H.
  - simpl in H. destruct (idx <? num_codes)%nat; [discriminate|]. injection H as <- _ _. lia.
  - rewrite code_lengths_bw_step in H. cbv zeta in H.
    destruct (idx <? num_codes)%nat; [|injection H as <- _ _; lia].
    run_step H as ? eqn H1. run_step H as ? eqn H2.
    set (code := if buffer.[index_] <? 16 then buffer.[index_]
                 else if buffer.[index_] <? 20 then 16
                 else if buffer.[index_] <? 28 then 17 else 18) in *.
    run_step H as [hc nb] eqn H3. run_step H as bwx eqn H4.
    destruct (code <? 16).
    + apply IH in H. lia.
    + run_step H as [[cn cv] bwy] eqn H5. apply IH in H. lia.
Qed.

(** An accepting run of the writing loop reads the bytes below the index
    it returns, and no other. *)
Lemma code_lengths_bw_ext ht num_codes fuel :
  forall idx buffer index_ bw lens index' bw' lens' buffer2,
  code_lengths_bw fuel ht num_codes idx buffer index_ bw lens = Ret (index', bw', lens') ->
  (index' <= length buffer2)%nat ->
  (forall j, (index_ <= j < index')%nat -> buffer2.[j] = buffer.[j]) ->
  code_lengths_bw fuel ht num_codes idx buffer2 index_ bw lens = Ret (index', bw', lens').
Proof.
  induction fuel as [|fuel IH]; intros idx buffer index_ bw lens index' bw' lens' buffer2
    Hrun Hlen Heq.
  - simpl in *. destruct (idx <? num_codes)%nat; [discriminate|assumption].
  - rewrite code_lengths_bw_step in *. cbv zeta in *.
    destruct (idx <? num_codes)%nat; [|assumption].
    run_step Hrun as ? eqn Hin. apply test_Ret, Nat.ltb_lt in Hin.
    run_step Hrun as ? eqn H155.
    set (code := if buffer.[index_] <? 16 then buffer.[index_]
                 else if buffer.[index_] <? 20 then 16
                 else if buffer.[index_] <? 28 then 17 else 18) in *.
    run_step Hrun as [hcode nbits] eqn Hcode.
    run_step Hrun as bw1 eqn Hw1.
    assert (Hidx : (S index_ <= index')%nat).
    { destruct (code <? 16); [apply code_lengths_bw_mono in Hrun; lia|].
      run_step Hrun as [[cn cv] bw2] eqn Hmark. apply code_lengths_bw_mono in Hrun; lia. }
    destruct (Nat.ltb_spec index_ (length buffer2)) as [_|]; [|lia].
    cbn [test mbind outcome_mbind obind].
    rewrite (Heq index_) by lia. rewrite H155. cbn [mbind outcome_mbind obind].
    fold code. rewrite Hcode. cbn [mbind outcome_mbind obind]. rewrite Hw1.
    cbn [mbind outcome_mbind obind].
    destruct (code <? 16).
    + apply (IH _ buffer); auto. intros j Hj. apply Heq. lia.
    + run_step Hrun as [[cn cv] bw2] eqn Hmark.
      apply (IH _ buffer); auto. intros j Hj. apply Heq. lia.
Qed.

(** X10. What an accepting run of the writing direction of
    [BuildHuffmanCodeLengths] leaves: lengths between 0 and 15, at least
    [num_codes] and at most [num_codes + 137] of them; it has read at most
    one puff byte per announced code and none beyond the buffer, and it has
    only appended bits to the writer, which keeps its size and, if it was
    within it, still is. Bytes behind the ones it read do not matter. *)
Theorem BuildHuffmanCodeLengths_bw_output (ht : HuffmanTable) (buffer : list N)
    (bw bw' : BitWriter) (num_codes length_ : nat) (lens : list N) :
  BuildHuffmanCodeLengths_bw ht buffer bw num_codes = Ret (length_, bw', lens) ->
  lens_ok lens /\
  (num_codes <= length lens <= num_codes + 137)%nat /\
  (length_ <= num_codes)%nat /\ (length_ <= length buffer)%nat /\
  bw_size bw' = bw_size bw /\
  (exists written, bw_bits bw' = bw_bits bw ++ written) /\
  ((length (bw_bits bw) <= bw_size bw)%nat -> (length (bw_bits bw') <= bw_size bw')%nat) /\
  (forall rest,
     BuildHuffmanCodeLengths_bw ht (take length_ buffer ++ rest) bw num_codes =
     Ret (length_, bw', lens)).
Proof.
  unfold BuildHuffmanCodeLengths_bw. intros Hrun.
  pose proof Hrun as Hout.
  apply code_lengths_bw_output in Hout as (Hok & Hn & Hidx & Hcnt & Hs & Hc & Hr);
    [|lia|constructor|reflexivity].
  split; [assumption|]. split.
  { destruct (Nat.ltb_spec 0 num_codes); [assumption|]. subst lens. simpl. lia. }
  split; [lia|]. split; [lia|]. split; [assumption|]. split; [assumption|].
  split; [assumption|]. intros rest.
  apply (code_lengths_bw_ext _ _ _ _ buffer); [assumption| |].
  - rewrite length_app, length_take. lia.
  - intros j Hj. apply vec_get_take_app_l; lia.
Qed.

(** ** Accesses in bounds *)

(** [Undefined] marks an access outside a vector and a loop that outran
    its bound: a call stays in bounds when its outcome is not [Undefined]. *)
Definition in_bounds {E A} (m : outcome E A) : bool :=
  match m with Undefined => false | _ => true end.

Lemma in_bounds_bind {E A B} (m : outcome E A) (k : A -> outcome E B) :
  in_bounds m = true -> (forall a, m = Ret a -> in_bounds (k a) = true) ->
  in_bounds (mbind k m) = true.
Proof. destruct m; simpl; auto. Qed.

Lemma in_bounds_test {E} c (e : E) : in_bounds (test c e) = true.
Proof. destruct c; reflexivity. Qed.

Lemma in_bounds_set_error {A} (m : outcome unit A) e :
  in_bounds (set_error m e) = in_bounds m.
Proof. destruct m; reflexivity. Qed.

Lemma in_bounds_write_or n v bw e : in_bounds (write_or n v bw e) = true.
Proof. rewrite write_or_room. destruct (has_room n bw); reflexivity. Qed.

Lemma perm_lt idx : (perm idx < 19)%nat.
Proof.
  unfold perm, kPermutations. do 19 (destruct idx as [|idx]; [simpl; lia|]).
  destruct idx; simpl; lia.
Qed.

Lemma read_code_lens_in_bounds idxs : forall br buffer index_ checked cl,
  length cl = 19%nat -> in_bounds (read_code_lens idxs br buffer index_ checked cl) = true.
Proof.
  induction idxs as [|idx idxs IH]; intros br buffer index_ checked cl Hcl; [reflexivity|].
  cbn [read_code_lens]. apply in_bounds_bind; [apply in_bounds_test|intros _ _].
  rewrite vec_store_lt by (rewrite Hcl; apply perm_lt). cbn [mbind outcome_mbind obind].
  destruct checked; apply IH; rewrite length_insert; assumption.
Qed.

Lemma stores_Forall (P : N -> Prop) idxs : forall vs cl,
  Forall P vs -> Forall P cl -> Forall P (stores idxs vs cl).
Proof.
  induction idxs as [|idx idxs IH]; intros vs cl Hvs Hcl; simpl; auto.
  destruct Hvs as [|v vs Hv Hvs]; auto. apply IH; auto. apply Forall_insert; assumption.
Qed.

Lemma nibbles_lt n : forall br, Forall (fun v => v < 8) (nibbles n br).
Proof.
  induction n as [|n IH]; intros br; simpl; constructor; auto. apply (ReadBits_lt 3 br).
Qed.

(** The 19 meta lengths after the two loops of the header: whatever the
    array held, every entry is one of the three-bit values or 0. *)
Lemma meta_lens_lt nc br cl :
  (nc <= 19)%nat -> length cl = 19%nat ->
  Forall (fun v => v < 8)
    (stores (seq nc (19 - nc)) (replicate (19 - nc) 0) (stores (seq 0 nc) (nibbles nc br) cl)).
Proof.
  intros Hnc Hcl.
  rewrite stores_app by (rewrite length_seq, length_nibbles; reflexivity).
  replace (seq 0 nc ++ seq nc (19 - nc)) with (seq 0 19).
  2:{ replace 19%nat with (nc + (19 - nc))%nat at 1 by lia. apply seq_app. }
  rewrite (stores_full _ cl (replicate 19 0)); auto.
  2:{ rewrite length_app, length_nibbles, length_replicate. lia. }
  apply stores_Forall.
  - apply Forall_app. split; [apply nibbles_lt|]. apply Forall_replicate. lia.
  - apply Forall_replicate. lia.
Qed.

Lemma InitHuffmanCodes_defined lens : lens_ok lens -> in_bounds (InitHuffmanCodes lens) = true.
Proof.
  intros Hok. destruct (count_lens_init lens Hok) as (lc & Hc & _).
  rewrite (InitHuffmanCodes_unfold _ _ Hc). cbv zeta.
  destruct (Init.oversubscribed _ _); reflexivity.
Qed.

Lemma InitHuffmanCodes_max lens mb cips :
  InitHuffmanCodes lens = Ret (mb, cips) -> (length lens < 2 ^ 16)%nat ->
  (mb <= 15)%nat /\
  (forall s, (N.to_nat lens.[s] <= mb)%nat) /\
  (mb <> O -> exists s, (s < length lens)%nat /\ N.to_nat lens.[s] = mb).
Proof.
  intros Hrun Hlen.
  destruct (InitHuffmanCodes_codes lens mb cips Hrun) as (Hok & _).
  split; [|split; [apply (InitHuffmanCodes_len_le lens mb cips); assumption|]].
  - destruct (InitHuffmanCodes_find_max lens mb cips Hrun) as (lc & _ & _ & ->).
    apply (find_max_bits_spec lc kMaxHuffmanBits).
  - destruct (InitHuffmanCodes_find_max lens mb cips Hrun) as (lc & _ & Hcnt & ->).
    destruct (find_max_bits_spec lc kMaxHuffmanBits) as (Hle & _ & Hmb).
    set (m := Init.find_max_bits lc kMaxHuffmanBits) in *. unfold kMaxHuffmanBits in *.
    intros Hnz. destruct Hmb as [|Hmb]; [contradiction|].
    rewrite Hcnt in Hmb by assumption.
    assert (Hpos : (0 < num_of_len (N.of_nat m) lens)%nat).
    { destruct (num_of_len (N.of_nat m) lens); [contradiction Hmb; reflexivity|lia]. }
    apply num_of_len_pos_elem, list_elem_of_lookup in Hpos as [s Hs].
    exists s. split; [eapply lookup_lt_Some; eassumption|].
    rewrite (vec_get_lookup _ _ _ Hs). lia.
Qed.

(** [BuildHuffmanCodes] on lengths of at most [bound] bits, with a table of
    [2^bound] entries or more. *)
Lemma BuildHuffmanCodes_in_bounds lens hcodes bound :
  (length lens < 2 ^ 16)%nat -> Forall (fun v => v <= N.of_nat bound) lens ->
  (bound <= 15)%nat -> (2 ^ bound <= length hcodes)%nat ->
  in_bounds (BuildHuffmanCodes std_sort lens hcodes) = true /\
  forall T' mb cips, BuildHuffmanCodes std_sort lens hcodes = Ret (T', mb, cips) ->
    (mb <= bound)%nat /\ length T' = length hcodes.
Proof.
  intros Hlen Hb Hb15 Hsize.
  assert (Hok : lens_ok lens).
  { unfold lens_ok. eapply Forall_impl; [exact Hb|]. intros v Hv. simpl in Hv. lia. }
  assert (Hmb : forall mb cips0, InitHuffmanCodes lens = Ret (mb, cips0) -> (mb <= bound)%nat).
  { intros mb cips0 Hinit.
    destruct (InitHuffmanCodes_max lens mb cips0 Hinit Hlen) as (_ & _ & Hex).
    destruct (Nat.eq_dec mb O) as [->|Hnz]; [lia|].
    destruct (Hex Hnz) as (s & Hs & <-).
    destruct (lookup_lt_is_Some_2 lens s Hs) as [v Hv].
    rewrite (vec_get_lookup _ _ _ Hv). rewrite Forall_lookup in Hb.
    specialize (Hb s v Hv). simpl in Hb. lia. }
  split.
  - pose proof (InitHuffmanCodes_defined lens Hok) as Hdef.
    destruct (InitHuffmanCodes lens) as [[mb cips0]|[]|] eqn:Hinit; [| |discriminate].
    + rewrite (BuildHuffmanCodes_unfold lens hcodes mb cips0 Hinit). cbv zeta.
      assert (Hpow : (2 ^ mb <= length hcodes)%nat).
      { etransitivity; [|exact Hsize]. apply Nat.pow_le_mono_r; [lia|]. eapply Hmb; eauto. }
      destruct (Nat.leb_spec (2 ^ mb) (length hcodes)); [|lia].
      match goal with |- context [expand_codes ?c lens mb ?T] =>
        destruct (expand_codes_Ret lens mb c T) as [T' ->] end; [| |reflexivity].
      * rewrite length_app, length_replicate, length_drop. lia.
      * intros cip Hin. apply (cips_in_table lens mb cips0); auto.
        rewrite std_sort_perm in Hin. exact Hin.
    + rewrite (BuildHuffmanCodes_Fail std_sort lens hcodes Hinit). reflexivity.
  - intros T' mb cips Hrun.
    destruct (BuildHuffmanCodes_table std_sort std_sort_perm lens hcodes T' mb cips)
      as (cips0 & Hinit & _ & _ & HlT & _); [lia|assumption|].
    split; [eapply Hmb; eauto|assumption].
Qed.

(** What the code-length loop needs of the meta table it looks codes up in. *)
Definition meta_ok (ht : HuffmanTable) (max_bits : nat) : Prop :=
  (2 ^ max_bits <= length (code_hcodes_ ht))%nat /\
  forall j hc, (j < 2 ^ max_bits)%nat -> code_hcodes_ ht !! j = Some hc -> valid hc = true ->
    (N.to_nat (N.land hc 0x7FFF) < length (code_lens_ ht))%nat.

Lemma CodeAlphabet_in_bounds ht max_bits br :
  meta_ok ht max_bits -> in_bounds (CodeAlphabet ht (ReadBits max_bits br)) = true.
Proof.
  intros [Hsize Hsym]. unfold CodeAlphabet, vec_load.
  assert (Hj : (N.to_nat (ReadBits max_bits br) < 2 ^ max_bits)%nat).
  { pose proof (ReadBits_lt max_bits br) as H.
    assert (H' : (N.to_nat (ReadBits max_bits br) < N.to_nat (2 ^ N.of_nat max_bits))%nat) by lia.
    rewrite N2Nat.inj_pow, Nat2N.id in H'. exact H'. }
  destruct (lookup_lt_is_Some_2 (code_hcodes_ ht) (N.to_nat (ReadBits max_bits br)))
    as [hc Hhc]; [lia|].
  rewrite Hhc. cbn [mbind outcome_mbind obind]. fold (valid hc).
  destruct (valid hc) eqn:Hv; [|reflexivity]. cbn [test mbind outcome_mbind obind].
  destruct (lookup_lt_is_Some_2 (code_lens_ ht) (N.to_nat (N.land hc 0x7FFF))) as [nb Hnb].
  { eapply Hsym; eauto. }
  rewrite Hnb. reflexivity.
Qed.

Lemma repeat_marker_br_in_bounds code idx br buffer index_ lens :
  length lens = idx ->
  in_bounds (repeat_marker_br code idx br buffer index_ lens) = true.
Proof.
  intros Hlen. unfold repeat_marker_br.
  destruct (code =? 16).
  { destruct (Nat.eqb_spec idx 0); [reflexivity|]. cbn [negb test mbind outcome_mbind obind].
    destruct (CacheBits 2 br); [|reflexivity]. cbn [test mbind outcome_mbind obind].
    unfold vec_load. destruct (lookup_lt_is_Some_2 lens (idx - 1)) as [v ->]; [lia|].
    reflexivity. }
  destruct (code =? 17).
  { destruct (CacheBits 3 br); reflexivity. }
  destruct (code =? 18); [|reflexivity].
  destruct (CacheBits 7 br); reflexivity.
Qed.

(** The reading loop stays in bounds, and [num_codes - idx] iterations are
    enough for it. *)
Lemma code_lengths_br_in_bounds ht max_bits num_codes : meta_ok ht max_bits ->
  forall fuel idx br buffer index_ lens,
  (num_codes <= fuel + idx)%nat -> length lens = idx ->
  in_bounds (code_lengths_br fuel ht max_bits num_codes idx br buffer index_ lens) = true.
Proof.
  intros Hmeta. induction fuel as [|fuel IH]; intros idx br buffer index_ lens Hfuel Hlen.
  - simpl. destruct (Nat.ltb_spec idx num_codes); [lia|reflexivity].
  - rewrite code_lengths_br_step.
    destruct (Nat.ltb_spec idx num_codes); [|reflexivity].
    apply in_bounds_bind; [apply in_bounds_test|intros _ _].
    apply in_bounds_bind.
    { rewrite in_bounds_set_error. apply CodeAlphabet_in_bounds. assumption. }
    intros [code nbits] _.
    apply in_bounds_bind; [apply in_bounds_test|intros _ _].
    destruct (code <? 16).
    + apply IH; [lia|]. rewrite length_app. simpl. lia.
    + apply in_bounds_bind; [apply in_bounds_test|intros _ _].
      apply in_bounds_bind; [apply repeat_marker_br_in_bounds; assumption|].
      intros [[[cn cv] br1] buffer1] Hmark.
      apply repeat_marker_br_Ret in Hmark as (e & base & p & Hm & _ & -> & _).
      destruct (marker_bounds _ _ _ _ (ReadBits e (DropBits nbits br)) Hm (ReadBits_lt _ _))
        as [Hcn _].
      apply IH; [lia|]. rewrite length_app, length_replicate. lia.
Qed.

(** ** BuildDynamicHuffmanTable, DEFLATE bits to puff bytes: bounds *)

Ltac ht_simpl :=
  cbn [code_lens_ code_hcodes_ code_rcodes_ code_max_bits_
       lit_len_lens_ lit_len_hcodes_ lit_len_rcodes_ lit_len_max_bits_
       distance_lens_ distance_hcodes_ distance_rcodes_ distance_max_bits_
       codeindexpairs_ initialized_
       set_code_lens_ set_code_hcodes_ set_code_rcodes_ set_code_max_bits_
       set_lit_len_lens_ set_lit_len_hcodes_ set_lit_len_rcodes_ set_lit_len_max_bits_
       set_distance_lens_ set_distance_hcodes_ set_distance_rcodes_ set_distance_max_bits_
       set_codeindexpairs_ set_initialized_] in *.

(** The sizes the reading direction gives the vectors on its first call,
    and relies on afterwards. A table that [initialized_] does not mark has
    them after [initialize_br], whatever it held. *)
Definition sized_br (ht : HuffmanTable) : Prop :=
  initialized_ ht = true ->
  length (code_lens_ ht) = 19%nat /\ length (code_hcodes_ ht) = (2 ^ 7)%nat /\
  length (lit_len_hcodes_ ht) = (2 ^ 15)%nat /\ length (distance_hcodes_ ht) = (2 ^ 15)%nat.

Lemma initialize_br_sized ht : sized_br ht ->
  initialized_ (initialize_br ht) = true /\
  length (code_lens_ (initialize_br ht)) = 19%nat /\
  length (code_hcodes_ (initialize_br ht)) = (2 ^ 7)%nat /\
  length (lit_len_hcodes_ (initialize_br ht)) = (2 ^ 15)%nat /\
  length (distance_hcodes_ (initialize_br ht)) = (2 ^ 15)%nat.
Proof.
  intros Hs. unfold initialize_br. destruct (initialized_ ht) eqn:Hi.
  - split; [exact Hi|]. exact (Hs Hi).
  - cbv zeta. ht_simpl. rewrite !length_resize. repeat split; reflexivity.
Qed.

Lemma below_pow16 n : (n <= 1024)%nat -> (n < 2 ^ 16)%nat.
Proof.
  intros H. apply (Nat.le_lt_trans _ (2 ^ 10)); [simpl; lia|].
  apply Nat.pow_lt_mono_r; lia.
Qed.

(** The meta table that the header leaves. *)
Lemma meta_built cl hcodes T' mb cips ht' :
  length cl = 19%nat -> Forall (fun v => v < 8) cl -> length hcodes = (2 ^ 7)%nat ->
  BuildHuffmanCodes std_sort cl hcodes = Ret (T', mb, cips) ->
  code_lens_ ht' = cl -> code_hcodes_ ht' = T' ->
  meta_ok ht' mb /\ (mb <= 7)%nat /\ length T' = (2 ^ 7)%nat.
Proof.
  intros Hcl Hlt Hh Hrun Hl HT.
  destruct (BuildHuffmanCodes_in_bounds cl hcodes 7) as [_ Hres].
  { apply below_pow16. lia. }
  { eapply Forall_impl; [exact Hlt|]. intros v Hv. cbv beta in *. lia. }
  { lia. }
  { lia. }
  destruct (Hres T' mb cips Hrun) as [Hmb HlT].
  destruct (BuildHuffmanCodes_Init std_sort cl hcodes T' mb cips Hrun) as (cips0 & Hinit).
  destruct (BuildHuffmanReverseCodes_Init std_sort cl (replicate 19 0) mb cips0 Hinit)
    as (rcodes & cipsw & Hrev).
  destruct (meta_tables_built std_sort std_sort_perm std_sort_sorted
              cl hcodes T' (replicate 19 0) rcodes mb mb cips cipsw)
    as [_ (_ & _ & Hsym)]; auto.
  split; [|split; [assumption|congruence]]. split.
  - rewrite HT, HlT, Hh. apply Nat.pow_le_mono_r; lia.
  - intros j hc Hj Hhc Hv. rewrite HT in Hhc. rewrite Hl, Hcl.
    apply (Hsym j hc Hj Hhc Hv).
Qed.

Lemma meta_ok_ext ht ht' mb : meta_ok ht mb ->
  code_lens_ ht' = code_lens_ ht -> code_hcodes_ ht' = code_hcodes_ ht -> meta_ok ht' mb.
Proof. unfold meta_ok. intros H -> ->. exact H. Qed.

(** X11. The reading direction of [BuildDynamicHuffmanTable] never indexes
    a vector of the table out of bounds, and its loops end, whatever the
    bits and the buffer it is given: on a table that was never initialized,
    or on one that holds the sizes of an earlier call. The accesses are the
    stores to [code_lens_], the loads of [CodeAlphabet], [lens[idx - 1]] of
    a copy marker, the counters of [InitHuffmanCodes], and in
    [BuildHuffmanCodes] the [memset], the stores at [cip.code], the loads
    and stores at [location] and the loads [lens[cip.index]] of its loop.
    (Not among them: the puff buffer, whose accesses the tests on the
    length guard, and the reads of [lens] in the comparator of
    [std::sort].) *)
Theorem BuildDynamicHuffmanTable_br_in_bounds (ht : HuffmanTable) (br : BitReader)
    (buffer : list N) :
  sized_br ht -> in_bounds (BuildDynamicHuffmanTable_br std_sort ht br buffer) = true.
Proof.
  intros Hs. destruct (initialize_br_sized ht Hs) as (Hi & Hcl & Hch & Hlh & Hdh).
  unfold BuildDynamicHuffmanTable_br. cbv zeta. set (ht0 := initialize_br ht) in *.
  apply in_bounds_bind; [apply in_bounds_test|intros ? Hlen3].
  apply test_Ret, Nat.leb_le in Hlen3.
  apply in_bounds_bind; [apply in_bounds_test|intros _ _].
  set (br1 := DropBits 5 br). set (br2 := DropBits 5 br1). set (br3 := DropBits 4 br2).
  set (h1 := ReadBits 5 br). set (h2 := ReadBits 5 br1). set (h3 := ReadBits 4 br2).
  set (buffer3 := <[2%nat:=uint8 h3]> (<[1%nat:=uint8 h2]> (<[0%nat:=uint8 h1]> buffer))).
  pose proof (ReadBits_lt 5 br) as Hh1. fold h1 in Hh1.
  pose proof (ReadBits_lt 5 br1) as Hh2. fold h2 in Hh2.
  pose proof (ReadBits_lt 4 br2) as Hh3. fold h3 in Hh3.
  simpl in Hh1, Hh2, Hh3.
  set (nc := (N.to_nat h3 + 4)%nat).
  apply in_bounds_bind; [apply in_bounds_test|intros ? Hcheck]. apply test_Ret in Hcheck.
  assert (Hnc : (nc <= 19)%nat).
  { unfold CheckHuffmanArrayLengths in Hcheck. apply andb_true_iff in Hcheck as [_ H].
    apply Nat.leb_le in H. exact H. }
  apply in_bounds_bind; [apply in_bounds_test|intros ? Hroom].
  apply test_Ret, Nat.leb_le, half_le in Hroom.
  assert (Hl3 : length buffer3 = length buffer) by (unfold buffer3; rewrite !length_insert; auto).
  apply in_bounds_bind; [apply read_code_lens_in_bounds; assumption|].
  intros [[[[br4 buffer4] index4] checked4] cl4] Hnib.
  destruct (read_code_lens_facts _ _ _ _ _ _ _ _ _ _ _ Hnib)
    as (_ & _ & Hl4 & Hcl4 & Hlcl4 & _);
    [lia|rewrite length_seq; simpl; lia|discriminate|].
  rewrite length_seq in Hcl4.
  apply in_bounds_bind.
  { rewrite clear_code_lens_stores; [reflexivity|].
    apply Forall_forall. intros idx _. rewrite Hlcl4, Hcl. apply perm_lt. }
  intros cl5 Hclear. apply clear_code_lens_Ret in Hclear as [Hcl5 _].
  rewrite length_seq in Hcl5. ht_simpl.
  assert (Hlt8 : Forall (fun v => v < 8) cl5).
  { rewrite Hcl5, Hcl4. apply meta_lens_lt; assumption. }
  assert (Hlcl5 : length cl5 = 19%nat).
  { rewrite Hcl5, length_stores. congruence. }
  apply in_bounds_bind.
  { rewrite in_bounds_set_error. apply (BuildHuffmanCodes_in_bounds cl5 _ 7); try lia.
    - apply below_pow16. lia.
    - eapply Forall_impl; [exact Hlt8|]. intros v Hv. cbv beta in *. lia. }
  intros [[hcodes mb] cips] Hmeta. apply set_error_Ret in Hmeta. ht_simpl.
  set (ht1 := set_codeindexpairs_ _ cips).
  destruct (meta_built cl5 _ hcodes mb cips ht1 Hlcl5 Hlt8 Hch Hmeta eq_refl eq_refl)
    as (Hmok & Hmb7 & _).
  apply in_bounds_bind.
  { unfold BuildHuffmanCodeLengths_br. apply code_lengths_br_in_bounds; auto. lia. }
  intros [[[br5 sub1] bytes1] lens1] Hlit.
  unfold BuildHuffmanCodeLengths_br in Hlit.
  apply code_lengths_br_output in Hlit as (Hok1 & Hn1 & _); [|lia|constructor|reflexivity].
  assert (Hlen1 : (length lens1 <= N.to_nat h1 + 257 + 137)%nat).
  { destruct (Nat.ltb_spec 0 (N.to_nat h1 + 257)); [lia|]. subst lens1. simpl. lia. }
  ht_simpl.
  apply in_bounds_bind.
  { rewrite in_bounds_set_error. apply (BuildHuffmanCodes_in_bounds lens1 _ 15); try lia.
    - apply below_pow16. lia.
    - exact Hok1. }
  intros [[hcodes1 mb1] cips1] Hlitc. ht_simpl.
  set (ht2 := set_codeindexpairs_ _ cips1).
  apply in_bounds_bind.
  { unfold BuildHuffmanCodeLengths_br. apply code_lengths_br_in_bounds; [|lia|reflexivity].
    apply (meta_ok_ext ht1); [assumption|reflexivity|reflexivity]. }
  intros [[[br6 sub2] bytes2] lens2] Hdist.
  unfold BuildHuffmanCodeLengths_br in Hdist.
  apply code_lengths_br_output in Hdist as (Hok2 & Hn2 & _); [|lia|constructor|reflexivity].
  assert (Hlen2 : (length lens2 <= N.to_nat h2 + 1 + 137)%nat).
  { destruct (Nat.ltb_spec 0 (N.to_nat h2 + 1)); [lia|]. subst lens2. simpl. lia. }
  ht_simpl.
  apply in_bounds_bind; [|intros [[hcodes2 mb2] cips2] _; reflexivity].
  rewrite in_bounds_set_error. apply (BuildHuffmanCodes_in_bounds lens2 _ 15); try lia.
  - apply below_pow16. lia.
  - exact Hok2.
Qed.

Lemma read_code_lens_tail idxs :
  forall br rbuf index_ checked cl br' rbuf' index' checked' cl',
  read_code_lens idxs br rbuf index_ checked cl = Ret (br', rbuf', index', checked', cl') ->
  ((if checked : bool then S index_ else index_) <=
   (if checked' : bool then S index' else index'))%nat /\
  forall j, ((if checked' : bool then S index' else index') <= j)%nat -> rbuf'.[j] = rbuf.[j].
Proof.
  induction idxs as [|idx idxs IH];
    intros br rbuf index_ checked cl br' rbuf' index' checked' cl' Hrun.
  - simpl in Hrun. injection Hrun as <- <- <- <- <-. split; auto.
  - cbn [read_code_lens] in Hrun.
    run_step Hrun as ? eqn Hc. run_step Hrun as cl1 eqn Hst.
    destruct checked.
    + apply IH in Hrun as [Hle Htail]. cbn [negb] in Hle. split; [lia|].
      intros j Hj. rewrite Htail by assumption. apply vec_get_insert_ne. lia.
    + apply IH in Hrun as [Hle Htail]. cbn [negb] in Hle. split; [lia|].
      intros j Hj. rewrite Htail by assumption. apply vec_get_insert_ne. lia.
Qed.

(** The buffer with the bytes that a code-length sequence wrote behind
    [index_]. *)
Lemma splice_get (buf sub : list N) index_ j :
  (index_ <= length buf)%nat ->
  (take index_ buf ++ sub).[j] = if (j <? index_)%nat then buf.[j] else sub.[(j - index_)%nat].
Proof.
  intros Hi. destruct (Nat.ltb_spec j index_).
  - apply vec_get_take_app_l; assumption.
  - replace j with (index_ + (j - index_))%nat at 1 by lia.
    apply vec_get_take_app_r. assumption.
Qed.

(** X12. What an accepting call of the reading direction leaves. The table
    is marked initialized and has the sizes the next call relies on; the
    19 meta lengths are three-bit values; the literal/length and distance
    lengths are between 0 and 15, at least as many as the header announces
    (at most 286 and 30) and at most 137 more. The puff buffer keeps its
    size; its first three bytes are HLIT, HDIST and HCLEN, and the bytes
    from the returned length on are untouched. No puff header has more
    than 329 bytes. *)
Theorem BuildDynamicHuffmanTable_br_leaves (ht ht' : HuffmanTable) (br br' : BitReader)
    (buffer buffer' : list N) (length_ : nat) :
  BuildDynamicHuffmanTable_br std_sort ht br buffer = Ret (ht', br', buffer', length_) ->
  sized_br ht ->
  let hlit := ReadBits 5 br in
  let hdist := ReadBits 5 (DropBits 5 br) in
  let hclen := ReadBits 4 (DropBits 5 (DropBits 5 br)) in
  (initialized_ ht' = true /\ sized_br ht') /\
  (length buffer' = length buffer /\ (3 <= length_ <= length buffer)%nat /\
   (length_ <= 329)%nat /\
   buffer'.[0%nat] = hlit /\ buffer'.[1%nat] = hdist /\ buffer'.[2%nat] = hclen /\
   forall j, (length_ <= j)%nat -> buffer'.[j] = buffer.[j]) /\
  (length (code_lens_ ht') = 19%nat /\ Forall (fun v => v < 8) (code_lens_ ht')) /\
  (lens_ok (lit_len_lens_ ht') /\ (N.to_nat hlit + 257 <= 286)%nat /\
   (N.to_nat hlit + 257 <= length (lit_len_lens_ ht') <= N.to_nat hlit + 257 + 137)%nat) /\
  (lens_ok (distance_lens_ ht') /\ (N.to_nat hdist + 1 <= 30)%nat /\
   (N.to_nat hdist + 1 <= length (distance_lens_ ht') <= N.to_nat hdist + 1 + 137)%nat).
Proof.
  intros Hrun Hs. cbv zeta.
  destruct (initialize_br_sized ht Hs) as (Hi & Hcl & Hch & Hlh & Hdh).
  unfold BuildDynamicHuffmanTable_br in Hrun. cbv zeta in Hrun.
  set (ht0 := initialize_br ht) in *.
  run_step Hrun as ? eqn Hlen. apply test_Ret, Nat.leb_le in Hlen.
  run_step Hrun as ? eqn Hc14.
  set (br1 := DropBits 5 br) in *. set (br2 := DropBits 5 br1) in *.
  set (br3 := DropBits 4 br2) in *.
  set (h1 := ReadBits 5 br) in *. set (h2 := ReadBits 5 br1) in *.
  set (h3 := ReadBits 4 br2) in *.
  set (buffer3 := <[2%nat:=uint8 h3]> (<[1%nat:=uint8 h2]> (<[0%nat:=uint8 h1]> buffer))) in *.
  set (nc := (N.to_nat h3 + 4)%nat) in *.
  run_step Hrun as ? eqn Hcheck. apply test_Ret in Hcheck.
  run_step Hrun as ? eqn Hroom. apply test_Ret, Nat.leb_le, half_le in Hroom.
  run_step Hrun as [[[[br4 buffer4] index4] checked4] cl4] eqn Hnib.
  run_step Hrun as cl5 eqn Hclear.
  ht_simpl.
  run_step Hrun as [[hcodes mb] cips] eqn Hmeta. apply set_error_Ret in Hmeta.
  ht_simpl.
  set (index5 := if checked4 then S index4 else index4) in *.
  set (ht1 := set_codeindexpairs_ _ cips) in *.
  run_step Hrun as [[[br5 sub1] bytes1] lens1] eqn Hlit.
  run_step Hrun as [[hcodes1 mb1] cips1] eqn Hlitc. apply set_error_Ret in Hlitc.
  set (ht2 := set_codeindexpairs_ _ cips1) in *.
  set (buffer6 := take index5 buffer4 ++ sub1) in *.
  run_step Hrun as [[[br6 sub2] bytes2] lens2] eqn Hdist.
  run_step Hrun as [[hcodes2 mb2] cips2] eqn Hdistc. apply set_error_Ret in Hdistc.
  injection Hrun as <- <- <- <-. ht_simpl.
  (* The header. *)
  assert (Hl3 : length buffer3 = length buffer) by (unfold buffer3; rewrite !length_insert; auto).
  pose proof (ReadBits_lt 5 br) as Hh1. fold h1 in Hh1.
  pose proof (ReadBits_lt 5 br1) as Hh2. fold h2 in Hh2.
  pose proof (ReadBits_lt 4 br2) as Hh3. fold h3 in Hh3.
  simpl in Hh1, Hh2, Hh3.
  unfold CheckHuffmanArrayLengths in Hcheck.
  apply andb_true_iff in Hcheck as [Hcheck Hnc]. apply andb_true_iff in Hcheck as [Hnl Hnd].
  apply Nat.leb_le in Hnc, Hnl, Hnd. fold nc in Hnc.
  destruct (read_code_lens_facts _ _ _ _ _ _ _ _ _ _ _ Hnib)
    as (_ & _ & Hl4 & Hcl4 & Hlcl4 & _ & Hidx4 & Hlow4 & _);
    [lia|rewrite length_seq; simpl; lia|discriminate|].
  rewrite length_seq in Hcl4, Hidx4. fold index5 in Hidx4.
  destruct (read_code_lens_tail _ _ _ _ _ _ _ _ _ _ _ Hnib) as [_ Htail4].
  fold index5 in Htail4.
  assert (Hidx5 : (3 <= index5 <= length buffer4)%nat /\ (index5 <= 13)%nat)
    by (destruct checked4; lia).
  destruct Hidx5 as [Hidx5 Hidx13].
  apply clear_code_lens_Ret in Hclear as [Hcl5 _]. rewrite length_seq in Hcl5.
  assert (Hlt8 : Forall (fun v => v < 8) cl5).
  { rewrite Hcl5, Hcl4. apply meta_lens_lt; assumption. }
  assert (Hlcl5 : length cl5 = 19%nat).
  { rewrite Hcl5, length_stores. congruence. }
  destruct (meta_built cl5 _ hcodes mb cips ht1 Hlcl5 Hlt8 Hch Hmeta eq_refl eq_refl)
    as (_ & _ & Hlhc).
  (* The two sequences. *)
  unfold BuildHuffmanCodeLengths_br in Hlit, Hdist.
  destruct (code_lengths_br_facts _ _ _ _ _ _ _ _ _ _ _ _ _ Hlit) as (Hls1 & Hb1 & _ & _); [lia|].
  apply code_lengths_br_output in Hlit as (Hok1 & Hn1 & Hcnt1 & _ & Hrest1 & _);
    [|lia|constructor|reflexivity].
  rewrite length_drop in Hls1, Hb1.
  assert (Hl6 : length buffer6 = length buffer4).
  { unfold buffer6. rewrite length_app, length_take, Hls1. lia. }
  destruct (code_lengths_br_facts _ _ _ _ _ _ _ _ _ _ _ _ _ Hdist) as (Hls2 & Hb2 & _ & _); [lia|].
  apply code_lengths_br_output in Hdist as (Hok2 & Hn2 & Hcnt2 & _ & Hrest2 & _);
    [|lia|constructor|reflexivity].
  rewrite length_drop, Hl6 in Hls2, Hb2.
  set (buffer7 := take (index5 + bytes1) buffer6 ++ sub2) in *.
  assert (Hl7 : length buffer7 = length buffer4).
  { unfold buffer7. rewrite length_app, length_take, Hls2, Hl6. lia. }
  destruct (BuildHuffmanCodes_in_bounds lens1 (lit_len_hcodes_ ht0) 15) as [_ Hres1];
    [apply below_pow16; destruct (Nat.ltb_spec 0 (N.to_nat h1 + 257)); [lia|];
     subst lens1; simpl; lia|exact Hok1|lia|lia|].
  destruct (Hres1 _ _ _ Hlitc) as [_ Hlh1].
  destruct (BuildHuffmanCodes_in_bounds lens2 (distance_hcodes_ ht0) 15) as [_ Hres2];
    [apply below_pow16; destruct (Nat.ltb_spec 0 (N.to_nat h2 + 1)); [lia|];
     subst lens2; simpl; lia|exact Hok2|lia|lia|].
  destruct (Hres2 _ _ _ Hdistc) as [_ Hdh2].
  assert (Hget : forall j, buffer7.[j] =
            if (j <? index5)%nat then buffer4.[j]
            else if (j <? index5 + bytes1)%nat then sub1.[(j - index5)%nat]
            else sub2.[(j - (index5 + bytes1))%nat]).
  { intros j. unfold buffer7. rewrite splice_get by lia.
    destruct (Nat.ltb_spec j (index5 + bytes1)); destruct (Nat.ltb_spec j index5); try lia;
      auto; unfold buffer6; rewrite splice_get by lia.
    - destruct (Nat.ltb_spec j index5); [reflexivity|lia].
    - destruct (Nat.ltb_spec j index5); [lia|reflexivity]. }
  assert (Hhead : forall j, (j < 3)%nat -> buffer7.[j] = buffer3.[j]).
  { intros j Hj. rewrite Hget. destruct (Nat.ltb_spec j index5); [|lia]. apply Hlow4. lia. }
  unfold sized_br, ht2, ht1. ht_simpl.
  split; [split; [assumption|]|].
  { intros _. split; [|split; [|split]]; congruence. }
  split; [|split; [split; assumption|]].
  - split; [congruence|]. split; [lia|]. split; [lia|]. split; [|split; [|split]].
    + rewrite Hhead by lia. unfold buffer3. rewrite !vec_get_insert_ne by lia.
      rewrite vec_get_insert_eq by lia. apply uint8_small. simpl; lia.
    + rewrite Hhead by lia. unfold buffer3. rewrite vec_get_insert_ne by lia.
      rewrite vec_get_insert_eq by (rewrite length_insert; lia). apply uint8_small. simpl; lia.
    + rewrite Hhead by lia. unfold buffer3.
      rewrite vec_get_insert_eq by (rewrite !length_insert; lia). apply uint8_small. simpl; lia.
    + intros j Hj. rewrite Hget.
      destruct (Nat.ltb_spec j index5); [lia|].
      destruct (Nat.ltb_spec j (index5 + bytes1)); [lia|].
      rewrite Hrest2 by lia. rewrite vec_get_drop. unfold buffer6.
      rewrite splice_get by lia.
      destruct (Nat.ltb_spec (index5 + bytes1 + (j - (index5 + bytes1))) index5); [lia|].
      rewrite Hrest1 by lia. rewrite vec_get_drop.
      replace (index5 + (index5 + bytes1 + (j - (index5 + bytes1)) - index5))%nat with j by lia.
      rewrite Htail4 by lia. unfold buffer3. rewrite !vec_get_insert_ne by lia. reflexivity.
  - split.
    + split; [assumption|]. split; [lia|].
      destruct (Nat.ltb_spec 0 (N.to_nat h1 + 257)); [lia|]. subst lens1. simpl. lia.
    + split; [assumption|]. split; [lia|].
      destruct (Nat.ltb_spec 0 (N.to_nat h2 + 1)); [lia|]. subst lens2. simpl. lia.
Qed.

(** ** BuildDynamicHuffmanTable, puff bytes to DEFLATE bits: bounds *)

(** The values that the nibble loop of the writing direction stores. *)
Fixpoint puff_nibbles (n : nat) (buffer : list N) (index_ : nat) (checked : bool) : list N :=
  match n with
  | O => []
  | S n =>
      if checked
      then N.land buffer.[index_] 0x0F :: puff_nibbles n buffer (S index_) false
      else N.shiftr buffer.[index_] 4 :: puff_nibbles n buffer index_ true
  end.

Lemma length_puff_nibbles n : forall buffer index_ checked,
  length (puff_nibbles n buffer index_ checked) = n.
Proof. induction n as [|n IH]; intros buffer index_ [|]; simpl; auto. Qed.

Lemma vec_get_byte (buffer : list N) j : Forall (fun b => b < 256) buffer -> buffer.[j] < 256.
Proof. intros H. apply vec_get_lt; [lia|assumption]. Qed.

Lemma puff_nibbles_le n : forall buffer index_ checked,
  Forall (fun b => b < 256) buffer ->
  Forall (fun v => v <= 15) (puff_nibbles n buffer index_ checked).
Proof.
  induction n as [|n IH]; intros buffer index_ checked Hb; simpl; [constructor|].
  pose proof (vec_get_byte buffer index_ Hb) as Hlt.
  destruct checked; constructor; auto.
  - rewrite land_15. pose proof (N.mod_upper_bound buffer.[index_] 16). lia.
  - rewrite shiftr_4. apply N.lt_succ_r. apply N.Div0.div_lt_upper_bound. simpl. lia.
Qed.

Lemma write_code_lens_stores idxs : forall buffer index_ checked cl bw index' checked' cl' bw',
  write_code_lens idxs buffer index_ checked cl bw = Ret (index', checked', cl', bw') ->
  cl' = stores idxs (puff_nibbles (length idxs) buffer index_ checked) cl /\
  bw_size bw' = bw_size bw /\
  (exists c, bw_bits bw' = bw_bits bw ++ c /\ length c = (3 * length idxs)%nat) /\
  (length (bw_bits bw) <= bw_size bw -> length (bw_bits bw') <= bw_size bw')%nat.
Proof.
  induction idxs as [|idx idxs IH]; intros buffer index_ checked cl bw index' checked' cl' bw' Hrun.
  - simpl in Hrun. injection Hrun as <- <- <- <-. simpl. repeat split; auto.
    exists []. rewrite app_nil_r. auto.
  - cbn [write_code_lens] in Hrun. cbn [length puff_nibbles stores].
    destruct checked.
    + run_step Hrun as cl1 eqn Hst. apply vec_store_Ret in Hst as [_ ->].
      run_step Hrun as bw1 eqn Hw. rewrite write_or_room in Hw. unfold has_room in Hw.
      destruct (Nat.leb_spec (length (bw_bits bw) + 3) (bw_size bw)); [|discriminate].
      injection Hw as <-.
      apply IH in Hrun as (-> & Hs & (c & Hc & Hlc) & Hr). cbn [bw_bits bw_size] in Hs, Hc, Hr.
      repeat split; auto.
      * exists (N_to_bits 3 (N.land buffer.[index_] 0x0F) ++ c). split.
        -- rewrite Hc, <- app_assoc. reflexivity.
        -- rewrite length_app, length_N_to_bits. lia.
      * intros _. apply Hr. rewrite length_app. cbn [length]. lia.
    + run_step Hrun as cl1 eqn Hst. apply vec_store_Ret in Hst as [_ ->].
      run_step Hrun as bw1 eqn Hw. rewrite write_or_room in Hw. unfold has_room in Hw.
      destruct (Nat.leb_spec (length (bw_bits bw) + 3) (bw_size bw)); [|discriminate].
      injection Hw as <-.
      apply IH in Hrun as (-> & Hs & (c & Hc & Hlc) & Hr). cbn [bw_bits bw_size] in Hs, Hc, Hr.
      repeat split; auto.
      * exists (N_to_bits 3 (N.shiftr buffer.[index_] 4) ++ c). split.
        -- rewrite Hc, <- app_assoc. reflexivity.
        -- rewrite length_app, length_N_to_bits. lia.
      * intros _. apply Hr. rewrite length_app. cbn [length]. lia.
Qed.

Lemma write_code_lens_in_bounds idxs : forall buffer index_ checked cl bw,
  length cl = 19%nat -> in_bounds (write_code_lens idxs buffer index_ checked cl bw) = true.
Proof.
  induction idxs as [|idx idxs IH]; intros buffer index_ checked cl bw Hcl; [reflexivity|].
  cbn [write_code_lens].
  destruct checked.
  - rewrite vec_store_lt by (rewrite Hcl; apply perm_lt). cbn [mbind outcome_mbind obind].
    apply in_bounds_bind; [apply in_bounds_write_or|intros bw1 _].
    apply IH. rewrite length_insert. assumption.
  - rewrite vec_store_lt by (rewrite Hcl; apply perm_lt). cbn [mbind outcome_mbind obind].
    apply in_bounds_bind; [apply in_bounds_write_or|intros bw1 _].
    apply IH. rewrite length_insert. assumption.
Qed.

(** The 19 meta lengths after the two loops, for any stored values. *)
Lemma meta_lens_Forall (P : N -> Prop) nc vs cl :
  (nc <= 19)%nat -> length cl = 19%nat -> length vs = nc -> Forall P vs -> P 0 ->
  Forall P (stores (seq nc (19 - nc)) (replicate (19 - nc) 0) (stores (seq 0 nc) vs cl)).
Proof.
  intros Hnc Hcl Hvs HP H0.
  rewrite stores_app by (rewrite length_seq; auto).
  replace (seq 0 nc ++ seq nc (19 - nc)) with (seq 0 19).
  2:{ replace 19%nat with (nc + (19 - nc))%nat at 1 by lia. apply seq_app. }
  rewrite (stores_full _ cl (replicate 19 0)); auto.
  2:{ rewrite length_app, length_replicate. lia. }
  apply stores_Forall.
  - apply Forall_app. split; [assumption|]. apply Forall_replicate. assumption.
  - apply Forall_replicate. assumption.
Qed.

Lemma length_reverse_codes idxs : forall index_ cips rcodes,
  length (reverse_codes idxs index_ cips rcodes) = length rcodes.
Proof.
  induction idxs as [|idx idxs IH]; intros index_ cips rcodes; simpl; auto.
  destruct (cips !! index_) as [cip|]; [destruct (_ =? _)|]; rewrite IH; apply length_insert.
Qed.

Lemma BuildHuffmanReverseCodes_in_bounds lens rcodes : lens_ok lens ->
  in_bounds (BuildHuffmanReverseCodes std_sort lens rcodes) = true /\
  forall rcodes' mb cips, BuildHuffmanReverseCodes std_sort lens rcodes = Ret (rcodes', mb, cips) ->
    length rcodes' = length rcodes.
Proof.
  intros Hok. pose proof (InitHuffmanCodes_defined lens Hok) as Hdef.
  unfold BuildHuffmanReverseCodes.
  destruct (InitHuffmanCodes lens) as [[mb cips0]|[]|]; [| |discriminate];
    cbn [mbind outcome_mbind obind]; split; try reflexivity; try discriminate.
  intros rcodes' mb' cips [= <- _ _]. apply length_reverse_codes.
Qed.

(** What the writing loop needs of the table it looks codes up in. *)
Lemma CodeHuffman_in_bounds ht code :
  length (code_rcodes_ ht) = length (code_lens_ ht) -> in_bounds (CodeHuffman ht code) = true.
Proof.
  intros Hl. unfold CodeHuffman, vec_load.
  destruct (Nat.ltb_spec (N.to_nat code) (length (code_lens_ ht))) as [Hlt|]; [|reflexivity].
  cbn [test mbind outcome_mbind obind].
  destruct (lookup_lt_is_Some_2 (code_rcodes_ ht) (N.to_nat code)) as [rc ->]; [lia|].
  destruct (lookup_lt_is_Some_2 (code_lens_ ht) (N.to_nat code)) as [nb ->]; [lia|].
  reflexivity.
Qed.

Lemma repeat_marker_bw_in_bounds code pcode idx bw lens :
  length lens = idx -> in_bounds (repeat_marker_bw code pcode idx bw lens) = true.
Proof.
  intros Hlen. unfold repeat_marker_bw.
  destruct (code =? 16).
  { destruct (Nat.eqb_spec idx 0); [reflexivity|]. cbn [negb test mbind outcome_mbind obind].
    apply in_bounds_bind; [apply in_bounds_write_or|intros bw1 _].
    unfold vec_load. destruct (lookup_lt_is_Some_2 lens (idx - 1)) as [v ->]; [lia|].
    reflexivity. }
  destruct (code =? 17).
  { apply in_bounds_bind; [apply in_bounds_write_or|intros bw1 _]. reflexivity. }
  destruct (code =? 18); [|reflexivity].
  apply in_bounds_bind; [apply in_bounds_write_or|intros bw1 _]. reflexivity.
Qed.

Lemma code_lengths_bw_in_bounds ht num_codes :
  length (code_rcodes_ ht) = length (code_lens_ ht) ->
  forall fuel idx buffer index_ bw lens,
  (num_codes <= fuel + idx)%nat -> length lens = idx ->
  in_bounds (code_lengths_bw fuel ht num_codes idx buffer index_ bw lens) = true.
Proof.
  intros Hmeta. induction fuel as [|fuel IH]; intros idx buffer index_ bw lens Hfuel Hlen.
  - simpl. destruct (Nat.ltb_spec idx num_codes); [lia|reflexivity].
  - rewrite code_lengths_bw_step. cbv zeta.
    destruct (Nat.ltb_spec idx num_codes); [|reflexivity].
    apply in_bounds_bind; [apply in_bounds_test|intros _ _].
    apply in_bounds_bind; [apply in_bounds_test|intros ? H155].
    apply test_Ret, N.leb_le in H155.
    set (pcode := buffer.[index_]) in *.
    set (code := if pcode <? 16 then pcode else if pcode <? 20 then 16
                 else if pcode <? 28 then 17 else 18) in *.
    apply in_bounds_bind.
    { rewrite in_bounds_set_error. apply CodeHuffman_in_bounds. assumption. }
    intros [hcode nbits] _.
    apply in_bounds_bind; [apply in_bounds_write_or|intros bw1 _].
    destruct (N.ltb_spec code 16) as [|Hc16].
    + apply IH; [lia|]. rewrite length_app. simpl. lia.
    + apply in_bounds_bind; [apply repeat_marker_bw_in_bounds; assumption|].
      intros [[cn cv] bw2] Hmark.
      apply repeat_marker_bw_cases in Hmark as (Hcn & _);
        [|apply N.ltb_ge; assumption|reflexivity|assumption].
      apply IH; [lia|]. rewrite length_app, length_replicate. lia.
Qed.

(** The sizes the writing direction gives the vectors on its first call,
    and relies on afterwards. *)
Definition sized_bw (ht : HuffmanTable) : Prop :=
  initialized_ ht = true ->
  length (code_lens_ ht) = 19%nat /\ length (code_rcodes_ ht) = 19%nat.

Lemma initialize_bw_sized ht : sized_bw ht ->
  initialized_ (initialize_bw ht) = true /\
  length (code_lens_ (initialize_bw ht)) = 19%nat /\
  length (code_rcodes_ (initialize_bw ht)) = 19%nat.
Proof.
  intros Hs. unfold initialize_bw. destruct (initialized_ ht) eqn:Hi.
  - split; [exact Hi|]. exact (Hs Hi).
  - cbv zeta. ht_simpl. rewrite !length_resize. repeat split; reflexivity.
Qed.

(** X13. The writing direction of [BuildDynamicHuffmanTable] never indexes
    a vector of the table out of bounds, and its loops end, whatever the
    bytes and the writer it is given: on a table that was never initialized,
    or on one that holds the sizes of an earlier call. (The accesses to the
    puff buffer are the ones its tests on the length guard.) *)
Theorem BuildDynamicHuffmanTable_bw_in_bounds (ht : HuffmanTable) (buffer : list N)
    (bw : BitWriter) :
  sized_bw ht -> Forall (fun b => b < 256) buffer ->
  in_bounds (BuildDynamicHuffmanTable_bw std_sort ht buffer bw) = true.
Proof.
  intros Hs Hbytes. destruct (initialize_bw_sized ht Hs) as (Hi & Hcl & Hcr).
  unfold BuildDynamicHuffmanTable_bw. cbv zeta. set (ht0 := initialize_bw ht) in *.
  apply in_bounds_bind; [apply in_bounds_test|intros ? Hlen3].
  apply test_Ret, Nat.leb_le in Hlen3.
  apply in_bounds_bind; [apply in_bounds_write_or|intros bw1 _].
  apply in_bounds_bind; [apply in_bounds_write_or|intros bw2 _].
  apply in_bounds_bind; [apply in_bounds_write_or|intros bw3 _].
  pose proof (vec_get_byte buffer 0 Hbytes) as Hh1.
  pose proof (vec_get_byte buffer 1 Hbytes) as Hh2.
  set (h1 := buffer.[0%nat]) in *. set (h2 := buffer.[1%nat]) in *.
  set (nc := (N.to_nat buffer.[2%nat] + 4)%nat).
  apply in_bounds_bind; [apply in_bounds_test|intros ? Hcheck]. apply test_Ret in Hcheck.
  unfold CheckHuffmanArrayLengths in Hcheck.
  apply andb_true_iff in Hcheck as [Hcheck Hnc]. apply andb_true_iff in Hcheck as [Hnl Hnd].
  apply Nat.leb_le in Hnc, Hnl, Hnd. fold nc in Hnc.
  apply in_bounds_bind; [apply in_bounds_test|intros _ _].
  apply in_bounds_bind; [apply write_code_lens_in_bounds; assumption|].
  intros [[[index4 checked4] cl4] bw4] Hnib.
  apply write_code_lens_stores in Hnib as (Hcl4 & _). rewrite length_seq in Hcl4.
  assert (Hlcl4 : length cl4 = 19%nat) by (rewrite Hcl4, length_stores; assumption).
  apply in_bounds_bind.
  { rewrite clear_code_lens_stores; [reflexivity|].
    apply Forall_forall. intros idx _. rewrite Hlcl4. apply perm_lt. }
  intros cl5 Hclear. apply clear_code_lens_Ret in Hclear as [Hcl5 _].
  rewrite length_seq in Hcl5. ht_simpl.
  assert (Hok5 : lens_ok cl5).
  { rewrite Hcl5, Hcl4. apply meta_lens_Forall; auto; [apply length_puff_nibbles| |lia].
    apply puff_nibbles_le. assumption. }
  assert (Hlcl5 : length cl5 = 19%nat).
  { rewrite Hcl5, length_stores. assumption. }
  destruct (BuildHuffmanReverseCodes_in_bounds cl5 (code_rcodes_ ht0) Hok5) as [Hdef Hres].
  apply in_bounds_bind; [rewrite in_bounds_set_error; assumption|].
  intros [[rcodes mb] cips] Hmeta. apply set_error_Ret in Hmeta. ht_simpl.
  apply Hres in Hmeta.
  set (ht1 := set_codeindexpairs_ _ cips).
  assert (Hm1 : length (code_rcodes_ ht1) = length (code_lens_ ht1)).
  { unfold ht1. ht_simpl. congruence. }
  apply in_bounds_bind.
  { unfold BuildHuffmanCodeLengths_bw. apply code_lengths_bw_in_bounds; auto. lia. }
  intros [[bytes1 bw5] lens1] Hlit.
  unfold BuildHuffmanCodeLengths_bw in Hlit.
  apply code_lengths_bw_output in Hlit as (Hok1 & _); [|lia|constructor|reflexivity].
  ht_simpl.
  apply in_bounds_bind.
  { rewrite in_bounds_set_error. apply BuildHuffmanReverseCodes_in_bounds. assumption. }
  intros [[rcodes1 mb1] cips1] _. ht_simpl.
  set (ht2 := set_codeindexpairs_ _ cips1).
  apply in_bounds_bind.
  { unfold BuildHuffmanCodeLengths_bw. apply code_lengths_bw_in_bounds; [|lia|reflexivity].
    unfold ht2, ht1. ht_simpl. congruence. }
  intros [[bytes2 bw6] lens2] Hdist.
  unfold BuildHuffmanCodeLengths_bw in Hdist.
  apply code_lengths_bw_output in Hdist as (Hok2 & _); [|lia|constructor|reflexivity].
  ht_simpl.
  apply in_bounds_bind.
  { rewrite in_bounds_set_error. apply BuildHuffmanReverseCodes_in_bounds. assumption. }
  intros [[rcodes2 mb2] cips2] _.
  apply in_bounds_bind; [apply in_bounds_test|intros _ _]. reflexivity.
Qed.

Lemma write_or_Ret n v bw e bw' : write_or n v bw e = Ret bw' ->
  bw_size bw' = bw_size bw /\ bw_bits bw' = bw_bits bw ++ N_to_bits n v /\
  (length (bw_bits bw') <= bw_size bw')%nat.
Proof.
  rewrite write_or_room. unfold has_room.
  destruct (Nat.leb_spec (length (bw_bits bw) + n) (bw_size bw)); [|discriminate].
  intros [= <-]. cbn [bw_bits bw_size]. rewrite length_app, length_N_to_bits. auto.
Qed.

Lemma BuildHuffmanReverseCodes_lens_ok lens rcodes rcodes' mb cips :
  BuildHuffmanReverseCodes std_sort lens rcodes = Ret (rcodes', mb, cips) ->
  lens_ok lens /\ length rcodes' = length rcodes.
Proof.
  intros Hrun. unfold BuildHuffmanReverseCodes in Hrun.
  destruct (InitHuffmanCodes lens) as [[mb0 cips0]| |] eqn:Hinit; try discriminate.
  cbn [mbind outcome_mbind obind] in Hrun. injection Hrun as <- _ _.
  split; [|apply length_reverse_codes].
  apply (InitHuffmanCodes_codes lens mb0 cips0 Hinit).
Qed.

(** X17. What an accepting call of the writing direction leaves. The table
    is marked initialized and has the sizes the next call relies on; the
    meta, literal/length and distance lengths are between 0 and 15, the
    last two at least as many as the header announces (at most 286 and 30)
    and at most 137 more. The puff header, which is read to its end, has
    at most 329 bytes. The writer keeps its size and its bits, behind which
    it has the header: 14 bits, three per meta length, and the two
    sequences, all within its size. *)
Theorem BuildDynamicHuffmanTable_bw_leaves (ht ht' : HuffmanTable) (buffer : list N)
    (bw bw' : BitWriter) :
  BuildDynamicHuffmanTable_bw std_sort ht buffer bw = Ret (ht', bw') ->
  sized_bw ht ->
  let hlit := buffer.[0%nat] in
  let hdist := buffer.[1%nat] in
  let hclen := buffer.[2%nat] in
  (initialized_ ht' = true /\ sized_bw ht') /\
  (3 <= length buffer <= 329)%nat /\
  (bw_size bw' = bw_size bw /\ (length (bw_bits bw') <= bw_size bw')%nat /\
   exists header, bw_bits bw' = bw_bits bw ++ header /\
     (14 + 3 * (N.to_nat hclen + 4) <= length header)%nat) /\
  (length (code_lens_ ht') = 19%nat /\ lens_ok (code_lens_ ht')) /\
  (lens_ok (lit_len_lens_ ht') /\ (N.to_nat hlit + 257 <= 286)%nat /\
   (N.to_nat hlit + 257 <= length (lit_len_lens_ ht') <= N.to_nat hlit + 257 + 137)%nat) /\
  (lens_ok (distance_lens_ ht') /\ (N.to_nat hdist + 1 <= 30)%nat /\
   (N.to_nat hdist + 1 <= length (distance_lens_ ht') <= N.to_nat hdist + 1 + 137)%nat).
Proof.
  intros Hrun Hs. cbv zeta.
  destruct (initialize_bw_sized ht Hs) as (Hi & Hcl & Hcr).
  unfold BuildDynamicHuffmanTable_bw in Hrun. cbv zeta in Hrun.
  set (ht0 := initialize_bw ht) in *.
  run_step Hrun as ? eqn Hlen. apply test_Ret, Nat.leb_le in Hlen.
  run_step Hrun as bw1 eqn Hw1. apply write_or_Ret in Hw1 as (Hs1 & Hb1 & _).
  run_step Hrun as bw2 eqn Hw2. apply write_or_Ret in Hw2 as (Hs2 & Hb2 & _).
  run_step Hrun as bw3 eqn Hw3. apply write_or_Ret in Hw3 as (Hs3 & Hb3 & Hr3).
  set (h1 := buffer.[0%nat]) in *. set (h2 := buffer.[1%nat]) in *.
  set (h3 := buffer.[2%nat]) in *. set (nc := (N.to_nat h3 + 4)%nat) in *.
  run_step Hrun as ? eqn Hcheck. apply test_Ret in Hcheck.
  unfold CheckHuffmanArrayLengths in Hcheck.
  apply andb_true_iff in Hcheck as [Hcheck Hnc]. apply andb_true_iff in Hcheck as [Hnl Hnd].
  apply Nat.leb_le in Hnc, Hnl, Hnd.
  run_step Hrun as ? eqn Hroom. apply test_Ret, Nat.leb_le, half_le in Hroom.
  run_step Hrun as [[[index4 checked4] cl4] bw4] eqn Hnib.
  run_step Hrun as cl5 eqn Hclear. ht_simpl.
  run_step Hrun as [[rcodes mb] cips] eqn Hmeta. apply set_error_Ret in Hmeta. ht_simpl.
  set (index5 := if checked4 then S index4 else index4) in *.
  set (ht1 := set_codeindexpairs_ _ cips) in *.
  run_step Hrun as [[bytes1 bw5] lens1] eqn Hlit.
  run_step Hrun as [[rcodes1 mb1] cips1] eqn Hlitc. apply set_error_Ret in Hlitc.
  set (ht2 := set_codeindexpairs_ _ cips1) in *.
  run_step Hrun as [[bytes2 bw6] lens2] eqn Hdist.
  run_step Hrun as [[rcodes2 mb2] cips2] eqn Hdistc. apply set_error_Ret in Hdistc.
  run_step Hrun as ? eqn Hend. apply test_Ret, Nat.eqb_eq in Hend.
  injection Hrun as <- <-.
  pose proof (write_code_lens_index _ _ _ _ _ _ _ _ _ _ Hnib) as Hidx4.
  rewrite length_seq in Hidx4. fold index5 in Hidx4.
  apply write_code_lens_stores in Hnib as (Hcl4 & Hs4 & (c4 & Hb4 & Hlc4) & Hr4).
  rewrite length_seq in Hcl4, Hlc4.
  apply clear_code_lens_Ret in Hclear as [Hcl5 _]. rewrite length_seq in Hcl5.
  assert (Hlcl5 : length cl5 = 19%nat).
  { rewrite Hcl5, Hcl4, !length_stores. assumption. }
  unfold ht2, ht1 in *. ht_simpl.
  apply BuildHuffmanReverseCodes_lens_ok in Hmeta as [Hok5 Hlr].
  apply BuildHuffmanReverseCodes_lens_ok in Hlitc as [Hok1 _].
  apply BuildHuffmanReverseCodes_lens_ok in Hdistc as [Hok2 _].
  unfold BuildHuffmanCodeLengths_bw in Hlit, Hdist.
  apply code_lengths_bw_output in Hlit as (_ & Hn1 & _ & Hcnt1 & Hs5 & (c5 & Hb5) & Hr5);
    [|lia|constructor|reflexivity].
  apply code_lengths_bw_output in Hdist as (_ & Hn2 & _ & Hcnt2 & Hs6 & (c6 & Hb6) & Hr6);
    [|lia|constructor|reflexivity].
  unfold sized_bw. ht_simpl.
  split; [split; [assumption|intros _; split; congruence]|].
  split; [destruct checked4; lia|].
  split; [|split; [split; assumption|split]].
  - split; [congruence|]. split; [apply Hr6, Hr5, Hr4; assumption|].
    exists (N_to_bits 5 h1 ++ N_to_bits 5 h2 ++ N_to_bits 4 h3 ++ c4 ++ c5 ++ c6). split.
    + rewrite Hb6, Hb5, Hb4, Hb3, Hb2, Hb1, <- !app_assoc. reflexivity.
    + rewrite !length_app, !length_N_to_bits, Hlc4. lia.
  - split; [assumption|]. split; [lia|].
    destruct (Nat.ltb_spec 0 (N.to_nat h1 + 257)); [lia|]. subst lens1. simpl. lia.
  - split; [assumption|]. split; [lia|].
    destruct (Nat.ltb_spec 0 (N.to_nat h2 + 1)); [lia|]. subst lens2. simpl. lia.
Qed.

(** ** BuildFixedHuffmanTable *)

(** [while (i < b) lens[i++] = v;] *)
Fixpoint fill_lens {E} (idxs : list nat) (v : N) (lens : list N) : outcome E (list N) :=
  match idxs with
  | [] => Ret lens
  | i :: rest =>
      lens ← vec_store lens i v;
      fill_lens rest v lens
  end.

(** [BuildFixedHuffmanTable()]: the table after the call. *)
Definition BuildFixedHuffmanTable (ht : HuffmanTable) : outcome unit HuffmanTable :=
  if initialized_ ht then Ret ht else
    let ht := set_lit_len_lens_ ht (resize 288 0 (lit_len_lens_ ht)) in
    let ht := set_lit_len_rcodes_ ht (resize 288 0 (lit_len_rcodes_ ht)) in
    let ht := set_lit_len_hcodes_ ht (resize (2 ^ 9) 0 (lit_len_hcodes_ ht)) in
    let ht := set_distance_lens_ ht (resize 30 0 (distance_lens_ ht)) in
    let ht := set_distance_rcodes_ ht (resize 30 0 (distance_rcodes_ ht)) in
    let ht := set_distance_hcodes_ ht (resize (2 ^ 5) 0 (distance_hcodes_ ht)) in
    lens ← fill_lens (seq 0 144) 8 (lit_len_lens_ ht);
    lens ← fill_lens (seq 144 112) 9 lens;
    lens ← fill_lens (seq 256 24) 7 lens;
    lens ← fill_lens (seq 280 8) 8 lens;
    let ht := set_lit_len_lens_ ht lens in
    lens ← fill_lens (seq 0 30) 5 (distance_lens_ ht);
    let ht := set_distance_lens_ ht lens in
    '(hcodes, max_bits, cips) ← BuildHuffmanCodes std_sort (lit_len_lens_ ht) (lit_len_hcodes_ ht);
    let ht :=
      set_codeindexpairs_ (set_lit_len_max_bits_ (set_lit_len_hcodes_ ht hcodes) max_bits) cips in
    '(hcodes, max_bits, cips) ← BuildHuffmanCodes std_sort (distance_lens_ ht) (distance_hcodes_ ht);
    let ht :=
      set_codeindexpairs_ (set_distance_max_bits_ (set_distance_hcodes_ ht hcodes) max_bits) cips in
    '(rcodes, max_bits, cips) ←
      BuildHuffmanReverseCodes std_sort (lit_len_lens_ ht) (lit_len_rcodes_ ht);
    let ht :=
      set_codeindexpairs_ (set_lit_len_max_bits_ (set_lit_len_rcodes_ ht rcodes) max_bits) cips in
    '(rcodes, max_bits, cips) ←
      BuildHuffmanReverseCodes std_sort (distance_lens_ ht) (distance_rcodes_ ht);
    let ht :=
      set_codeindexpairs_ (set_distance_max_bits_ (set_distance_rcodes_ ht rcodes) max_bits) cips in
    Ret (set_initialized_ ht true).

(** The lengths of the fixed codes, as the four loops leave them. *)
Definition fixed_lit_len_lens : list N :=
  replicate 144 8 ++ replicate 112 9 ++ replicate 24 7 ++ replicate 8 8.

Definition fixed_distance_lens : list N := replicate 30 5.

(** The fixed literal/length codes as RFC 1951 (3.2.6) lists them. *)
Definition fixed_code (s : nat) : N :=
  if (s <? 144)%nat then 0x30 + N.of_nat s
  else if (s <? 256)%nat then 0x190 + N.of_nat (s - 144)
  else if (s <? 280)%nat then N.of_nat (s - 256)
  else 0xC0 + N.of_nat (s - 280).

Lemma fill_lens_app {E} n v : forall a (pre rest : list N),
  a = length pre -> (n <= length rest)%nat ->
  fill_lens (E:=E) (seq a n) v (pre ++ rest) = Ret (pre ++ replicate n v ++ drop n rest).
Proof.
  induction n as [|n IH]; intros a pre rest -> Hlen; [reflexivity|].
  destruct rest as [|x rest]; [simpl in Hlen; lia|].
  cbn [seq fill_lens]. rewrite vec_store_lt by (rewrite length_app; simpl; lia).
  cbn [mbind outcome_mbind obind].
  replace (<[length pre:=v]> (pre ++ x :: rest)) with ((pre ++ [v]) ++ rest).
  2:{ rewrite insert_app_r_alt by lia. rewrite Nat.sub_diag, <- app_assoc. reflexivity. }
  rewrite (IH (S (length pre)) (pre ++ [v]) rest).
  - rewrite <- app_assoc. reflexivity.
  - rewrite length_app. simpl. lia.
  - simpl in Hlen. lia.
Qed.

Lemma fixed_lens_filled (l : list N) : length l = 288%nat ->
  exists l1 l2 l3,
    fill_lens (E:=unit) (seq 0 144) 8 l = Ret l1 /\
    fill_lens (E:=unit) (seq 144 112) 9 l1 = Ret l2 /\
    fill_lens (E:=unit) (seq 256 24) 7 l2 = Ret l3 /\
    fill_lens (E:=unit) (seq 280 8) 8 l3 = Ret fixed_lit_len_lens.
Proof.
  intros Hl.
  exists (replicate 144 8 ++ drop 144 l),
         ((replicate 144 8 ++ replicate 112 9) ++ drop 112 (drop 144 l)),
         (((replicate 144 8 ++ replicate 112 9) ++ replicate 24 7) ++
          drop 24 (drop 112 (drop 144 l))).
  split; [|split; [|split]].
  - apply (fill_lens_app 144 8 0 [] l); [reflexivity|lia].
  - rewrite (fill_lens_app 112 9 144 (replicate 144 8) (drop 144 l));
      [rewrite app_assoc; reflexivity|reflexivity|rewrite length_drop; lia].
  - rewrite (fill_lens_app 24 7 256 (replicate 144 8 ++ replicate 112 9)
               (drop 112 (drop 144 l)));
      [rewrite app_assoc; reflexivity|reflexivity|rewrite !length_drop; lia].
  - rewrite (fill_lens_app 8 8 280 ((replicate 144 8 ++ replicate 112 9) ++ replicate 24 7)
               (drop 24 (drop 112 (drop 144 l))));
      [|reflexivity|rewrite !length_drop; lia].
    rewrite !drop_drop, (drop_ge l) by lia. rewrite app_nil_r.
    unfold fixed_lit_len_lens. rewrite <- !app_assoc. reflexivity.
Qed.

Lemma fixed_distance_filled (l : list N) : length l = 30%nat ->
  fill_lens (E:=unit) (seq 0 30) 5 l = Ret fixed_distance_lens.
Proof.
  intros Hl. rewrite (fill_lens_app 30 5 0 [] l); [|reflexivity|lia].
  rewrite (drop_ge l) by lia. rewrite app_nil_r. reflexivity.
Qed.

Lemma fixed_lit_len_init :
  lens_ok fixed_lit_len_lens /\ kraft15 fixed_lit_len_lens <= 2 ^ 15 /\
  length fixed_lit_len_lens = 288%nat /\
  match InitHuffmanCodes fixed_lit_len_lens with Ret (mb, _) => mb = 9%nat | _ => False end /\
  forallb (fun s => (canonical_code fixed_lit_len_lens s =? fixed_code s) &&
                    (fixed_lit_len_lens.[s] =?
                     if (s <? 144)%nat then 8 else if (s <? 256)%nat then 9
                     else if (s <? 280)%nat then 7 else 8))
    (seq 0 288) = true.
Proof.
  split; [|split; [|split; [|split]]]; try (vm_compute; reflexivity).
  - unfold fixed_lit_len_lens. repeat apply lens_ok_app; apply lens_ok_replicate; lia.
  - vm_compute. discriminate.
Qed.

Lemma fixed_distance_init :
  lens_ok fixed_distance_lens /\ kraft15 fixed_distance_lens <= 2 ^ 15 /\
  length fixed_distance_lens = 30%nat /\
  match InitHuffmanCodes fixed_distance_lens with Ret (mb, _) => mb = 5%nat | _ => False end /\
  forallb (fun s => (canonical_code fixed_distance_lens s =? N.of_nat s) &&
                    (fixed_distance_lens.[s] =? 5)) (seq 0 30) = true.
Proof.
  split; [|split; [|split; [|split]]]; try (vm_compute; reflexivity).
  - apply lens_ok_replicate. lia.
  - vm_compute. discriminate.
Qed.

(** The runs that make up a first call of [BuildFixedHuffmanTable]. *)
Lemma BuildFixedHuffmanTable_run ht : initialized_ ht = false ->
  exists T1 c1 T2 c2 R1 c3 R2 c4,
    BuildHuffmanCodes std_sort fixed_lit_len_lens (resize (2 ^ 9) 0 (lit_len_hcodes_ ht))
      = Ret (T1, 9%nat, c1) /\
    BuildHuffmanCodes std_sort fixed_distance_lens (resize (2 ^ 5) 0 (distance_hcodes_ ht))
      = Ret (T2, 5%nat, c2) /\
    BuildHuffmanReverseCodes std_sort fixed_lit_len_lens (resize 288 0 (lit_len_rcodes_ ht))
      = Ret (R1, 9%nat, c3) /\
    BuildHuffmanReverseCodes std_sort fixed_distance_lens (resize 30 0 (distance_rcodes_ ht))
      = Ret (R2, 5%nat, c4) /\
    length T1 = (2 ^ 9)%nat /\ length T2 = (2 ^ 5)%nat /\
    length R1 = 288%nat /\ length R2 = 30%nat /\
    BuildFixedHuffmanTable ht =
    Ret {| code_lens_ := code_lens_ ht; code_hcodes_ := code_hcodes_ ht;
           code_rcodes_ := code_rcodes_ ht; code_max_bits_ := code_max_bits_ ht;
           lit_len_lens_ := fixed_lit_len_lens; lit_len_hcodes_ := T1;
           lit_len_rcodes_ := R1; lit_len_max_bits_ := 9;
           distance_lens_ := fixed_distance_lens; distance_hcodes_ := T2;
           distance_rcodes_ := R2; distance_max_bits_ := 5;
           codeindexpairs_ := c4; initialized_ := true |}.
Proof.
  intros Hi.
  destruct fixed_lit_len_init as (_ & _ & Hl1 & Hm1 & _).
  destruct fixed_distance_init as (_ & _ & Hl2 & Hm2 & _).
  destruct (InitHuffmanCodes fixed_lit_len_lens) as [[mb1 cips1]| |] eqn:Hinit1;
    try contradiction. subst mb1.
  destruct (InitHuffmanCodes fixed_distance_lens) as [[mb2 cips2]| |] eqn:Hinit2;
    try contradiction. subst mb2.
  destruct (BuildHuffmanCodes_Ret fixed_lit_len_lens (resize (2 ^ 9) 0 (lit_len_hcodes_ ht))
              9 cips1 Hinit1) as (T1 & c1 & Hb1 & _ & HT1);
    [rewrite Hl1; apply below_pow16; lia|rewrite length_resize; lia|].
  destruct (BuildHuffmanCodes_Ret fixed_distance_lens (resize (2 ^ 5) 0 (distance_hcodes_ ht))
              5 cips2 Hinit2) as (T2 & c2 & Hb2 & _ & HT2);
    [rewrite Hl2; apply below_pow16; lia|rewrite length_resize; lia|].
  rewrite length_resize in HT1, HT2.
  pose proof (BuildHuffmanReverseCodes_run fixed_lit_len_lens (resize 288 0 (lit_len_rcodes_ ht))
                9 cips1) as Hr1.
  pose proof (BuildHuffmanReverseCodes_run fixed_distance_lens (resize 30 0 (distance_rcodes_ ht))
                5 cips2) as Hr2.
  rewrite length_resize in Hr1, Hr2.
  exists T1, c1, T2, c2. eexists _, cips1. eexists _, cips2.
  split; [exact Hb1|]. split; [exact Hb2|].
  split; [apply Hr1; [rewrite Hl1; apply Nat.lt_le_incl, below_pow16; lia|assumption]|].
  split; [apply Hr2; [rewrite Hl2; apply Nat.lt_le_incl, below_pow16; lia|assumption]|].
  split; [assumption|]. split; [assumption|].
  split; [rewrite length_reverse_codes, length_resize; reflexivity|].
  split; [rewrite length_reverse_codes, length_resize; reflexivity|].
  unfold BuildFixedHuffmanTable. rewrite Hi. cbv zeta. ht_simpl.
  destruct (fixed_lens_filled (resize 288 0 (lit_len_lens_ ht))) as (l1 & l2 & l3 & F1 & F2 & F3 & F4);
    [apply length_resize|].
  rewrite F1. cbn [mbind outcome_mbind obind]. rewrite F2. cbn [mbind outcome_mbind obind].
  rewrite F3. cbn [mbind outcome_mbind obind]. rewrite F4. cbn [mbind outcome_mbind obind].
  ht_simpl. rewrite fixed_distance_filled by apply length_resize.
  cbn [mbind outcome_mbind obind]. ht_simpl.
  rewrite Hb1. cbn [mbind outcome_mbind obind]. ht_simpl.
  rewrite Hb2. cbn [mbind outcome_mbind obind]. ht_simpl.
  rewrite Hr1 by (try assumption; rewrite Hl1; apply Nat.lt_le_incl, below_pow16; lia).
  cbn [mbind outcome_mbind obind]. ht_simpl.
  rewrite Hr2 by (try assumption; rewrite Hl2; apply Nat.lt_le_incl, below_pow16; lia).
  cbn [mbind outcome_mbind obind]. ht_simpl. reflexivity.
Qed.

(** X14. A first call of [BuildFixedHuffmanTable] returns true, whatever
    the table held: it leaves the lengths 8, 9, 7, 8 of the 288
    literal/length symbols and 5 of the 30 distance symbols, tables of 512
    and 32 entries with [max_bits] 9 and 5, reverse tables of 288 and 30
    entries, and the mark [initialized_]. It does not touch the tables of
    the meta code. *)
Theorem BuildFixedHuffmanTable_builds (ht : HuffmanTable) :
  initialized_ ht = false ->
  exists ht', BuildFixedHuffmanTable ht = Ret ht' /\
    initialized_ ht' = true /\
    lit_len_lens_ ht' = replicate 144 8 ++ replicate 112 9 ++ replicate 24 7 ++ replicate 8 8 /\
    distance_lens_ ht' = replicate 30 5 /\
    lit_len_max_bits_ ht' = 9%nat /\ distance_max_bits_ ht' = 5%nat /\
    length (lit_len_hcodes_ ht') = (2 ^ 9)%nat /\ length (distance_hcodes_ ht') = (2 ^ 5)%nat /\
    length (lit_len_rcodes_ ht') = 288%nat /\ length (distance_rcodes_ ht') = 30%nat /\
    code_lens_ ht' = code_lens_ ht /\ code_hcodes_ ht' = code_hcodes_ ht /\
    code_rcodes_ ht' = code_rcodes_ ht.
Proof.
  intros Hi.
  destruct (BuildFixedHuffmanTable_run ht Hi)
    as (T1 & c1 & T2 & c2 & R1 & c3 & R2 & c4 & _ & _ & _ & _ & H1 & H2 & H3 & H4 & Hrun).
  eexists. split; [exact Hrun|]. ht_simpl. repeat split; assumption.
Qed.

Lemma fixed_lit_len_facts s : (s < 288)%nat ->
  s ∈ coded_symbols fixed_lit_len_lens /\
  canonical_code fixed_lit_len_lens s = fixed_code s /\
  fixed_lit_len_lens.[s] =
    (if (s <? 144)%nat then 8 else if (s <? 256)%nat then 9
     else if (s <? 280)%nat then 7 else 8).
Proof.
  intros Hs. destruct fixed_lit_len_init as (_ & _ & Hl & _ & Hall).
  rewrite forallb_forall in Hall. specialize (Hall s).
  rewrite andb_true_iff, !N.eqb_eq in Hall.
  destruct Hall as [Hc Hlen]; [apply in_seq; lia|].
  split; [|split; assumption]. apply coded_symbols_elem. split; [lia|].
  rewrite Hlen. destruct (s <? 144)%nat; [lia|]. destruct (s <? 256)%nat; [lia|].
  destruct (s <? 280)%nat; lia.
Qed.

Lemma fixed_distance_facts d : (d < 30)%nat ->
  d ∈ coded_symbols fixed_distance_lens /\
  canonical_code fixed_distance_lens d = N.of_nat d /\ fixed_distance_lens.[d] = 5.
Proof.
  intros Hd. destruct fixed_distance_init as (_ & _ & Hl & _ & Hall).
  rewrite forallb_forall in Hall. specialize (Hall d).
  rewrite andb_true_iff, !N.eqb_eq in Hall.
  destruct Hall as [Hc Hlen]; [apply in_seq; lia|].
  split; [|split; assumption]. apply coded_symbols_elem. split; [lia|].
  rewrite Hlen. lia.
Qed.

(** X15. The codes of the fixed tables are those of RFC 1951 (3.2.6). The
    reverse table holds, for each of the 288 literal/length symbols, the
    listed code reversed over the symbol's length; every 9-bit slot of the
    forward table that begins with it holds the symbol, with the valid bit.
    Distance symbol [d] has the 5-bit code [d]; the two slots that are the
    code of no distance symbol are 0. *)
Theorem BuildFixedHuffmanTable_codes (ht ht' : HuffmanTable) :
  initialized_ ht = false -> BuildFixedHuffmanTable ht = Ret ht' ->
  (forall s, (s < 288)%nat ->
     let len := N.to_nat (lit_len_lens_ ht').[s] in
     (lit_len_rcodes_ ht').[s] = bit_reversed len (fixed_code s) /\
     forall i, i < 2 ^ 9 -> low_bits len i = bit_reversed len (fixed_code s) ->
       (lit_len_hcodes_ ht').[N.to_nat i] = N.of_nat s + 0x8000) /\
  (forall d, (d < 30)%nat ->
     (distance_rcodes_ ht').[d] = bit_reversed 5 (N.of_nat d) /\
     (distance_hcodes_ ht').[N.to_nat (bit_reversed 5 (N.of_nat d))] = N.of_nat d + 0x8000) /\
  (forall i, i < 2 ^ 5 ->
     (forall d, (d < 30)%nat -> bit_reversed 5 (N.of_nat d) <> i) ->
     (distance_hcodes_ ht').[N.to_nat i] = 0).
Proof.
  intros Hi Hrun.
  destruct (BuildFixedHuffmanTable_run ht Hi)
    as (T1 & c1 & T2 & c2 & R1 & c3 & R2 & c4 & Hb1 & Hb2 & Hr1 & Hr2 & _ & _ & _ & _ & Hrun').
  rewrite Hrun' in Hrun. injection Hrun as <-. ht_simpl.
  destruct fixed_lit_len_init as (Hok1 & Hk1 & Hl1 & _ & _).
  destruct fixed_distance_init as (Hok2 & Hk2 & Hl2 & _ & _).
  assert (Hkq1 : (kraft_sum fixed_lit_len_lens <= 1)%Q) by (apply kraft_le_1; assumption).
  assert (Hkq2 : (kraft_sum fixed_distance_lens <= 1)%Q) by (apply kraft_le_1; assumption).
  assert (Hs1 : (length fixed_lit_len_lens <= 2 ^ 15)%nat).
  { rewrite Hl1. apply (Nat.le_trans _ (2 ^ 9)); [simpl; lia|apply Nat.pow_le_mono_r; lia]. }
  assert (Hs2 : (length fixed_distance_lens <= 2 ^ 15)%nat).
  { rewrite Hl2. apply (Nat.le_trans _ (2 ^ 5)); [simpl; lia|apply Nat.pow_le_mono_r; lia]. }
  assert (Hs1' : (length fixed_lit_len_lens <= 2 ^ 16)%nat).
  { etransitivity; [exact Hs1|]. apply Nat.pow_le_mono_r; lia. }
  assert (Hs2' : (length fixed_distance_lens <= 2 ^ 16)%nat).
  { etransitivity; [exact Hs2|]. apply Nat.pow_le_mono_r; lia. }
  destruct (BuildHuffmanCodes_Init std_sort _ _ _ _ _ Hb1) as (cips1 & Hinit1).
  destruct (BuildHuffmanCodes_Init std_sort _ _ _ _ _ Hb2) as (cips2 & Hinit2).
  rewrite (BuildHuffmanReverseCodes_run _ _ _ _ Hs1' Hinit1) in Hr1. injection Hr1 as <- _.
  rewrite (BuildHuffmanReverseCodes_run _ _ _ _ Hs2' Hinit2) in Hr2. injection Hr2 as <- _.
  destruct (reverse_table _ (resize 288 0 (lit_len_rcodes_ ht)) _ _ Hinit1 Hkq1 Hs1')
    as (_ & Hrev1).
  destruct (reverse_table _ (resize 30 0 (distance_rcodes_ ht)) _ _ Hinit2 Hkq2 Hs2')
    as (_ & Hrev2).
  rewrite length_resize in Hrev1, Hrev2. rewrite !length_resize.
  split; [|split].
  - intros s Hs. cbv zeta. destruct (fixed_lit_len_facts s Hs) as (Hcoded & Hcode & Hlen).
    apply coded_symbols_elem in Hcoded as Hnz. destruct Hnz as [_ Hnz].
    split.
    + rewrite (Hrev1 s Hs). destruct (decide (fixed_lit_len_lens.[s] <> 0)); [|contradiction].
      rewrite Hcode. reflexivity.
    + intros i Hilt Hlow.
      apply (forward_entry fixed_lit_len_lens (resize (2 ^ 9) 0 (lit_len_hcodes_ ht))
               T1 9 c1 s (N.to_nat i)); auto.
      * assert (H : (N.to_nat i < N.to_nat (2 ^ 9))%nat) by lia.
        rewrite N2Nat.inj_pow in H. exact H.
      * rewrite N2Nat.id, Hcode. exact Hlow.
  - intros d Hd. destruct (fixed_distance_facts d Hd) as (Hcoded & Hcode & Hlen).
    split.
    + rewrite (Hrev2 d Hd). destruct (decide (fixed_distance_lens.[d] <> 0)); [|lia].
      rewrite Hcode, Hlen. reflexivity.
    + apply (forward_entry fixed_distance_lens (resize (2 ^ 5) 0 (distance_hcodes_ ht))
               T2 5 c2 d); auto.
      * pose proof (bit_reversed_lt 5 (N.of_nat d)) as H.
        assert (H' : (N.to_nat (bit_reversed 5 (N.of_nat d)) < N.to_nat (2 ^ 5))%nat)
          by (simpl in H; lia).
        rewrite N2Nat.inj_pow in H'. exact H'.
      * rewrite N2Nat.id, Hcode, Hlen. unfold low_bits.
        apply N.mod_small, (bit_reversed_lt 5).
  - intros i Hilt Hnone.
    destruct (BuildHuffmanCodes_symbol fixed_distance_lens
                (resize (2 ^ 5) 0 (distance_hcodes_ ht)) T2 5 c2 Hb2 Hkq2 Hs2)
      as (_ & _ & _ & _ & Hzero & Hsym & _).
    assert (Hj : (N.to_nat i < 2 ^ 5)%nat).
    { assert (H : (N.to_nat i < N.to_nat (2 ^ 5))%nat) by lia.
      rewrite N2Nat.inj_pow in H. exact H. }
    destruct (valid T2.[N.to_nat i]) eqn:Hv; [|apply Hzero; assumption].
    destruct (Hsym _ Hj Hv) as (d & Hd & _ & Hcar). exfalso.
    apply coded_symbols_elem in Hd as Hd'. destruct Hd' as [Hd' _].
    destruct fixed_distance_init as (_ & _ & Hl & _).
    rewrite Hl in Hd'. destruct (fixed_distance_facts d Hd') as (_ & Hcode & Hlen).
    rewrite N2Nat.id, Hcode, Hlen in Hcar. change (N.to_nat 5) with 5%nat in Hcar.
    apply (Hnone d Hd').
    rewrite <- Hcar. unfold low_bits. apply N.mod_small. exact Hilt.
Qed.

(** X16. The two builders share the mark [initialized_]. After a first call
    of [BuildFixedHuffmanTable] on a new table, a second call changes
    nothing, and the reading direction of [BuildDynamicHuffmanTable] skips
    its own sizing: with a header it accepts so far, it stores the first
    meta length into [code_lens_], which is empty, out of bounds. *)
Theorem BuildFixedHuffmanTable_then_dynamic (ht ht' : HuffmanTable) (br : BitReader)
    (buffer : list N) :
  initialized_ ht = false -> code_lens_ ht = [] ->
  BuildFixedHuffmanTable ht = Ret ht' ->
  (13 <= length buffer)%nat -> (17 <= length br)%nat ->
  ReadBits 5 br <= 29 -> ReadBits 5 (DropBits 5 br) <= 29 ->
  BuildFixedHuffmanTable ht' = Ret ht' /\
  BuildDynamicHuffmanTable_br std_sort ht' br buffer = Undefined.
Proof.
  intros Hi Hcl Hrun Hbuf Hbr Hh1 Hh2.
  destruct (BuildFixedHuffmanTable_run ht Hi)
    as (T1 & c1 & T2 & c2 & R1 & c3 & R2 & c4 & _ & _ & _ & _ & _ & _ & _ & _ & Hrun').
  rewrite Hrun' in Hrun. injection Hrun as <-.
  split; [reflexivity|].
  unfold BuildDynamicHuffmanTable_br. cbv zeta.
  unfold initialize_br. ht_simpl. rewrite Hcl.
  destruct (Nat.leb_spec 3 (length buffer)); [|lia]. cbn [test mbind outcome_mbind obind].
  unfold CacheBits at 1. destruct (Nat.leb_spec 14 (length br)); [|lia].
  cbn [test mbind outcome_mbind obind].
  set (br1 := DropBits 5 br) in *. set (br2 := DropBits 5 br1).
  set (h1 := ReadBits 5 br) in *. set (h2 := ReadBits 5 br1) in *. set (h3 := ReadBits 4 br2).
  pose proof (ReadBits_lt 4 br2) as Hh3. fold h3 in Hh3. simpl in Hh3.
  assert (Hcheck : CheckHuffmanArrayLengths (N.to_nat h1 + 257) (N.to_nat h2 + 1)
                     (N.to_nat h3 + 4) = true).
  { unfold CheckHuffmanArrayLengths. rewrite !andb_true_iff, !Nat.leb_le. lia. }
  rewrite Hcheck. cbn [test mbind outcome_mbind obind].
  rewrite !length_insert.
  destruct (Nat.leb_spec ((N.to_nat h3 + 4 + 1) / 2) (length buffer - 3)) as [_|Hbad].
  2:{ exfalso. apply Nat.lt_nge in Hbad. apply Hbad, half_le. lia. }
  cbn [test mbind outcome_mbind obind].
  replace (N.to_nat h3 + 4)%nat with (S (N.to_nat h3 + 3)) by lia.
  cbn [seq read_code_lens]. unfold CacheBits.
  assert (Hl : (3 <= length (DropBits 4 br2))%nat).
  { unfold br2, br1, DropBits. rewrite !length_drop. lia. }
  destruct (Nat.leb_spec 3 (length (DropBits 4 br2))); [|lia].
  cbn [test mbind outcome_mbind obind]. reflexivity.
Qed.

End Coverage.

Lemma vec_eq (a b : list N) : length a = length b -> (forall j, a.[j] = b.[j]) -> a = b.
Proof.
  intros Hl H. apply list_eq. intros j. specialize (H j). unfold vec_get in H.
  destruct (a !! j) eqn:Ea, (b !! j) eqn:Eb; simpl in H; try congruence.
  - apply lookup_ge_None in Eb. apply lookup_lt_Some in Ea. lia.
  - apply lookup_ge_None in Ea. apply lookup_lt_Some in Eb. lia.
Qed.

(** X6. [std::sort] leaves the order of pairs of equal length open. For at
    most [2^15] lengths with a Kraft sum of at most 1 the table does not
    depend on it: any two sorting routines leave the same table. *)
Theorem BuildHuffmanCodes_any_order
    (sort1 sort2 : (CodeIndexPair -> CodeIndexPair -> bool) ->
                   list CodeIndexPair -> list CodeIndexPair)
    (lens hcodes h1 h2 : list N) (mb1 mb2 : nat) (c1 c2 : list CodeIndexPair) :
  (forall comp l, sort1 comp l ≡ₚ l) -> (forall comp l, sort2 comp l ≡ₚ l) ->
  BuildHuffmanCodes sort1 lens hcodes = Ret (h1, mb1, c1) ->
  BuildHuffmanCodes sort2 lens hcodes = Ret (h2, mb2, c2) ->
  (kraft_sum lens <= 1)%Q -> (length lens <= 2 ^ 15)%nat ->
  h1 = h2 /\ mb1 = mb2 /\ c1 ≡ₚ c2.
Proof.
  intros Hp1 Hp2 Hrun1 Hrun2 Hkq Hlen.
  assert (Hlen16 : (length lens <= 2 ^ 16)%nat).
  { etransitivity; [exact Hlen|]. apply Nat.pow_le_mono_r; lia. }
  destruct (BuildHuffmanCodes_table sort1 Hp1 lens hcodes h1 mb1 c1 Hlen16 Hrun1)
    as (cips1 & Hinit1 & Hperm1 & _ & Hl1 & _).
  destruct (BuildHuffmanCodes_table sort2 Hp2 lens hcodes h2 mb2 c2 Hlen16 Hrun2)
    as (cips2 & Hinit2 & Hperm2 & _ & Hl2 & _).
  rewrite Hinit1 in Hinit2. injection Hinit2 as <- <-.
  split; [|split; [reflexivity|rewrite Hperm1, Hperm2; reflexivity]].
  destruct (BuildHuffmanCodes_symbol sort1 Hp1 lens hcodes h1 mb1 c1 Hrun1 Hkq Hlen)
    as (Hok & Hk & _ & _ & Hz1 & Hs1 & Hv1).
  destruct (BuildHuffmanCodes_symbol sort2 Hp2 lens hcodes h2 mb1 c2 Hrun2 Hkq Hlen)
    as (_ & _ & _ & _ & Hz2 & Hs2 & Hv2).
  apply vec_eq; [congruence|]. intros j.
  destruct (le_lt_dec (2 ^ mb1) j) as [Hge|Hj].
  - rewrite (BuildHuffmanCodes_frame sort1 Hp1 lens hcodes h1 mb1 c1 Hlen16 Hrun1 j Hge).
    rewrite (BuildHuffmanCodes_frame sort2 Hp2 lens hcodes h2 mb1 c2 Hlen16 Hrun2 j Hge).
    reflexivity.
  - destruct (valid h1.[j]) eqn:V1.
    + destruct (Hs1 j Hj V1) as (s & Hs & He & Hcar).
      pose proof (Hv2 s j Hs Hj Hcar) as V2.
      destruct (Hs2 j Hj V2) as (s' & Hs' & He' & Hcar').
      rewrite He, He'. do 2 f_equal.
      apply (carried_unique lens s s' (N.of_nat j)); auto.
    + rewrite (Hz1 j Hj V1). destruct (valid h2.[j]) eqn:V2.
      * destruct (Hs2 j Hj V2) as (s' & Hs' & _ & Hcar').
        rewrite (Hv1 s' j Hs' Hj Hcar') in V1. discriminate.
      * rewrite (Hz2 j Hj V2). reflexivity.
Qed.

(** ** The further properties at concrete inputs *)

(** A second sorting routine, which meets equal elements in the other
    order. *)
Definition rev_sort {A} (comp : A -> A -> bool) (l : list A) : list A :=
  insertion_sort comp (rev l).

Lemma rev_sort_perm {A} (comp : A -> A -> bool) l : rev_sort comp l ≡ₚ l.
Proof. unfold rev_sort. rewrite insertion_sort_perm. apply Permutation_sym, Permutation_rev. Qed.

Lemma example_init : InitHuffmanCodes example_lens = Ret (4%nat, example_cips).
Proof. vm_compute. reflexivity. Qed.

Lemma example_lens_short : (length example_lens < 2 ^ 16)%nat.
Proof. apply below_pow16. simpl. lia. Qed.

Lemma example_lens_kraft : (kraft_sum example_lens <= 1)%Q.
Proof. vm_compute. discriminate. Qed.

Lemma example_lens_15 : (length example_lens <= 2 ^ 15)%nat.
Proof. below_pow2 3%nat. Qed.

Lemma example_lens_16 : (length example_lens <= 2 ^ 16)%nat.
Proof. below_pow2 3%nat. Qed.

(** The tables of [example_lens]. *)
Definition example_forward : list N :=
  Eval vm_compute in
    match BuildHuffmanCodes insertion_sort example_lens (replicate 16 0) with
    | Ret (hcodes, _, _) => hcodes
    | _ => []
    end.

Definition example_sorted : list CodeIndexPair :=
  Eval vm_compute in
    match BuildHuffmanCodes insertion_sort example_lens (replicate 16 0) with
    | Ret (_, _, cips) => cips
    | _ => []
    end.

Definition example_reverse : list N :=
  Eval vm_compute in
    match BuildHuffmanReverseCodes insertion_sort example_lens (replicate 8 0) with
    | Ret (rcodes, _, _) => rcodes
    | _ => []
    end.

Lemma example_forward_eq :
  BuildHuffmanCodes insertion_sort example_lens (replicate 16 0)
  = Ret (example_forward, 4%nat, example_sorted).
Proof. vm_compute. reflexivity. Qed.

(** The pairs as [rev_sort] leaves them: those of equal length in the
    other order. *)
Definition example_sorted' : list CodeIndexPair :=
  Eval vm_compute in
    match BuildHuffmanCodes rev_sort example_lens (replicate 16 0) with
    | Ret (_, _, cips) => cips
    | _ => []
    end.

Lemma example_forward_rev :
  BuildHuffmanCodes rev_sort example_lens (replicate 16 0)
  = Ret (example_forward, 4%nat, example_sorted').
Proof. vm_compute. reflexivity. Qed.

Lemma example_reverse_eq :
  BuildHuffmanReverseCodes insertion_sort example_lens (replicate 8 0)
  = Ret (example_reverse, 4%nat, example_cips).
Proof. vm_compute. reflexivity. Qed.

Lemma InitHuffmanCodes_max_bits_witness :
  (4 <= 15)%nat /\
  exists s, (s < length example_lens)%nat /\ N.to_nat example_lens.[s] = 4%nat.
Proof.
  destruct (InitHuffmanCodes_max_bits example_lens 4 example_cips example_init
              example_lens_short) as (H1 & _ & H3).
  split; [exact H1|]. apply H3. discriminate.
Defined.

Lemma InitHuffmanCodes_prefix_free_witness :
  {| code := 0; index := 5 |} ∈ example_cips /\
  low_bits 2 0 = 0 /\
  {| code := 0; index := 5 |} = {| code := 0; index := 5 |}.
Proof.
  assert (Hin : {| code := 0; index := 5 |} ∈ example_cips).
  { unfold example_cips. do 5 right. left. }
  split; [exact Hin|]. split; [reflexivity|].
  apply (InitHuffmanCodes_prefix_free example_lens 4 example_cips _ _ example_init
           example_lens_kraft example_lens_16 Hin Hin); [apply le_n|reflexivity].
Defined.

Lemma BuildHuffmanCodes_accepts_witness :
  exists hcodes' cips,
    BuildHuffmanCodes insertion_sort example_lens (replicate 16 0)
    = Ret (hcodes', 4%nat, cips) /\
    cips ≡ₚ example_cips /\ length hcodes' = 16%nat.
Proof.
  pose proof (BuildHuffmanCodes_accepts insertion_sort (@insertion_sort_perm CodeIndexPair)
                example_lens (replicate 16 0) 4 example_cips example_init
                example_lens_short) as H.
  destruct (Nat.leb_spec (2 ^ 4) (length (replicate 16 (0 : N)))) as [_|Hbad];
    [|simpl in Hbad; lia].
  destruct H as (hcodes' & cips & H1 & H2 & H3 & _).
  exists hcodes', cips. split; [exact H1|]. split; [exact H2|exact H3].
Defined.

Lemma BuildHuffmanCodes_slots_witness :
  example_forward.[4%nat] = 5 + 0x8000 /\
  (example_forward.[4%nat] = 0 /\
   (forall s, s ∈ coded_symbols example_lens ->
      low_bits (N.to_nat example_lens.[s]) 4 <>
      bit_reversed (N.to_nat example_lens.[s]) (canonical_code example_lens s)) \/
   exists s, s ∈ coded_symbols example_lens /\
     example_forward.[4%nat] = N.of_nat s + 0x8000 /\
     low_bits (N.to_nat example_lens.[s]) 4 =
     bit_reversed (N.to_nat example_lens.[s]) (canonical_code example_lens s) /\
     forall s', s' ∈ coded_symbols example_lens ->
       low_bits (N.to_nat example_lens.[s']) 4 =
       bit_reversed (N.to_nat example_lens.[s']) (canonical_code example_lens s') -> s' = s).
Proof.
  split; [reflexivity|].
  apply (BuildHuffmanCodes_slots insertion_sort (@insertion_sort_perm CodeIndexPair)
           example_lens (replicate 16 0) example_forward 4 example_sorted 4
           example_forward_eq example_lens_kraft example_lens_15).
  simpl. lia.
Defined.

Lemma BuildHuffmanCodes_any_order_witness :
  BuildHuffmanCodes insertion_sort example_lens (replicate 16 0)
  = Ret (example_forward, 4%nat, example_sorted) /\
  BuildHuffmanCodes rev_sort example_lens (replicate 16 0)
  = Ret (example_forward, 4%nat, example_sorted') /\
  example_sorted <> example_sorted' /\
  example_forward = example_forward /\ example_sorted ≡ₚ example_sorted'.
Proof.
  split; [exact example_forward_eq|]. split; [exact example_forward_rev|].
  split; [discriminate|].
  destruct (BuildHuffmanCodes_any_order insertion_sort rev_sort example_lens (replicate 16 0)
              example_forward example_forward 4 4 example_sorted (example_sorted')
              (@insertion_sort_perm CodeIndexPair) (@rev_sort_perm CodeIndexPair)
              example_forward_eq example_forward_rev example_lens_kraft example_lens_15)
    as (H1 & _ & H3).
  split; [exact H1|exact H3].
Defined.

Lemma lens_ok_example : lens_ok example_lens.
Proof. lens_ok_tac. Qed.

Lemma BuildHuffmanReverseCodes_contents_witness :
  exists rcodes' max_bits cips,
    BuildHuffmanReverseCodes insertion_sort example_lens (replicate 8 0)
    = Ret (rcodes', max_bits, cips) /\
    length rcodes' = 8%nat /\
    rcodes'.[5%nat] = bit_reversed 2 (canonical_code example_lens 5).
Proof.
  destruct (BuildHuffmanReverseCodes_contents insertion_sort
              (@insertion_sort_perm CodeIndexPair) (@insertion_sort_sorted CodeIndexPair)
              example_lens (replicate 8 0) lens_ok_example example_lens_kraft example_lens_16)
    as (rcodes' & mb & cips & H1 & H2 & H3).
  exists rcodes', mb, cips. split; [exact H1|]. split; [exact H2|].
  destruct (H3 5%nat) as [H _]; [simpl; lia|]. apply H. discriminate.
Defined.

Lemma forward_reverse_agree_witness :
  example_reverse.[5%nat] = 0 /\ example_forward.[4%nat] = 5 + 0x8000 /\
  (low_bits 2 4 = example_reverse.[5%nat] <-> example_forward.[4%nat] = 5 + 0x8000).
Proof.
  split; [reflexivity|]. split; [reflexivity|].
  destruct (forward_reverse_agree insertion_sort (@insertion_sort_perm CodeIndexPair)
              (@insertion_sort_sorted CodeIndexPair) example_lens
              (replicate 16 0) (replicate 8 0) example_forward example_reverse 4 4
              example_sorted example_cips 5
              example_forward_eq example_reverse_eq example_lens_kraft example_lens_15)
    as (_ & _ & _ & Hdec); [simpl; lia|simpl; lia|discriminate|].
  apply (Hdec 4%nat). simpl. lia.
Defined.

Lemma BuildHuffmanCodeLengths_br_output_witness :
  BuildHuffmanCodeLengths_br run_table
    [true; false; false; false; false; false; false; false] [0; 0] 1 5
  = Ret ([], [28; 0], 1%nat, replicate 11 0) /\
  lens_ok (replicate 11 0) /\
  (5 <= length (replicate 11 (0 : N)) <= 5 + 137)%nat.
Proof.
  assert (E : BuildHuffmanCodeLengths_br run_table
                [true; false; false; false; false; false; false; false] [0; 0] 1 5
              = Ret ([], [28; 0], 1%nat, replicate 11 0)) by reflexivity.
  split; [exact E|].
  destruct (BuildHuffmanCodeLengths_br_output _ _ _ _ _ _ _ _ _ E) as (H1 & H2 & _).
  split; [exact H1|exact H2].
Defined.

Lemma BuildHuffmanCodeLengths_bw_output_witness :
  BuildHuffmanCodeLengths_bw run_table [28; 7] {| bw_bits := []; bw_size := 8 |} 5
  = Ret (1%nat,
         {| bw_bits := [true; false; false; false; false; false; false; false];
            bw_size := 8 |},
         replicate 11 0) /\
  BuildHuffmanCodeLengths_bw run_table (take 1 [28; 7] ++ [200; 201])
    {| bw_bits := []; bw_size := 8 |} 5
  = Ret (1%nat,
         {| bw_bits := [true; false; false; false; false; false; false; false];
            bw_size := 8 |},
         replicate 11 0).
Proof.
  assert (E : BuildHuffmanCodeLengths_bw run_table [28; 7] {| bw_bits := []; bw_size := 8 |} 5
              = Ret (1%nat,
                     {| bw_bits := [true; false; false; false; false; false; false; false];
                        bw_size := 8 |},
                     replicate 11 0)) by reflexivity.
  split; [exact E|].
  destruct (BuildHuffmanCodeLengths_bw_output _ _ _ _ _ _ _ E) as (_ & _ & _ & _ & _ & _ & _ & H).
  apply (H [200; 201]).
Defined.

Lemma sized_br_new : sized_br new_table.
Proof. intros H. discriminate H. Qed.

Lemma sized_bw_new : sized_bw new_table.
Proof. intros H. discriminate H. Qed.

Lemma BuildDynamicHuffmanTable_br_in_bounds_witness :
  in_bounds (BuildDynamicHuffmanTable_br insertion_sort new_table
               (example_header ++ [true; true; false]) (replicate 20 0)) = true.
Proof.
  apply (BuildDynamicHuffmanTable_br_in_bounds insertion_sort
           (@insertion_sort_perm CodeIndexPair) (@insertion_sort_sorted CodeIndexPair)).
  exact sized_br_new.
Defined.

Lemma BuildDynamicHuffmanTable_br_leaves_witness :
  exists ht',
    BuildDynamicHuffmanTable_br insertion_sort new_table
      (example_header ++ [true; true; false]) (replicate 20 0)
    = Ret (ht', [true; true; false], example_puff ++ [0; 0], 18%nat) /\
    initialized_ ht' = true /\ sized_br ht' /\
    length (code_lens_ ht') = 19%nat /\ lens_ok (lit_len_lens_ ht') /\
    (257 <= length (lit_len_lens_ ht') <= 257 + 137)%nat.
Proof.
  pose proof example_read as Hread.
  destruct (BuildDynamicHuffmanTable_br insertion_sort new_table
              (example_header ++ [true; true; false]) (replicate 20 0))
    as [[[[ht' br'] buffer'] n]| |] eqn:E; [|contradiction ..].
  destruct Hread as (-> & -> & ->).
  destruct (BuildDynamicHuffmanTable_br_leaves insertion_sort
              (@insertion_sort_perm CodeIndexPair) (@insertion_sort_sorted CodeIndexPair)
              _ _ _ _ _ _ _ E sized_br_new)
    as ((H1 & H2) & _ & (H3 & _) & (H4 & _ & H5) & _).
  exists ht'. split; [reflexivity|]. split; [exact H1|]. split; [exact H2|].
  split; [exact H3|]. split; [exact H4|exact H5].
Defined.

Lemma example_puff_bytes : Forall (fun b => b < 256) example_puff.
Proof. unfold example_puff. repeat (constructor; [reflexivity|]). constructor. Qed.

Lemma BuildDynamicHuffmanTable_bw_in_bounds_witness :
  in_bounds (BuildDynamicHuffmanTable_bw insertion_sort new_table example_puff
               {| bw_bits := []; bw_size := 98 |}) = true.
Proof.
  apply (BuildDynamicHuffmanTable_bw_in_bounds insertion_sort);
    [exact sized_bw_new|exact example_puff_bytes].
Defined.

Lemma BuildFixedHuffmanTable_builds_witness :
  exists ht', BuildFixedHuffmanTable insertion_sort new_table = Ret ht' /\
    initialized_ ht' = true /\
    lit_len_max_bits_ ht' = 9%nat /\ distance_max_bits_ ht' = 5%nat /\
    code_lens_ ht' = [].
Proof.
  destruct (BuildFixedHuffmanTable_builds insertion_sort
              (@insertion_sort_perm CodeIndexPair) (@insertion_sort_sorted CodeIndexPair)
              new_table eq_refl)
    as (ht' & H1 & H2 & _ & _ & H3 & H4 & _ & _ & _ & _ & H5 & _).
  exists ht'. split; [exact H1|]. split; [exact H2|]. split; [exact H3|].
  split; [exact H4|exact H5].
Defined.

Lemma BuildFixedHuffmanTable_codes_witness :
  exists ht', BuildFixedHuffmanTable insertion_sort new_table = Ret ht' /\
    (lit_len_rcodes_ ht').[0%nat] = 12 /\
    (lit_len_hcodes_ ht').[12%nat] = 0x8000 /\
    (distance_rcodes_ ht').[1%nat] = 16.
Proof.
  destruct (BuildFixedHuffmanTable_run insertion_sort
              (@insertion_sort_perm CodeIndexPair) (@insertion_sort_sorted CodeIndexPair)
              new_table eq_refl)
    as (T1 & c1 & T2 & c2 & R1 & c3 & R2 & c4 & _ & _ & _ & _ & _ & _ & _ & _ & Hrun).
  eexists. split; [exact Hrun|].
  destruct (BuildFixedHuffmanTable_codes insertion_sort
              (@insertion_sort_perm CodeIndexPair) (@insertion_sort_sorted CodeIndexPair)
              new_table _ eq_refl Hrun) as (Hlit & Hdist & _).
  destruct (Hlit 0%nat) as [Hr Hf]; [lia|].
  destruct (Hdist 1%nat) as [Hd _]; [lia|].
  split; [exact Hr|]. split; [|exact Hd].
  apply (Hf 12); reflexivity.
Defined.

Lemma BuildFixedHuffmanTable_then_dynamic_witness :
  exists ht', BuildFixedHuffmanTable insertion_sort new_table = Ret ht' /\
    BuildFixedHuffmanTable insertion_sort ht' = Ret ht' /\
    BuildDynamicHuffmanTable_br insertion_sort ht' (replicate 17 false) (replicate 13 0)
    = Undefined.
Proof.
  destruct (BuildFixedHuffmanTable_run insertion_sort
              (@insertion_sort_perm CodeIndexPair) (@insertion_sort_sorted CodeIndexPair)
              new_table eq_refl)
    as (T1 & c1 & T2 & c2 & R1 & c3 & R2 & c4 & _ & _ & _ & _ & _ & _ & _ & _ & Hrun).
  eexists. split; [exact Hrun|].
  apply (BuildFixedHuffmanTable_then_dynamic insertion_sort
           (@insertion_sort_perm CodeIndexPair) (@insertion_sort_sorted CodeIndexPair)
           new_table _ (replicate 17 false) (replicate 13 0) eq_refl eq_refl Hrun).
  - simpl. lia.
  - simpl. lia.
  - vm_compute. discriminate.
  - vm_compute. discriminate.
Defined.

Lemma BuildDynamicHuffmanTable_bw_leaves_witness :
  exists ht' bw',
    BuildDynamicHuffmanTable_bw insertion_sort new_table example_puff
      {| bw_bits := []; bw_size := 98 |} = Ret (ht', bw') /\
    initialized_ ht' = true /\ bw_size bw' = 98%nat /\
    (length (bw_bits bw') <= bw_size bw')%nat /\ lens_ok (lit_len_lens_ ht').
Proof.
  pose proof example_write as Hwrite.
  destruct (BuildDynamicHuffmanTable_bw insertion_sort new_table example_puff
              {| bw_bits := []; bw_size := 98 |}) as [[ht' bw']| |] eqn:E;
    [|discriminate ..].
  destruct (BuildDynamicHuffmanTable_bw_leaves insertion_sort _ _ _ _ _ E sized_bw_new)
    as ((H1 & _) & _ & (H2 & H3 & _) & _ & (H4 & _) & _).
  exists ht', bw'. split; [reflexivity|]. split; [exact H1|]. split; [exact H2|].
  split; [exact H3|exact H4].
Defined.
